(** * Octopus: the read manager (src/read_manager.cpp)

    A shallow embedding of [ReadManager]: the catalogue of alignment files,
    the pool of open readers ordered by file size, the sample index and the
    region index, with construction and the [fetch_reads] overloads.

    Conventions of the embedding:
    - [unsigned] values are integers in [Z]; every conversion and every
      subtraction the source performs in [unsigned] is written with
      [to_unsigned] (reduction modulo 2^32);
    - a C++ exception is the outcome [Throw], carrying the manager as it is
      when the exception leaves the member function; dereferencing the end
      iterator of the pool is the outcome [Undefined];
    - [std::unordered_set] and [std::unordered_map] are [gset] and [gmap]:
      their iteration order is fixed by the keys, not by insertion;
    - [std::map<path, ReadReader, file_size_compare>] is a list of paths kept
      in the order of the comparator; the reader stored under a path is the
      one [make_reader] built from that same path, so the path stands for it. *)

From Stdlib Require Import ZArith Ascii String.
From stdpp Require Import gmap strings list fin_maps sorting pretty.

Open Scope Z_scope.

(** ** Data *)

Abbreviation path := string (only parsing).
Abbreviation SampleIdType := string (only parsing).

(** [SequenceRegion]: a half-open range of positions on a contig. *)
Record ContigRegion : Type := mkContigRegion {
  cr_begin : N;
  cr_end : N
}.

Record GenomicRegion : Type := mkGenomicRegion {
  get_contig_name : string;
  get_contig_region : ContigRegion
}.

#[global] Instance ContigRegion_eq_dec : EqDecision ContigRegion.
Proof. solve_decision. Defined.

(** What the collaborators outside the manager answer: the file system
    ([boost::filesystem::exists] and [file_size]) and the reader of a file
    ([get_possible_regions_in_file], [get_samples], [fetch_reads]). *)
Record FileSystem (AlignedRead : Type) : Type := mkFileSystem {
  fs_exists : path -> bool;
  fs_file_size : path -> N;
  reader_possible_regions : path -> list GenomicRegion;
  reader_samples : path -> list SampleIdType;
  reader_fetch_reads : path -> GenomicRegion -> gmap SampleIdType (list AlignedRead)
}.

Arguments fs_exists {AlignedRead} _ _.
Arguments fs_file_size {AlignedRead} _ _.
Arguments reader_possible_regions {AlignedRead} _ _.
Arguments reader_samples {AlignedRead} _ _.
Arguments reader_fetch_reads {AlignedRead} _ _ _.

Record ReadManager : Type := mkReadManager {
  max_open_files_ : Z;
  num_files_ : Z;
  closed_readers_ : gset path;
  open_readers_ : list path;
  reader_paths_containing_sample_ : gmap SampleIdType (list path);
  possible_regions_in_readers_ : gmap path (gmap string (list ContigRegion))
}.

Inductive exn : Type :=
| out_of_range
| runtime_error (what : string).

Inductive outcome (A : Type) : Type :=
| Ok (a : A) (st : ReadManager)
| Throw (e : exn) (st : ReadManager)
| Undefined.

Arguments Ok {A} a st.
Arguments Throw {A} e st.
Arguments Undefined {A}.

Definition to_unsigned (z : Z) : Z := z mod 2 ^ 32.

(** ** Library algorithms *)

(** [std::partition]: the elements satisfying the predicate come first; the
    pair is the range before and the range after the returned iterator. The
    standard fixes no order inside the two ranges; the model keeps the
    original one, and the properties below rest on no more than that each
    range holds the elements it should, as often as the input, and that a
    range already partitioned stays as it is. *)
Definition std_partition {A : Type} (pred : A -> bool) (l : list A) : list A * list A :=
  (List.filter pred l, List.filter (fun x => negb (pred x)) l).

(** Modelled from the spec: [operator<] of sub-ranges is declared outside
    the sources at hand; sub-ranges are ordered by start coordinate, then by
    end coordinate. *)
Definition region_lt (a b : ContigRegion) : bool :=
  if (cr_begin a =? cr_begin b)%N then (cr_end a <? cr_end b)%N
  else (cr_begin a <? cr_begin b)%N.

Definition region_le (a b : ContigRegion) : Prop := region_lt b a = false.

#[global] Instance region_le_dec : RelDecision region_le.
Proof. intros a b. unfold region_le. apply _. Defined.

(** [std::sort] with [operator<]. *)
Definition std_sort (l : list ContigRegion) : list ContigRegion :=
  merge_sort region_le l.

(** Modelled from the spec: [overlaps] and [has_overlapped] come from
    mappable_algorithms.hpp, which is not at hand; true iff at least one
    indexed sub-range overlaps the query range. *)
Definition overlaps (a b : ContigRegion) : bool :=
  (cr_begin a <? cr_end b)%N && (cr_begin b <? cr_end a)%N.

Definition has_overlapped (l : list ContigRegion) (r : ContigRegion) : bool :=
  existsb (fun x => overlaps x r) l.

(** Removing the last character of a string: [error.erase(--error.end())]. *)
Fixpoint erase_last (s : string) : string :=
  match s with
  | EmptyString => EmptyString
  | String c EmptyString => EmptyString
  | String c s' => String c (erase_last s')
  end.

Definition tab : string := String "009"%char EmptyString.
Definition newline : string := String "010"%char EmptyString.

(** ** The pool of open readers: a map ordered by a comparator *)

Section OrderedMap.
Variable comp : path -> path -> bool.

(** [find]: the first key not less than [k], if [k] is not less than it. *)
Fixpoint map_find (k : path) (m : list path) : option path :=
  match m with
  | [] => None
  | q :: m' =>
      if comp q k then map_find k m'
      else if comp k q then None else Some q
  end.

Definition map_count (k : path) (m : list path) : nat :=
  match map_find k m with Some _ => 1%nat | None => 0%nat end.

(** [emplace]: no insertion when an equivalent key is present. *)
Fixpoint map_emplace (k : path) (m : list path) : list path :=
  match m with
  | [] => [k]
  | q :: m' =>
      if comp q k then q :: map_emplace k m'
      else if comp k q then k :: q :: m' else q :: m'
  end.

Fixpoint map_erase (k : path) (m : list path) : list path :=
  match m with
  | [] => []
  | q :: m' =>
      if comp q k then q :: map_erase k m'
      else if comp k q then q :: m' else m'
  end.

(** The keys are strictly increasing for the comparator. *)
Fixpoint map_sorted (m : list path) : bool :=
  match m with
  | [] => true
  | q :: m' =>
      match m' with
      | [] => true
      | q' :: _ => comp q q' && map_sorted m'
      end
  end.
End OrderedMap.

(** The member initialisers of the constructor: every path starts closed,
    the pool and both indexes start empty. *)
Definition member_init (read_file_paths : list path) (max_open_files : Z) : ReadManager :=
  {| max_open_files_ := max_open_files;
     num_files_ := to_unsigned (Z.of_nat (length read_file_paths));
     closed_readers_ := list_to_set read_file_paths;
     open_readers_ := [];
     reader_paths_containing_sample_ := ∅;
     possible_regions_in_readers_ := ∅ |}.

(** ** The manager *)

Section Manager.
Context {AlignedRead : Type} (fs : FileSystem AlignedRead).

(** Modelled from the spec: [detail::file_size_compare] is declared in
    read_manager.hpp, which is not at hand; it is the comparator handed to
    the pool and to [std::nth_element], and orders paths by on-disk size. *)
Definition file_size_compare (lhs rhs : path) : bool :=
  (fs_file_size fs lhs <? fs_file_size fs rhs)%N.

Definition size_le (a b : path) : Prop := file_size_compare b a = false.

#[global] Instance size_le_dec : RelDecision size_le.
Proof. intros a b. unfold size_le. apply _. Defined.

(** [std::nth_element]: position [nth] receives the element a full sort
    would put there and nothing after it is smaller than anything before
    it. The model sorts the whole range. *)
Definition std_nth_element (l : list path) (nth : nat) : list path :=
  merge_sort size_le l.

Definition set_pool (open : list path) (closed : gset path) (st : ReadManager) : ReadManager :=
  {| max_open_files_ := max_open_files_ st;
     num_files_ := num_files_ st;
     closed_readers_ := closed;
     open_readers_ := open;
     reader_paths_containing_sample_ := reader_paths_containing_sample_ st;
     possible_regions_in_readers_ := possible_regions_in_readers_ st |}.

Definition set_sample_map (m : gmap SampleIdType (list path)) (st : ReadManager) : ReadManager :=
  {| max_open_files_ := max_open_files_ st;
     num_files_ := num_files_ st;
     closed_readers_ := closed_readers_ st;
     open_readers_ := open_readers_ st;
     reader_paths_containing_sample_ := m;
     possible_regions_in_readers_ := possible_regions_in_readers_ st |}.

Definition set_region_map (m : gmap path (gmap string (list ContigRegion)))
    (st : ReadManager) : ReadManager :=
  {| max_open_files_ := max_open_files_ st;
     num_files_ := num_files_ st;
     closed_readers_ := closed_readers_ st;
     open_readers_ := open_readers_ st;
     reader_paths_containing_sample_ := reader_paths_containing_sample_ st;
     possible_regions_in_readers_ := m |}.

Definition num_samples (st : ReadManager) : Z :=
  to_unsigned (Z.of_nat (size (reader_paths_containing_sample_ st))).

Definition get_samples (st : ReadManager) : list SampleIdType :=
  elements (dom (reader_paths_containing_sample_ st)).

Definition is_open (st : ReadManager) (reader_path : path) : bool :=
  bool_decide (0 < map_count file_size_compare reader_path (open_readers_ st))%nat.

Definition could_reader_contain_region (st : ReadManager) (the_reader_path : path)
    (region : GenomicRegion) : bool :=
  match possible_regions_in_readers_ st !! the_reader_path with
  | None => false
  | Some contigs =>
      match contigs !! get_contig_name region with
      | None => false
      | Some contig_regions => has_overlapped contig_regions (get_contig_region region)
      end
  end.

(** *** Pool admission and eviction *)

Definition close_reader (read_file_path : path) (st : ReadManager) : ReadManager :=
  set_pool (map_erase file_size_compare read_file_path (open_readers_ st))
           (closed_readers_ st ∪ {[read_file_path]}) st.

(** [open_readers_.begin()->first]; [None] when the pool is empty, where
    [begin()] is the end iterator. *)
Definition choose_reader_to_close (st : ReadManager) : option path :=
  head (open_readers_ st).

Fixpoint close_readers (n : nat) (st : ReadManager) : option ReadManager :=
  match n with
  | O => Some st
  | S n' =>
      match choose_reader_to_close st with
      | None => None
      | Some victim => close_readers n' (close_reader victim st)
      end
  end.

(** The two statements that admit one reader:
    [open_readers_.emplace(reader_path, make_reader(reader_path));
     closed_readers_.erase(reader_path);] *)
Definition emplace_reader (reader_path : path) (st : ReadManager) : ReadManager :=
  set_pool (map_emplace file_size_compare reader_path (open_readers_ st))
           (closed_readers_ st ∖ {[reader_path]}) st.

Definition open_reader (reader_path : path) (st : ReadManager) : option ReadManager :=
  if Z.of_nat (length (open_readers_ st)) =? max_open_files_ st then
    match choose_reader_to_close st with
    | None => None
    | Some victim => Some (emplace_reader reader_path (close_reader victim st))
    end
  else Some (emplace_reader reader_path st).

Definition num_readers_to_close (batch : list path) (st : ReadManager) : Z :=
  let num_open_reader_spaces :=
    to_unsigned (max_open_files_ st - to_unsigned (Z.of_nat (length (open_readers_ st)))) in
  let num_requested_spaces := to_unsigned (Z.of_nat (length batch)) in
  if num_requested_spaces <=? num_open_reader_spaces then 0
  else to_unsigned (num_requested_spaces - num_open_reader_spaces).

(** The [std::for_each] that closes [open_readers]. *)
Definition emplace_readers (batch : list path) (st : ReadManager) : ReadManager :=
  foldl (fun s reader_path => emplace_reader reader_path s) st batch.

Definition open_readers (batch : list path) (st : ReadManager) : option ReadManager :=
  match close_readers (Z.to_nat (num_readers_to_close batch st)) st with
  | None => None
  | Some st' => Some (emplace_readers batch st')
  end.

(** *** Construction *)

(** [m[region.get_contig_name()].emplace_back(region.get_contig_region())]. *)
Definition push_region (m : gmap string (list ContigRegion)) (region : GenomicRegion)
    : gmap string (list ContigRegion) :=
  <[get_contig_name region :=
      default [] (m !! get_contig_name region) ++ [get_contig_region region]]> m.

Definition add_possible_regions_to_reader_map (the_reader_path : path)
    (the_regions : list GenomicRegion) (st : ReadManager) : ReadManager :=
  let entry := default ∅ (possible_regions_in_readers_ st !! the_reader_path) in
  let filled := foldl push_region entry the_regions in
  set_region_map (<[the_reader_path := std_sort <$> filled]> (possible_regions_in_readers_ st)) st.

Definition add_reader_to_sample_map (the_reader_path : path)
    (the_samples_in_reader : list SampleIdType) (st : ReadManager) : ReadManager :=
  set_sample_map
    (foldl (fun (m : gmap SampleIdType (list path)) sample =>
              <[sample := default [] (m !! sample) ++ [the_reader_path]]> m)
           (reader_paths_containing_sample_ st) the_samples_in_reader) st.

(** One round of the loop of [setup_reader_samples_and_regions]. *)
Definition scan_reader (st : ReadManager) (reader_path : path) : ReadManager :=
  add_reader_to_sample_map reader_path (reader_samples fs reader_path)
    (add_possible_regions_to_reader_map reader_path
       (reader_possible_regions fs reader_path) st).

Definition setup_reader_samples_and_regions (st : ReadManager) : ReadManager :=
  foldl scan_reader st (elements (closed_readers_ st)).

Definition num_files_to_open (st : ReadManager) : Z :=
  Z.min (max_open_files_ st) (to_unsigned (Z.of_nat (size (closed_readers_ st)))).

Definition open_initial_files (st : ReadManager) : option ReadManager :=
  let reader_paths := elements (closed_readers_ st) in
  let n := Z.to_nat (num_files_to_open st) in
  open_readers (take n (std_nth_element reader_paths n)) st.

Definition get_bad_paths (st : ReadManager) : list path :=
  List.filter (fun p => negb (fs_exists fs p)) (elements (closed_readers_ st)).

Definition bad_path_line (p : path) : string :=
  tab +:+ "* " +:+ p +:+ ": does not exist" +:+ newline.

Definition bad_paths_error (bad_paths : list path) : string :=
  erase_last (foldl (fun error p => error +:+ bad_path_line p)
                    ("bad read files: " +:+ newline) bad_paths).

Definition setup (st : ReadManager) : outcome unit :=
  match get_bad_paths st with
  | [] =>
      match open_initial_files (setup_reader_samples_and_regions st) with
      | Some st' => Ok tt st'
      | None => Undefined
      end
  | bad_paths => Throw (runtime_error (bad_paths_error bad_paths)) st
  end.

(** [ReadManager::ReadManager(std::vector<fs::path>, unsigned)]: the
    member initialisers, then [setup]. The overload taking an initializer
    list differs only in leaving [max_open_files_] to its default member
    initialiser, which read_manager.hpp sets; it is this constructor at
    that value. *)
Definition ReadManager_ctor (read_file_paths : list path) (max_open_files : Z) : outcome unit :=
  setup (member_init read_file_paths max_open_files).

(** *** Queries *)

(** [open_readers_.at(reader_path).fetch_reads(region)]; [None] is the
    [std::out_of_range] of [at]. *)
Definition reader_at (st : ReadManager) (reader_path : path) (region : GenomicRegion)
    : option (gmap SampleIdType (list AlignedRead)) :=
  match map_find file_size_compare reader_path (open_readers_ st) with
  | None => None
  | Some q => Some (reader_fetch_reads fs q region)
  end.

(** The [std::for_each] loops of the single-sample [fetch_reads]. *)
Fixpoint append_sample_reads (st : ReadManager) (sample : SampleIdType) (region : GenomicRegion)
    (reader_paths : list path) (result : list AlignedRead) : option (list AlignedRead) :=
  match reader_paths with
  | [] => Some result
  | reader_path :: rest =>
      match reader_at st reader_path region with
      | None => None
      | Some reads =>
          append_sample_reads st sample region rest (result ++ default [] (reads !! sample))
      end
  end.

(** The candidate sources of a query, as the two [std::partition] calls
    leave them: already open, still to open, filtered out. *)
Definition partition_readers (st : ReadManager) (region : GenomicRegion)
    (reader_paths : list path) : list path * list path * list path :=
  let '(containing, others) :=
    std_partition (fun p => could_reader_contain_region st p region) reader_paths in
  let '(opened, unopened) := std_partition (is_open st) containing in
  (opened, unopened, others).

Definition fetch_reads (sample : SampleIdType) (region : GenomicRegion) (st : ReadManager)
    : outcome (list AlignedRead) :=
  match reader_paths_containing_sample_ st !! sample with
  | None => Throw out_of_range st
  | Some reader_paths =>
      let '(opened, unopened, others) := partition_readers st region reader_paths in
      let st1 :=
        set_sample_map (<[sample := opened ++ unopened ++ others]>
                          (reader_paths_containing_sample_ st)) st in
      match append_sample_reads st1 sample region opened [] with
      | None => Throw out_of_range st1
      | Some result =>
          match open_readers unopened st1 with
          | None => Undefined
          | Some st2 =>
              match append_sample_reads st2 sample region unopened result with
              | None => Throw out_of_range st2
              | Some result' => Ok result' st2
              end
          end
      end
  end.

Fixpoint get_reader_paths_containing_samples_aux (st : ReadManager)
    (samples : list SampleIdType) (unique_reader_paths : gset path) : option (gset path) :=
  match samples with
  | [] => Some unique_reader_paths
  | sample :: rest =>
      match reader_paths_containing_sample_ st !! sample with
      | None => None
      | Some sample_reader_paths =>
          get_reader_paths_containing_samples_aux st rest
            (unique_reader_paths ∪ list_to_set sample_reader_paths)
      end
  end.

(** The vector built from [unique_reader_paths]. The iteration order of a
    [std::unordered_set] is fixed by its contents and by nothing the source
    shows; the model takes the order of [elements]. The properties below
    do not depend on which order it is; the examples show the model's. *)
Definition get_reader_paths_containing_samples (st : ReadManager)
    (samples : list SampleIdType) : option (list path) :=
  elements <$> get_reader_paths_containing_samples_aux st samples ∅.

(** [result[s].insert(end(result[s]), ...)] for every pair of one reader's answer. *)
Definition merge_reads (result reads : gmap SampleIdType (list AlignedRead))
    : gmap SampleIdType (list AlignedRead) :=
  map_fold (fun s rs acc => <[s := default [] (acc !! s) ++ rs]> acc) result reads.

Fixpoint append_all_reads (st : ReadManager) (region : GenomicRegion)
    (reader_paths : list path) (result : gmap SampleIdType (list AlignedRead))
    : option (gmap SampleIdType (list AlignedRead)) :=
  match reader_paths with
  | [] => Some result
  | reader_path :: rest =>
      match reader_at st reader_path region with
      | None => None
      | Some reads => append_all_reads st region rest (merge_reads result reads)
      end
  end.

Definition fetch_reads_samples (samples : list SampleIdType) (region : GenomicRegion)
    (st : ReadManager) : outcome (gmap SampleIdType (list AlignedRead)) :=
  match get_reader_paths_containing_samples st samples with
  | None => Throw out_of_range st
  | Some reader_paths_containing_samples =>
      let '(opened, unopened, others) :=
        partition_readers st region reader_paths_containing_samples in
      match append_all_reads st region opened ∅ with
      | None => Throw out_of_range st
      | Some result =>
          match open_readers unopened st with
          | None => Undefined
          | Some st2 =>
              match append_all_reads st2 region unopened result with
              | None => Throw out_of_range st2
              | Some result' => Ok result' st2
              end
          end
      end
  end.

Definition get_reader_paths_possibly_containing_region (st : ReadManager)
    (region : GenomicRegion) : list path :=
  List.filter (fun p => could_reader_contain_region st p region) (elements (closed_readers_ st))
  ++ List.filter (fun p => could_reader_contain_region st p region) (open_readers_ st).

Definition fetch_reads_region (region : GenomicRegion) (st : ReadManager)
    : outcome (gmap SampleIdType (list AlignedRead)) :=
  fetch_reads_samples (get_samples st) region st.

End Manager.

(** ** Vocabulary of the properties *)


(** What no pool operation changes. *)
Definition same_indexes (st st' : ReadManager) : Prop :=
  max_open_files_ st' = max_open_files_ st
  /\ num_files_ st' = num_files_ st
  /\ reader_paths_containing_sample_ st' = reader_paths_containing_sample_ st
  /\ possible_regions_in_readers_ st' = possible_regions_in_readers_ st.

Definition by_start (a b : ContigRegion) : Prop := (cr_begin a <= cr_begin b)%N.

(** The budget is an [unsigned] value and the pool is within it. *)
Definition within_budget (st : ReadManager) : Prop :=
  0 <= max_open_files_ st < 2 ^ 32
  /\ Z.of_nat (length (open_readers_ st)) <= max_open_files_ st.

Section Vocabulary.
Context {AlignedRead : Type} (fs : FileSystem AlignedRead).

(** The sub-ranges the header of [p] declares on [contig], in header order. *)
Definition declared_ranges (p : path) (contig : string) : list ContigRegion :=
  get_contig_region <$>
    List.filter (fun r => String.eqb (get_contig_name r) contig) (reader_possible_regions fs p).

Definition size_lt (a b : path) : Prop := (fs_file_size fs a < fs_file_size fs b)%N.

(** The invariant of the pool: its keys increase strictly in file size. *)
Definition pool_sorted (st : ReadManager) : Prop :=
  map_sorted (file_size_compare fs) (open_readers_ st) = true.
End Vocabulary.

(** ** Concrete catalogues

    A file system given by a table of files, used to run the manager. *)

Record TestFile : Type := mkTestFile {
  tf_path : path;
  tf_size : N;
  tf_regions : list GenomicRegion;
  tf_reads : list (SampleIdType * list string)
}.

Definition find_file (files : list TestFile) (p : path) : option TestFile :=
  List.find (fun f => String.eqb (tf_path f) p) files.

Definition table_fs (files : list TestFile) : FileSystem string :=
  {| fs_exists p := bool_decide (is_Some (find_file files p));
     fs_file_size p := from_option tf_size 0%N (find_file files p);
     reader_possible_regions p := from_option tf_regions [] (find_file files p);
     reader_samples p := from_option (fun f => (tf_reads f).*1) [] (find_file files p);
     reader_fetch_reads p region :=
       from_option (fun f => list_to_map (tf_reads f)) ∅ (find_file files p) |}.

Definition chr1 (b e : N) : GenomicRegion := mkGenomicRegion "chr1" (mkContigRegion b e).

Definition state_of {A : Type} (o : outcome A) : option ReadManager :=
  match o with
  | Ok _ st => Some st
  | Throw _ st => Some st
  | Undefined => None
  end.

Definition result_of {A : Type} (o : outcome A) : option A :=
  match o with
  | Ok a _ => Some a
  | _ => None
  end.

Definition empty_manager : ReadManager := mkReadManager 0 0 ∅ [] ∅ ∅.

(** Three files of different sizes, all holding sample S on chr1. *)
Definition three_files : FileSystem string :=
  table_fs [ mkTestFile "a.bam" 1 [chr1 0 100] [("S", ["a1"])];
             mkTestFile "b.bam" 2 [chr1 0 100] [("S", ["b1"])];
             mkTestFile "c.bam" 3 [chr1 0 100] [("S", ["c1"])] ].

Definition three_files_budget1 : ReadManager :=
  default empty_manager (state_of (ReadManager_ctor three_files ["a.bam"; "b.bam"; "c.bam"] 1)).

(** Two files of different sizes holding sample S. *)
Definition two_files : FileSystem string :=
  table_fs [ mkTestFile "a.bam" 1 [chr1 0 100] [("S", ["a1"])];
             mkTestFile "b.bam" 2 [chr1 0 100] [("S", ["b1"])] ].

Definition two_files_budget1 : ReadManager :=
  default empty_manager (state_of (ReadManager_ctor two_files ["a.bam"; "b.bam"] 1)).

Definition two_files_budget2 : ReadManager :=
  default empty_manager (state_of (ReadManager_ctor two_files ["a.bam"; "b.bam"] 2)).

(** Two files of the same size and a larger one. *)
Definition tied_files : FileSystem string :=
  table_fs [ mkTestFile "a.bam" 5 [chr1 0 100] [("S", ["a1"])];
             mkTestFile "b.bam" 5 [chr1 0 100] [("S", ["b1"])];
             mkTestFile "c.bam" 9 [chr1 0 100] [("S", ["c1"])] ].

Definition tied_files_budget2 : ReadManager :=
  default empty_manager (state_of (ReadManager_ctor tied_files ["a.bam"; "b.bam"; "c.bam"] 2)).

(** Three files of different sizes; the smallest holds another sample. *)
Definition mixed_files : FileSystem string :=
  table_fs [ mkTestFile "a.bam" 1 [chr1 0 100] [("T", ["t1"])];
             mkTestFile "b.bam" 2 [chr1 0 100] [("S", ["b1"])];
             mkTestFile "c.bam" 3 [chr1 0 100] [("S", ["c1"])] ].

Definition mixed_files_budget2 : ReadManager :=
  default empty_manager (state_of (ReadManager_ctor mixed_files ["a.bam"; "b.bam"; "c.bam"] 2)).

(** [mixed_files] with the sizes of b.bam and c.bam exchanged. *)
Definition mirrored_files : FileSystem string :=
  table_fs [ mkTestFile "a.bam" 1 [chr1 0 100] [("T", ["t1"])];
             mkTestFile "b.bam" 3 [chr1 0 100] [("S", ["b1"])];
             mkTestFile "c.bam" 2 [chr1 0 100] [("S", ["c1"])] ].

Definition mirrored_files_budget2 : ReadManager :=
  default empty_manager
    (state_of (ReadManager_ctor mirrored_files ["a.bam"; "b.bam"; "c.bam"] 2)).

(** A file whose header declares the same range twice. *)
Definition repeated_region_file : FileSystem string :=
  table_fs [ mkTestFile "a.bam" 1 [chr1 50 100; chr1 0 10; chr1 50 100] [("S", ["a1"])] ].

(** A sample held by two files that cover different parts of chr1. *)
Definition split_files : FileSystem string :=
  table_fs [ mkTestFile "a.bam" 1 [chr1 0 10] [("S", ["a1"])];
             mkTestFile "b.bam" 2 [chr1 50 100] [("S", ["b1"])] ].

Definition split_files_budget2 : ReadManager :=
  default empty_manager (state_of (ReadManager_ctor split_files ["a.bam"; "b.bam"] 2)).

(** ** Vocabulary of the further properties *)

(** No path is both open and closed. *)
Definition pool_disjoint (st : ReadManager) : Prop :=
  forall p, p ∈ open_readers_ st -> p ∉ closed_readers_ st.

(** The catalogue [C] is split between the pool and the closed set, and the
    sample index lists paths of the catalogue only. *)
Definition partitioned (C : gset path) (st : ReadManager) : Prop :=
  (forall p, p ∈ open_readers_ st -> p ∈ C)
  /\ (forall p, p ∈ closed_readers_ st -> p ∈ C)
  /\ (forall p, p ∈ C -> p ∈ open_readers_ st \/ p ∈ closed_readers_ st)
  /\ (forall s l p, reader_paths_containing_sample_ st !! s = Some l -> p ∈ l -> p ∈ C).

Section FurtherVocabulary.
Context {AlignedRead : Type} (fs : FileSystem AlignedRead).

(** The reads one file holds for a sample in a region. *)
Definition reads_of (sample : SampleIdType) (region : GenomicRegion) (p : path)
    : list AlignedRead :=
  default [] (reader_fetch_reads fs p region !! sample).

(** No two paths of [C] have files of the same size. *)
Definition distinct_sizes (C : path -> Prop) : Prop :=
  forall p q, C p -> C q -> fs_file_size fs p = fs_file_size fs q -> p = q.
End FurtherVocabulary.

(** * CIGAR strings (src/basics/cigar_string.cpp)

    [CigarOperation::Size] is an unsigned integer type; its values are in
    [N]. The subtractions of [splice] are all guarded by a comparison in the
    source and never wrap, and [splice] adds nothing up, so they are written
    without a modulus. The sums of the header templates are taken in the
    template's integer type, whose modulus is a parameter. *)

Record CigarOperation : Type := mkCigarOperation {
  size_ : N;
  flag_ : ascii
}.

#[global] Instance CigarOperation_eq_dec : EqDecision CigarOperation.
Proof. solve_decision. Defined.

(** The flag characters, as cigar_string.hpp declares them. *)
Definition ALIGNMENT_MATCH : ascii := "M"%char.
Definition SEQUENCE_MATCH : ascii := "="%char.
Definition SUBSTITUTION : ascii := "X"%char.
Definition INSERTION : ascii := "I"%char.
Definition DELETION : ascii := "D"%char.
Definition SOFT_CLIPPED : ascii := "S"%char.
Definition HARD_CLIPPED : ascii := "H"%char.
Definition PADDING : ascii := "P"%char.
Definition SKIPPED : ascii := "N"%char.

Definition advances_reference (op : CigarOperation) : bool :=
  negb (Ascii.eqb (flag_ op) INSERTION || Ascii.eqb (flag_ op) HARD_CLIPPED
        || Ascii.eqb (flag_ op) PADDING).

Definition advances_sequence (op : CigarOperation) : bool :=
  negb (Ascii.eqb (flag_ op) DELETION || Ascii.eqb (flag_ op) HARD_CLIPPED).

Definition is_match (op : CigarOperation) : bool :=
  Ascii.eqb (flag_ op) ALIGNMENT_MATCH || Ascii.eqb (flag_ op) SEQUENCE_MATCH
  || Ascii.eqb (flag_ op) SUBSTITUTION.

Definition is_indel (op : CigarOperation) : bool :=
  Ascii.eqb (flag_ op) INSERTION || Ascii.eqb (flag_ op) DELETION.

Definition is_clipping (op : CigarOperation) : bool :=
  Ascii.eqb (flag_ op) SOFT_CLIPPED || Ascii.eqb (flag_ op) HARD_CLIPPED.

Inductive cigar_error : Type :=
| bad_lexical_cast
| invalid_argument (what : string).

(** [std::isdigit] in the "C" locale. *)
Definition is_digit (c : ascii) : bool :=
  (48 <=? N_of_ascii c)%N && (N_of_ascii c <=? 57)%N.

(** The number a string of decimal digits denotes, continuing from [acc]. *)
Fixpoint digits_value (digits : string) (acc : N) : N :=
  match digits with
  | EmptyString => acc
  | String c rest => digits_value rest (10 * acc + (N_of_ascii c - 48))%N
  end.

(** [boost::lexical_cast<CigarOperation::Size>] on a string of digits:
    [None] is [bad_lexical_cast], thrown for the empty string and for a
    number beyond the largest [Size], which is the parameter [Size_max]. *)
Definition lexical_cast (Size_max : N) (digits : string) : option N :=
  match digits with
  | EmptyString => None
  | _ => if (digits_value digits 0 <=? Size_max)%N then Some (digits_value digits 0) else None
  end.

(** The loop of [parse_cigar] over the characters still to read. *)
Fixpoint parse_cigar_loop (Size_max : N) (cigar : string) (result : list CigarOperation)
    (digits : string) : cigar_error + list CigarOperation * string :=
  match cigar with
  | EmptyString => inr (result, digits)
  | String c rest =>
      if is_digit c then parse_cigar_loop Size_max rest result (digits +:+ String c EmptyString)
      else
        match lexical_cast Size_max digits with
        | None => inl bad_lexical_cast
        | Some n =>
            parse_cigar_loop Size_max rest (result ++ [mkCigarOperation n c]) EmptyString
        end
  end.

Definition parse_cigar (Size_max : N) (cigar : string) : cigar_error + list CigarOperation :=
  match parse_cigar_loop Size_max cigar [] EmptyString with
  | inl e => inl e
  | inr (result, EmptyString) => inr result
  | inr (_, _) =>
      inl (invalid_argument ("parse_cigar: could not parse all characters of " +:+ cigar))
  end.

Definition valid_flags : list ascii :=
  [ALIGNMENT_MATCH; INSERTION; DELETION; SOFT_CLIPPED; HARD_CLIPPED; SKIPPED;
   SEQUENCE_MATCH; SUBSTITUTION; PADDING].

Definition is_valid_flag (op : CigarOperation) : bool :=
  existsb (Ascii.eqb (flag_ op)) valid_flags.

Definition is_valid (cigar : list CigarOperation) : bool :=
  match cigar with
  | [] => false
  | _ => forallb (fun op => (0 <? size_ op)%N && is_valid_flag op) cigar
  end.

(** [std::adjacent_find(...) == std::cend(cigar)]. *)
Fixpoint is_minimal (cigar : list CigarOperation) : bool :=
  match cigar with
  | [] => true
  | lhs :: rest =>
      match rest with
      | [] => true
      | rhs :: _ => negb (Ascii.eqb (flag_ lhs) (flag_ rhs)) && is_minimal rest
      end
  end.

Definition is_front_soft_clipped (cigar_string : list CigarOperation) : bool :=
  match cigar_string with
  | [] => false
  | front :: _ => Ascii.eqb (flag_ front) SOFT_CLIPPED
  end.

Definition is_back_soft_clipped (cigar_string : list CigarOperation) : bool :=
  match last cigar_string with
  | None => false
  | Some back => Ascii.eqb (flag_ back) SOFT_CLIPPED
  end.

Definition is_soft_clipped (cigar_string : list CigarOperation) : bool :=
  is_front_soft_clipped cigar_string || is_back_soft_clipped cigar_string.

Definition get_soft_clipped_sizes (cigar_string : list CigarOperation) : N * N :=
  (if is_front_soft_clipped cigar_string then from_option size_ 0%N (head cigar_string)
   else 0%N,
   if is_back_soft_clipped cigar_string then from_option size_ 0%N (last cigar_string)
   else 0%N).

(** The first loop of [splice]: the operations from [op_it] on, and what is
    left of [offset]. *)
Fixpoint splice_skip (pred : CigarOperation -> bool) (ops : list CigarOperation) (offset : N)
    : list CigarOperation * N :=
  match ops with
  | [] => ([], offset)
  | op :: rest =>
      if (size_ op <=? offset)%N || negb (pred op) then
        splice_skip pred rest (if pred op then offset - size_ op else offset)%N
      else (ops, offset)
  end.

(** The second loop of [splice]: the operations from [op_it] on, what is
    left of [size], and the result so far. *)
Fixpoint splice_copy (pred : CigarOperation -> bool) (ops : list CigarOperation) (size : N)
    (result : list CigarOperation) : list CigarOperation * N * list CigarOperation :=
  match ops with
  | [] => ([], size, result)
  | op :: rest =>
      if (0 <? size)%N && ((size_ op <=? size)%N || negb (pred op)) then
        splice_copy pred rest (if pred op then size - size_ op else size)%N (result ++ [op])
      else (ops, size, result)
  end.

Definition splice (pred : CigarOperation -> bool) (cigar_string : list CigarOperation)
    (offset size : N) : list CigarOperation :=
  match splice_skip pred cigar_string offset with
  | ([], _) => []
  | (op :: rest, offset') =>
      let remainder := (size_ op - offset')%N in
      if (size <=? remainder)%N then [mkCigarOperation size (flag_ op)]
      else
        match splice_copy pred rest (size - remainder)%N
                [mkCigarOperation remainder (flag_ op)] with
        | (op' :: _, size', result) =>
            if (0 <? size')%N then result ++ [mkCigarOperation size' (flag_ op')] else result
        | ([], _, result) => result
        end
  end.

Definition splice_all (cigar_string : list CigarOperation) (offset size : N)
    : list CigarOperation :=
  splice (fun _ => true) cigar_string offset size.

Definition splice_reference (cigar_string : list CigarOperation) (offset size : N)
    : list CigarOperation :=
  splice advances_reference cigar_string offset size.

Definition splice_sequence (cigar_string : list CigarOperation) (offset size : N)
    : list CigarOperation :=
  splice advances_sequence cigar_string offset size.

(** The overloads that take no offset, [splice(cigar, size)],
    [splice_reference(cigar, size)] and [splice_sequence(cigar, size)]: each
    of them calls the three-argument [splice], whose predicate holds of every
    operation. *)
Definition splice_head (cigar_string : list CigarOperation) (size : N)
    : list CigarOperation :=
  splice_all cigar_string 0 size.

Definition splice_reference_head (cigar_string : list CigarOperation) (size : N)
    : list CigarOperation :=
  splice_all cigar_string 0 size.

Definition splice_sequence_head (cigar_string : list CigarOperation) (size : N)
    : list CigarOperation :=
  splice_all cigar_string 0 size.

(** [operator<<] for one operation and for a CIGAR string; the stream is
    the text written so far. *)
Definition print_operation (os : string) (cigar_operation : CigarOperation) : string :=
  os +:+ pretty (size_ cigar_operation) +:+ String (flag_ cigar_operation) EmptyString.

Definition print_cigar (os : string) (cigar_string : list CigarOperation) : string :=
  foldl print_operation os cigar_string.

(** [std::accumulate] of the header templates [sum_operation_sizes],
    [reference_size] and [sequence_size], in an unsigned type [S] of
    modulus [modulus]. *)
Definition accumulate_sizes (pred : CigarOperation -> bool) (modulus : N)
    (cigar : list CigarOperation) : N :=
  foldl (fun curr op => ((curr + (if pred op then size_ op else 0)) mod modulus)%N) 0%N cigar.

Definition sum_operation_sizes (modulus : N) (cigar : list CigarOperation) : N :=
  accumulate_sizes (fun _ => true) modulus cigar.

Definition reference_size (modulus : N) (cigar : list CigarOperation) : N :=
  accumulate_sizes advances_reference modulus cigar.

Definition sequence_size (modulus : N) (cigar : list CigarOperation) : N :=
  accumulate_sizes advances_sequence modulus cigar.

(** The sizes of the operations [pred] selects, added up without a modulus. *)
Definition weight (pred : CigarOperation -> bool) (cigar : list CigarOperation) : N :=
  foldr (fun op acc => ((if pred op then size_ op else 0) + acc)%N) 0%N cigar.

(** ** Vocabulary of the properties of CIGAR strings *)

Fixpoint all_digits (s : string) : bool :=
  match s with
  | EmptyString => true
  | String c rest => is_digit c && all_digits rest
  end.

(** What [parse_cigar] accepts back of an operation: a flag that is not a
    digit and a size that fits [CigarOperation::Size]. *)
Definition printable (Size_max : N) (op : CigarOperation) : Prop :=
  is_digit (flag_ op) = false /\ (size_ op <= Size_max)%N.

(** The test of [is_valid] on one operation. *)
Definition valid_operation (op : CigarOperation) : bool :=
  (0 <? size_ op)%N && is_valid_flag op.

(** A predicate that looks at the flag only, as those of [splice],
    [splice_reference] and [splice_sequence] do. *)
Definition by_flag (pred : CigarOperation -> bool) : Prop :=
  forall op n, pred (mkCigarOperation n (flag_ op)) = pred op.

(** The shape of what [splice] returns. *)
Inductive spliced (pred : CigarOperation -> bool) (cigar_string : list CigarOperation)
    (offset size : N)
    : list CigarOperation -> Prop :=
| spliced_beyond :
    (weight pred cigar_string <= offset)%N ->
    spliced pred cigar_string offset size []
| spliced_within skipped op rest offset' :
    cigar_string = skipped ++ op :: rest ->
    pred op = true ->
    offset = (weight pred skipped + offset')%N ->
    (offset' < size_ op)%N ->
    (size <= size_ op - offset')%N ->
    spliced pred cigar_string offset size [mkCigarOperation size (flag_ op)]
| spliced_across skipped op copied ops' offset' size' :
    cigar_string = skipped ++ op :: copied ++ ops' ->
    pred op = true ->
    offset = (weight pred skipped + offset')%N ->
    (offset' < size_ op)%N ->
    size = (size_ op - offset' + weight pred copied + size')%N ->
    (0 < weight pred copied + size')%N ->
    match ops' with
    | [] => True
    | op' :: _ => size' = 0%N \/ (pred op' = true /\ (size' < size_ op')%N)
    end ->
    (copied <> [] -> (size_ op - offset' < size)%N) ->
    spliced pred cigar_string offset size
      (mkCigarOperation (size_ op - offset') (flag_ op) :: copied
       ++ match ops' with
          | op' :: _ => if (0 <? size')%N then [mkCigarOperation size' (flag_ op')] else []
          | [] => []
          end).

(** A read with a soft-clipped start, an insertion and a deletion:
    3S5M2I4M1D6M. *)
Definition clipped_read : list CigarOperation :=
  [mkCigarOperation 3 SOFT_CLIPPED; mkCigarOperation 5 ALIGNMENT_MATCH;
   mkCigarOperation 2 INSERTION; mkCigarOperation 4 ALIGNMENT_MATCH;
   mkCigarOperation 1 DELETION; mkCigarOperation 6 ALIGNMENT_MATCH].

(** * Program options (src/program_options.cpp)

    What [get_read_paths] and [get_read_manager] read of the
    [po::variables_map], at the types [parse_options] declares: "reads" is a
    list of strings, "reads-file" a string, and "max-open-files" an
    [unsigned] with a default value, so it is always there. *)

Record variables_map : Type := mkVariablesMap {
  opt_reads : option (list string);
  opt_reads_file : option string;
  opt_max_open_files : Z
}.

(** [std::unique] with the predicate [equal]: of every run of neighbours
    equal to its first element, that element stays; [first] is the last
    element kept so far. *)
Fixpoint unique_from (equal : path -> path -> bool) (first : path) (l : list path)
    : list path :=
  match l with
  | [] => [first]
  | next :: rest =>
      if equal first next then unique_from equal first rest
      else first :: unique_from equal next rest
  end.

Definition std_unique (equal : path -> path -> bool) (l : list path) : list path :=
  match l with
  | [] => []
  | first :: rest => unique_from equal first rest
  end.

Section ProgramOptions.
Context {AlignedRead : Type} (fs : FileSystem AlignedRead).

(** The lines [std::getline] reads of a file. *)
Variable read_lines : path -> list string.

(** [fs::path::compare], by the sign of what it returns. The strings of the
    options become paths as they are written, and two spellings of a path
    can compare equal. *)
Variable path_compare : path -> path -> comparison.

(** [operator<] and [operator==] of [fs::path], which the library defines
    from [compare]; [std::sort] compares with the first, [std::unique] with
    the second. *)
Definition path_lt (lhs rhs : path) : bool :=
  match path_compare lhs rhs with Lt => true | _ => false end.

Definition path_equal (lhs rhs : path) : bool :=
  match path_compare lhs rhs with Eq => true | _ => false end.

Definition path_le (a b : path) : Prop := path_lt b a = false.

#[global] Instance path_le_dec : RelDecision path_le.
Proof. intros a b. unfold path_le. apply _. Defined.

Definition get_read_paths_file (file_path : string) : exn + list string :=
  if fs_exists fs file_path then inr (read_lines file_path)
  else inl (runtime_error ("cannot find given read path file " +:+ file_path)).

(** [std::sort] is the merge sort of the region index; which of two paths
    that compare equal it puts first is not fixed by the standard. *)
Definition get_read_paths (options : variables_map) : exn + list path :=
  let result := match opt_reads options with Some read_paths => read_paths | None => [] end in
  match opt_reads_file options with
  | Some read_file_path =>
      match get_read_paths_file read_file_path with
      | inl e => inl e
      | inr regions_from_file =>
          inr (std_unique path_equal (merge_sort path_le (result ++ regions_from_file)))
      end
  | None => inr (std_unique path_equal (merge_sort path_le result))
  end.

(** [get_read_manager]: [inl] is an exception thrown before there is a
    manager, [inr] what the constructor does. *)
Definition get_read_manager (options : variables_map) : exn + outcome unit :=
  match get_read_paths options with
  | inl e => inl e
  | inr read_file_paths =>
      inr (ReadManager_ctor fs read_file_paths (opt_max_open_files options))
  end.
End ProgramOptions.

(** The paths the options name: those of "reads", then the lines of the
    file of "reads-file". *)
Definition named_paths (read_lines : path -> list string) (options : variables_map)
    : list path :=
  default [] (opt_reads options) ++ from_option read_lines [] (opt_reads_file options).

(** A comparison of paths for the examples: by the text of the path with
    every run of separators taken for one separator. *)
Fixpoint collapse_separators (s : string) : string :=
  match s with
  | EmptyString => EmptyString
  | String c rest =>
      match rest with
      | String c' _ =>
          if Ascii.eqb c "/" && Ascii.eqb c' "/" then collapse_separators rest
          else String c (collapse_separators rest)
      | EmptyString => String c EmptyString
      end
  end.

Definition collapsed_compare (a b : path) : comparison :=
  (encode (collapse_separators a) ?= encode (collapse_separators b))%positive.

Definition mixed_options : variables_map :=
  {| opt_reads := Some ["c.bam"; "a.bam"; "c.bam"];
     opt_reads_file := Some "reads.txt";
     opt_max_open_files := 2 |}.

Definition mixed_lines (file_path : path) : list string :=
  if decide (file_path = "reads.txt") then ["b.bam"; "a.bam"] else [].

(** Options that name one path in two spellings. *)
Definition respelled_options : variables_map :=
  {| opt_reads := Some ["c.bam"; "sub//a.bam"; "c.bam"];
     opt_reads_file := Some "reads.txt";
     opt_max_open_files := 2 |}.

Definition respelled_lines (file_path : path) : list string :=
  if decide (file_path = "reads.txt") then ["b.bam"; "sub/a.bam"] else [].

Definition missing_options : variables_map :=
  {| opt_reads := Some ["a.bam"];
     opt_reads_file := Some "missing.txt";
     opt_max_open_files := 2 |}.

(** The three files of [mixed_files] and a list of read paths. *)
Definition listed_files : FileSystem string :=
  table_fs [ mkTestFile "a.bam" 1 [chr1 0 100] [("T", ["t1"])];
             mkTestFile "b.bam" 2 [chr1 0 100] [("S", ["b1"])];
             mkTestFile "c.bam" 3 [chr1 0 100] [("S", ["c1"])];
             mkTestFile "reads.txt" 12 [] [] ].

Definition listed_files_budget2 : ReadManager :=
  default empty_manager (state_of (ReadManager_ctor listed_files ["a.bam"; "b.bam"; "c.bam"] 2)).

(** * Properties *)

(** ** Strings *)

Lemma string_app_cons (ch : ascii) (a b : string) :
  String ch a +:+ b = String ch (a +:+ b).
Proof. reflexivity. Qed.

Lemma string_app_nil_l (b : string) : EmptyString +:+ b = b.
Proof. reflexivity. Qed.

Lemma string_app_nil_r (a : string) : a +:+ EmptyString = a.
Proof. induction a as [|ch a IH]; [done |]. by rewrite string_app_cons, IH. Qed.

Lemma string_app_assoc (a b c : string) : (a +:+ b) +:+ c = a +:+ (b +:+ c).
Proof.
  induction a as [|ch a IH]; [done |].
  by rewrite !string_app_cons, IH.
Qed.






(** ** Unknown samples *)

Section UnknownSample.
Context {AlignedRead : Type} (fs : FileSystem AlignedRead).

Lemma get_reader_paths_aux_unknown (st : ReadManager) (samples : list SampleIdType)
    (sample : SampleIdType) (acc : gset path) :
  reader_paths_containing_sample_ st !! sample = None ->
  sample ∈ samples ->
  get_reader_paths_containing_samples_aux st samples acc = None.
Proof.
  intros Hnone Hin. revert acc.
  induction samples as [|s samples IH]; intros acc.
  - by apply not_elem_of_nil in Hin.
  - simpl. destruct (decide (s = sample)) as [-> | Hne].
    + by rewrite Hnone.
    + destruct (reader_paths_containing_sample_ st !! s); [| done].
      apply IH. apply elem_of_cons in Hin as [-> | Hin]; done.
Qed.

(** C3: a fetch that names a sample absent from the sample index throws
    [std::out_of_range] (from [at]) and leaves the manager exactly as it
    was: nothing is opened or closed, no index is touched. This holds for
    the single-sample overload and for a sample list containing it. *)
Theorem fetch_reads_unknown_sample (st : ReadManager) (sample : SampleIdType)
    (region : GenomicRegion) :
  reader_paths_containing_sample_ st !! sample = None ->
  fetch_reads fs sample region st = Throw out_of_range st
  /\ (forall samples : list SampleIdType,
        sample ∈ samples ->
        fetch_reads_samples fs samples region st = Throw out_of_range st).
Proof.
  intros Hnone. split.
  - unfold fetch_reads. by rewrite Hnone.
  - intros samples Hin. unfold fetch_reads_samples, get_reader_paths_containing_samples.
    by rewrite (get_reader_paths_aux_unknown st samples sample ∅ Hnone Hin).
Qed.
End UnknownSample.

Lemma fetch_reads_unknown_sample_witness :
  fetch_reads two_files "S99" (chr1 0 50) two_files_budget1
    = Throw out_of_range two_files_budget1
  /\ (forall samples : list SampleIdType,
        "S99" ∈ samples ->
        fetch_reads_samples two_files samples (chr1 0 50) two_files_budget1
          = Throw out_of_range two_files_budget1).
Proof.
  apply (fetch_reads_unknown_sample two_files two_files_budget1 "S99" (chr1 0 50)).
  vm_compute. reflexivity.
Defined.

(** ** The pool operations leave the indexes and the budget alone *)

Section Frame.
Context {AlignedRead : Type} (fs : FileSystem AlignedRead).

Lemma same_indexes_refl (st : ReadManager) : same_indexes st st.
Proof. by unfold same_indexes. Qed.

Lemma same_indexes_trans (a b c : ReadManager) :
  same_indexes a b -> same_indexes b c -> same_indexes a c.
Proof. unfold same_indexes. intros (?&?&?&?) (?&?&?&?). repeat split; congruence. Qed.

Lemma close_reader_same_indexes (p : path) (st : ReadManager) :
  same_indexes st (close_reader fs p st).
Proof. by unfold same_indexes. Qed.

Lemma emplace_reader_same_indexes (p : path) (st : ReadManager) :
  same_indexes st (emplace_reader fs p st).
Proof. by unfold same_indexes. Qed.

Lemma close_readers_same_indexes (n : nat) (st st' : ReadManager) :
  close_readers fs n st = Some st' -> same_indexes st st'.
Proof.
  revert st. induction n as [|n IH]; intros st; simpl.
  - intros [= <-]. apply same_indexes_refl.
  - destruct (choose_reader_to_close st) as [v|]; [| done].
    intros H. eapply same_indexes_trans; [apply (close_reader_same_indexes v) | by apply IH].
Qed.

Lemma emplace_readers_same_indexes (batch : list path) (st : ReadManager) :
  same_indexes st (emplace_readers fs batch st).
Proof.
  revert st. induction batch as [|p batch IH]; intros st; simpl.
  - apply same_indexes_refl.
  - eapply same_indexes_trans; [apply (emplace_reader_same_indexes p) | apply IH].
Qed.

Lemma open_readers_same_indexes (batch : list path) (st st' : ReadManager) :
  open_readers fs batch st = Some st' -> same_indexes st st'.
Proof.
  unfold open_readers.
  destruct (close_readers fs _ st) as [st1|] eqn:E; [| done].
  intros [= <-]. eapply same_indexes_trans;
    [by eapply close_readers_same_indexes | apply emplace_readers_same_indexes].
Qed.
End Frame.

(** ** Counting the open readers *)

Section PoolSize.
Context {AlignedRead : Type} (fs : FileSystem AlignedRead).

Lemma file_size_compare_irrefl (p : path) : file_size_compare fs p p = false.
Proof. unfold file_size_compare. apply N.ltb_irrefl. Qed.

Lemma map_emplace_length (k : path) (m : list path) :
  (length m <= length (map_emplace (file_size_compare fs) k m) <= S (length m))%nat.
Proof.
  induction m as [|q m IH]; simpl; [lia |].
  destruct (file_size_compare fs q k); simpl; [lia |].
  destruct (file_size_compare fs k q); simpl; lia.
Qed.

Lemma emplace_readers_length (batch : list path) (st : ReadManager) :
  (length (open_readers_ st) <= length (open_readers_ (emplace_readers fs batch st))
     <= length (open_readers_ st) + length batch)%nat.
Proof.
  revert st. induction batch as [|p batch IH]; intros st; simpl; [lia |].
  specialize (IH (emplace_reader fs p st)). simpl in IH.
  pose proof (map_emplace_length p (open_readers_ st)). lia.
Qed.

(** Closing [n] readers succeeds exactly when [n] readers are open. *)
Lemma close_readers_defined (n : nat) (st : ReadManager) :
  (n <= length (open_readers_ st))%nat ->
  exists st', close_readers fs n st = Some st'
    /\ length (open_readers_ st') = (length (open_readers_ st) - n)%nat.
Proof.
  revert st. induction n as [|n IH]; intros st Hn; simpl.
  - exists st. split; [done | lia].
  - unfold choose_reader_to_close.
    destruct (open_readers_ st) as [|q m] eqn:E; simpl in *; [lia |].
    destruct (IH (close_reader fs q st)) as (st' & Hst' & Hlen).
    + simpl. rewrite E. simpl. rewrite file_size_compare_irrefl. lia.
    + exists st'. split; [done |]. rewrite Hlen. simpl. rewrite E. simpl.
      by rewrite file_size_compare_irrefl.
Qed.

Lemma close_readers_undefined (n : nat) (st : ReadManager) :
  (length (open_readers_ st) < n)%nat -> close_readers fs n st = None.
Proof.
  revert st. induction n as [|n IH]; intros st Hn; simpl; [lia |].
  unfold choose_reader_to_close.
  destruct (open_readers_ st) as [|q m] eqn:E; simpl in *; [done |].
  apply IH. simpl. rewrite E. simpl. rewrite file_size_compare_irrefl. lia.
Qed.

(** The batch admission keeps the budget whenever the batch itself is no
    larger than the budget. *)
Lemma open_readers_within_budget (batch : list path) (st : ReadManager) :
  0 <= max_open_files_ st < 2 ^ 32 ->
  Z.of_nat (length (open_readers_ st)) <= max_open_files_ st ->
  Z.of_nat (length batch) <= max_open_files_ st ->
  exists st', open_readers fs batch st = Some st'
    /\ Z.of_nat (length (open_readers_ st')) <= max_open_files_ st'.
Proof.
  intros Hmax Hopen Hbatch. unfold open_readers, num_readers_to_close, to_unsigned.
  rewrite (Z.mod_small (Z.of_nat (length (open_readers_ st)))) by lia.
  rewrite (Z.mod_small (max_open_files_ st - _)) by lia.
  rewrite (Z.mod_small (Z.of_nat (length batch))) by lia.
  destruct (Z.leb_spec (Z.of_nat (length batch))
              (max_open_files_ st - Z.of_nat (length (open_readers_ st)))) as [Hle | Hgt].
  - simpl. eexists. split; [done |].
    pose proof (emplace_readers_length batch st) as Hlen.
    destruct (emplace_readers_same_indexes fs batch st) as (-> & _). lia.
  - rewrite Z.mod_small by lia.
    destruct (close_readers_defined
                (Z.to_nat (Z.of_nat (length batch)
                           - (max_open_files_ st - Z.of_nat (length (open_readers_ st))))) st)
      as (st1 & Hst1 & Hlen1); [lia |].
    rewrite Hst1. eexists. split; [done |].
    pose proof (emplace_readers_length batch st1) as Hlen.
    destruct (emplace_readers_same_indexes fs batch st1) as (-> & _).
    destruct (close_readers_same_indexes fs _ _ _ Hst1) as (-> & _). lia.
Qed.

(** Past the budget the batch admission asks to close more readers than
    are open, and dereferences the end iterator of the pool. *)
Lemma open_readers_beyond_budget (batch : list path) (st : ReadManager) :
  0 <= max_open_files_ st < 2 ^ 32 ->
  Z.of_nat (length (open_readers_ st)) <= max_open_files_ st ->
  max_open_files_ st < Z.of_nat (length batch) < 2 ^ 32 ->
  open_readers fs batch st = None.
Proof.
  intros Hmax Hopen Hbatch. unfold open_readers.
  rewrite close_readers_undefined; [done |].
  unfold num_readers_to_close, to_unsigned.
  rewrite (Z.mod_small (Z.of_nat (length (open_readers_ st)))) by lia.
  rewrite (Z.mod_small (max_open_files_ st - _)) by lia.
  rewrite (Z.mod_small (Z.of_nat (length batch))) by lia.
  destruct (Z.leb_spec (Z.of_nat (length batch))
              (max_open_files_ st - Z.of_nat (length (open_readers_ st)))) as [Hle | Hgt];
    [lia |].
  rewrite Z.mod_small by lia. lia.
Qed.
End PoolSize.

(** ** Construction *)

Section Construction.
Context {AlignedRead : Type} (fs : FileSystem AlignedRead).

Lemma setup_reader_samples_and_regions_eq (st : ReadManager) :
  setup_reader_samples_and_regions fs st
  = foldl (scan_reader fs) st (elements (closed_readers_ st)).
Proof. reflexivity. Qed.

Lemma scan_readers_pool (l : list path) (st : ReadManager) :
  max_open_files_ (foldl (scan_reader fs) st l) = max_open_files_ st
  /\ closed_readers_ (foldl (scan_reader fs) st l) = closed_readers_ st
  /\ open_readers_ (foldl (scan_reader fs) st l) = open_readers_ st.
Proof.
  revert st. induction l as [|p l IH]; intros st; simpl; [done |].
  destruct (IH (scan_reader fs st p)) as (-> & -> & ->). done.
Qed.

Lemma scan_readers_regions_other (l : list path) (st : ReadManager) (p : path) :
  p ∉ l ->
  possible_regions_in_readers_ (foldl (scan_reader fs) st l) !! p
  = possible_regions_in_readers_ st !! p.
Proof.
  revert st. induction l as [|x l IH]; intros st Hp; simpl; [done |].
  apply not_elem_of_cons in Hp as [Hne Hp].
  rewrite IH by done. simpl. by rewrite lookup_insert_ne.
Qed.

Lemma scan_readers_regions_entry (l : list path) (st : ReadManager) (p : path) :
  p ∈ l -> is_Some (possible_regions_in_readers_ (foldl (scan_reader fs) st l) !! p).
Proof.
  induction l as [|x l IH] using rev_ind; intros Hp.
  - by apply not_elem_of_nil in Hp.
  - rewrite foldl_snoc. simpl.
    destruct (decide (x = p)) as [-> | Hne].
    + rewrite lookup_insert_eq. by eexists.
    + rewrite lookup_insert_ne by done. apply IH.
      apply elem_of_app in Hp as [Hp | Hp]; [done |].
      apply list_elem_of_singleton in Hp. congruence.
Qed.

Lemma open_initial_files_defined (st : ReadManager) :
  0 <= max_open_files_ st < 2 ^ 32 ->
  open_readers_ st = [] ->
  exists st', open_initial_files fs st = Some st'
    /\ Z.of_nat (length (open_readers_ st')) <= max_open_files_ st'.
Proof.
  intros Hmax Hopen. unfold open_initial_files.
  apply open_readers_within_budget; [done | rewrite Hopen; simpl; lia |].
  rewrite length_take. unfold num_files_to_open. lia.
Qed.

Lemma get_bad_paths_spec (st : ReadManager) (p : path) :
  p ∈ get_bad_paths fs st <-> p ∈ closed_readers_ st /\ fs_exists fs p = false.
Proof.
  unfold get_bad_paths. rewrite list_elem_of_In, filter_In, <- list_elem_of_In.
  rewrite elem_of_elements, negb_true_iff. done.
Qed.

End Construction.

(** ** The region index *)

Section RegionIndex.
Context {AlignedRead : Type} (fs : FileSystem AlignedRead).

#[local] Instance region_le_trans : Transitive region_le.
Proof.
  intros a b c. unfold region_le, region_lt.
  repeat match goal with
         | |- context [(?x =? ?y)%N] => destruct (N.eqb_spec x y)
         | H : context [(?x =? ?y)%N] |- _ => destruct (N.eqb_spec x y)
         end; rewrite ?N.ltb_ge; lia.
Qed.

#[local] Instance region_le_total : Total region_le.
Proof.
  intros a b. unfold region_le, region_lt.
  repeat match goal with
         | |- context [(?x =? ?y)%N] => destruct (N.eqb_spec x y)
         end; rewrite ?N.ltb_ge; lia.
Qed.

Lemma region_le_by_start (a b : ContigRegion) : region_le a b -> by_start a b.
Proof.
  unfold region_le, region_lt, by_start.
  destruct (N.eqb_spec (cr_begin b) (cr_begin a)); rewrite ?N.ltb_ge; lia.
Qed.

Lemma std_sort_by_start (l : list ContigRegion) : StronglySorted by_start (std_sort l).
Proof.
  unfold std_sort.
  pose proof (StronglySorted_merge_sort region_le l) as Hs.
  induction Hs as [|x k Hk IH Hall]; constructor; [done |].
  eapply Forall_impl; [exact Hall |]. intros y. apply region_le_by_start.
Qed.

Lemma push_regions_lookup (regions : list GenomicRegion) (m : gmap string (list ContigRegion))
    (contig : string) :
  default [] (foldl push_region m regions !! contig)
  = default [] (m !! contig)
    ++ (get_contig_region <$>
          List.filter (fun r => String.eqb (get_contig_name r) contig) regions).
Proof.
  revert m. induction regions as [|r regions IH]; intros m; simpl.
  - by rewrite app_nil_r.
  - rewrite IH. unfold push_region.
    destruct (String.eqb_spec (get_contig_name r) contig) as [-> | Hne].
    + rewrite lookup_insert_eq. simpl. by rewrite <- app_assoc.
    + by rewrite lookup_insert_ne.
Qed.

Lemma scan_readers_regions_fresh (l : list path) (st : ReadManager) (p : path)
    (contigs : gmap string (list ContigRegion)) :
  NoDup l ->
  possible_regions_in_readers_ st = ∅ ->
  possible_regions_in_readers_ (foldl (scan_reader fs) st l) !! p = Some contigs ->
  contigs = std_sort <$> foldl push_region ∅ (reader_possible_regions fs p).
Proof.
  intros Hnd Hempty. induction l as [|x l IH] using rev_ind.
  - simpl. rewrite Hempty, lookup_empty. done.
  - apply NoDup_app in Hnd as (Hnd & Hx & _).
    rewrite foldl_snoc. simpl.
    destruct (decide (x = p)) as [-> | Hne].
    + rewrite lookup_insert_eq. intros [= <-].
      rewrite scan_readers_regions_other, Hempty, lookup_empty; [done |].
      intros Hin. apply (Hx p Hin). apply list_elem_of_singleton. done.
    + rewrite lookup_insert_ne by done. by apply IH.
Qed.

(** C8 (as the code has it): after construction every sequence of the
    region index is sorted ascending by start coordinate and holds exactly
    the sub-ranges the header declares for that contig, each as often as
    the header repeats it; nothing removes duplicates. *)
Theorem region_index_sorted (read_file_paths : list path) (max_open_files : Z)
    (st : ReadManager) (p : path) (contigs : gmap string (list ContigRegion))
    (contig : string) (contig_regions : list ContigRegion) :
  ReadManager_ctor fs read_file_paths max_open_files = Ok tt st ->
  possible_regions_in_readers_ st !! p = Some contigs ->
  contigs !! contig = Some contig_regions ->
  StronglySorted by_start contig_regions
  /\ contig_regions ≡ₚ declared_ranges fs p contig.
Proof.
  unfold ReadManager_ctor, setup. intros Hctor Hp Hc.
  destruct (get_bad_paths fs _); [| done].
  destruct (open_initial_files fs _) as [st'|] eqn:Hopen; [| done].
  injection Hctor as <-.
  apply open_readers_same_indexes in Hopen as (_ & _ & _ & Hregions).
  rewrite Hregions, setup_reader_samples_and_regions_eq in Hp.
  apply scan_readers_regions_fresh in Hp; [| apply NoDup_elements | done].
  subst contigs. rewrite lookup_fmap in Hc.
  destruct (foldl push_region ∅ (reader_possible_regions fs p) !! contig) as [rs|] eqn:E;
    [| done].
  injection Hc as <-.
  pose proof (push_regions_lookup (reader_possible_regions fs p) ∅ contig) as Hl.
  rewrite E, lookup_empty in Hl. simpl in Hl. subst rs.
  split; [apply std_sort_by_start |].
  unfold std_sort, declared_ranges. apply merge_sort_Permutation.
Qed.
End RegionIndex.

Lemma region_index_sorted_witness :
  StronglySorted by_start [mkContigRegion 0 10; mkContigRegion 50 100; mkContigRegion 50 100]
  /\ [mkContigRegion 0 10; mkContigRegion 50 100; mkContigRegion 50 100]
       ≡ₚ declared_ranges repeated_region_file "a.bam" "chr1".
Proof.
  apply (region_index_sorted repeated_region_file ["a.bam"] 2
           (default empty_manager (state_of (ReadManager_ctor repeated_region_file ["a.bam"] 2)))
           "a.bam"
           {["chr1" := [mkContigRegion 0 10; mkContigRegion 50 100; mkContigRegion 50 100]]}
           "chr1").
  - vm_compute. reflexivity.
  - vm_compute. reflexivity.
  - vm_compute. reflexivity.
Defined.

(** C8, the claim as worded fails: a header that declares a sub-range twice
    leaves it twice in the index. *)
Lemma region_index_keeps_duplicates :
  result_of (ReadManager_ctor repeated_region_file ["a.bam"] 2) = Some tt
  /\ (state_of (ReadManager_ctor repeated_region_file ["a.bam"] 2)
     ≫= fun st => possible_regions_in_readers_ st !! "a.bam"
     ≫= fun contigs => contigs !! "chr1")
  = Some [mkContigRegion 0 10; mkContigRegion 50 100; mkContigRegion 50 100]
  /\ ~ NoDup [mkContigRegion 0 10; mkContigRegion 50 100; mkContigRegion 50 100].
Proof.
  split; [vm_compute; reflexivity |]. split; [vm_compute; reflexivity |].
  intros Hnd. apply NoDup_cons in Hnd as [_ Hnd]. apply NoDup_cons in Hnd as [Hnot _].
  apply Hnot. apply list_elem_of_singleton. reflexivity.
Qed.

(** ** The order of the pool *)

Section PoolOrder.
Context {AlignedRead : Type} (fs : FileSystem AlignedRead).

Lemma file_size_compare_lt (a b : path) : file_size_compare fs a b = true <-> size_lt fs a b.
Proof. unfold file_size_compare, size_lt. apply N.ltb_lt. Qed.

Lemma file_size_compare_ge (a b : path) :
  file_size_compare fs a b = false <-> (fs_file_size fs b <= fs_file_size fs a)%N.
Proof. unfold file_size_compare. apply N.ltb_ge. Qed.

#[local] Instance size_lt_trans : Transitive (size_lt fs).
Proof. unfold size_lt. intros a b c. lia. Qed.

Lemma map_sorted_strongly (m : list path) :
  map_sorted (file_size_compare fs) m = true <-> StronglySorted (size_lt fs) m.
Proof.
  split.
  - intros H. apply Sorted_StronglySorted; [apply _ |].
    induction m as [|q m IH]; [constructor |].
    destruct m as [|q' m]; [by repeat constructor |].
    simpl in H. apply andb_true_iff in H as [Hq Hm].
    constructor; [by apply IH |]. constructor. by apply file_size_compare_lt.
  - intros H. apply StronglySorted_Sorted in H.
    induction H as [|q m Hm IH Hhd]; [done |].
    destruct m as [|q' m]; [done |].
    simpl. apply andb_true_iff. split; [| exact IH].
    inversion Hhd; subst. by apply file_size_compare_lt.
Qed.

Lemma map_emplace_elem (k x : path) (m : list path) :
  x ∈ map_emplace (file_size_compare fs) k m -> x = k \/ x ∈ m.
Proof.
  induction m as [|q m IH]; simpl.
  - rewrite list_elem_of_singleton. tauto.
  - destruct (file_size_compare fs q k).
    + rewrite !elem_of_cons. tauto.
    + destruct (file_size_compare fs k q); rewrite !elem_of_cons; tauto.
Qed.

Lemma map_erase_elem (k x : path) (m : list path) :
  x ∈ map_erase (file_size_compare fs) k m -> x ∈ m.
Proof.
  induction m as [|q m IH]; simpl; [done |].
  destruct (file_size_compare fs q k).
  - rewrite !elem_of_cons. tauto.
  - destruct (file_size_compare fs k q); rewrite !elem_of_cons; tauto.
Qed.

Lemma map_emplace_sorted (k : path) (m : list path) :
  StronglySorted (size_lt fs) m ->
  StronglySorted (size_lt fs) (map_emplace (file_size_compare fs) k m).
Proof.
  induction 1 as [|q m Hm IH Hall]; simpl; [by repeat constructor |].
  destruct (file_size_compare fs q k) eqn:Hqk.
  - constructor; [done |]. apply Forall_forall. intros x Hx.
    apply map_emplace_elem in Hx as [-> | Hx].
    + by apply file_size_compare_lt.
    + by eapply Forall_forall in Hall.
  - destruct (file_size_compare fs k q) eqn:Hkq.
    + apply file_size_compare_lt in Hkq.
      constructor; [by constructor |]. constructor; [done |].
      eapply Forall_impl; [exact Hall |]. intros x Hx. by etrans.
    + by constructor.
Qed.

Lemma map_erase_sorted (k : path) (m : list path) :
  StronglySorted (size_lt fs) m ->
  StronglySorted (size_lt fs) (map_erase (file_size_compare fs) k m).
Proof.
  induction 1 as [|q m Hm IH Hall]; simpl; [constructor |].
  destruct (file_size_compare fs q k).
  - constructor; [done |]. apply Forall_forall. intros x Hx.
    apply map_erase_elem in Hx. by eapply Forall_forall in Hall.
  - destruct (file_size_compare fs k q); [by constructor | done].
Qed.

Lemma close_readers_sorted (n : nat) (st st' : ReadManager) :
  pool_sorted fs st -> close_readers fs n st = Some st' -> pool_sorted fs st'.
Proof.
  revert st. induction n as [|n IH]; intros st Hs; simpl.
  - by intros [= <-].
  - destruct (choose_reader_to_close st) as [v|]; [| done].
    apply IH. unfold pool_sorted in *. simpl.
    apply map_sorted_strongly, map_erase_sorted, map_sorted_strongly, Hs.
Qed.

Lemma emplace_readers_sorted (batch : list path) (st : ReadManager) :
  pool_sorted fs st -> pool_sorted fs (emplace_readers fs batch st).
Proof.
  revert st. induction batch as [|p batch IH]; intros st Hs; simpl; [done |].
  apply IH. unfold pool_sorted in *. simpl.
  apply map_sorted_strongly, map_emplace_sorted, map_sorted_strongly, Hs.
Qed.

Lemma open_readers_sorted (batch : list path) (st st' : ReadManager) :
  pool_sorted fs st -> open_readers fs batch st = Some st' -> pool_sorted fs st'.
Proof.
  unfold open_readers. intros Hs.
  destruct (close_readers fs _ st) as [st1|] eqn:E; [| done].
  intros [= <-]. apply emplace_readers_sorted. by eapply close_readers_sorted.
Qed.

Lemma close_readers_elem (n : nat) (st st' : ReadManager) (x : path) :
  close_readers fs n st = Some st' -> x ∈ open_readers_ st' -> x ∈ open_readers_ st.
Proof.
  revert st. induction n as [|n IH]; intros st; simpl.
  - by intros [= <-].
  - destruct (choose_reader_to_close st) as [v|]; [| done].
    intros H Hx. specialize (IH _ H Hx). simpl in IH. by eapply map_erase_elem.
Qed.

Lemma emplace_readers_elem (batch : list path) (st : ReadManager) (x : path) :
  x ∈ open_readers_ (emplace_readers fs batch st) -> x ∈ open_readers_ st \/ x ∈ batch.
Proof.
  revert st. induction batch as [|p batch IH]; intros st; simpl; [tauto |].
  intros Hx. apply IH in Hx as [Hx | Hx].
  - simpl in Hx. apply map_emplace_elem in Hx as [-> | Hx]; [right; left | by left].
  - right. by right.
Qed.

Lemma open_readers_elem (batch : list path) (st st' : ReadManager) (x : path) :
  open_readers fs batch st = Some st' ->
  x ∈ open_readers_ st' -> x ∈ open_readers_ st \/ x ∈ batch.
Proof.
  unfold open_readers.
  destruct (close_readers fs _ st) as [st1|] eqn:E; [| done].
  intros [= <-] Hx. apply emplace_readers_elem in Hx as [Hx | Hx]; [left | by right].
  by eapply close_readers_elem.
Qed.

(** C5: the victim is the first reader in the iteration order of the pool
    and no open reader has a smaller file. *)
Theorem choose_reader_to_close_smallest (st : ReadManager) (victim : path) :
  pool_sorted fs st ->
  choose_reader_to_close st = Some victim ->
  open_readers_ st !! 0%nat = Some victim
  /\ (forall q, q ∈ open_readers_ st ->
        (fs_file_size fs victim <= fs_file_size fs q)%N).
Proof.
  unfold pool_sorted, choose_reader_to_close. intros Hs Hv.
  destruct (open_readers_ st) as [|v m]; [done |]. injection Hv as ->.
  split; [done |]. intros q Hq.
  apply map_sorted_strongly in Hs. apply StronglySorted_inv in Hs as [_ Hall].
  apply elem_of_cons in Hq as [-> | Hq]; [lia |].
  eapply Forall_forall in Hall; [| exact Hq]. unfold size_lt in Hall. lia.
Qed.

(** A victim exists exactly when the pool is not empty. *)
Lemma choose_reader_to_close_defined (st : ReadManager) :
  is_Some (choose_reader_to_close st) <-> open_readers_ st <> [].
Proof.
  unfold choose_reader_to_close. destruct (open_readers_ st); simpl; split.
  - by intros [? ?].
  - done.
  - done.
  - by eexists.
Qed.
End PoolOrder.

Lemma choose_reader_to_close_smallest_witness :
  open_readers_ two_files_budget2 !! 0%nat = Some "a.bam"
  /\ (forall q, q ∈ open_readers_ two_files_budget2 ->
        (fs_file_size two_files "a.bam" <= fs_file_size two_files q)%N).
Proof.
  apply (choose_reader_to_close_smallest two_files two_files_budget2 "a.bam").
  - vm_compute. reflexivity.
  - vm_compute. reflexivity.
Defined.

(** ** Fetching *)

Section Partition.
Context {A : Type}.

Lemma std_partition_perm (f : A -> bool) (l : list A) :
  (std_partition f l).1 ++ (std_partition f l).2 ≡ₚ l.
Proof.
  unfold std_partition. simpl. induction l as [|x l IH]; simpl; [done |].
  destruct (f x); simpl.
  - by rewrite IH.
  - rewrite <- Permutation_middle. by rewrite IH.
Qed.

Lemma elem_of_list_filter_bool (f : A -> bool) (l : list A) (x : A) :
  x ∈ List.filter f l <-> x ∈ l /\ f x = true.
Proof. by rewrite !list_elem_of_In, filter_In. Qed.
End Partition.

Section Fetch.
Context {AlignedRead : Type} (fs : FileSystem AlignedRead).

Lemma partition_readers_eq (st : ReadManager) (region : GenomicRegion) (l : list path) :
  partition_readers fs st region l
  = (List.filter (is_open fs st)
       (List.filter (fun p => could_reader_contain_region st p region) l),
     List.filter (fun p => negb (is_open fs st p))
       (List.filter (fun p => could_reader_contain_region st p region) l),
     List.filter (fun p => negb (could_reader_contain_region st p region)) l).
Proof. reflexivity. Qed.

Lemma partition_readers_perm (st : ReadManager) (region : GenomicRegion) (l : list path)
    (opened unopened others : list path) :
  partition_readers fs st region l = (opened, unopened, others) ->
  opened ++ unopened ++ others ≡ₚ l.
Proof.
  rewrite partition_readers_eq. intros [= <- <- <-].
  rewrite app_assoc.
  rewrite (std_partition_perm (is_open fs st)
             (List.filter (fun p => could_reader_contain_region st p region) l)).
  apply (std_partition_perm (fun p => could_reader_contain_region st p region) l).
Qed.

Lemma partition_readers_unopened (st : ReadManager) (region : GenomicRegion) (l : list path)
    (opened unopened others : list path) (p : path) :
  partition_readers fs st region l = (opened, unopened, others) ->
  p ∈ unopened ->
  p ∈ l /\ could_reader_contain_region st p region = true /\ is_open fs st p = false.
Proof.
  rewrite partition_readers_eq. intros [= <- <- <-].
  rewrite !elem_of_list_filter_bool, negb_true_iff. tauto.
Qed.

Lemma could_reader_contain_region_same (st st' : ReadManager) (p : path)
    (region : GenomicRegion) :
  possible_regions_in_readers_ st' = possible_regions_in_readers_ st ->
  could_reader_contain_region st' p region = could_reader_contain_region st p region.
Proof. unfold could_reader_contain_region. by intros ->. Qed.

(** What a completed single-sample fetch went through. *)
Lemma fetch_reads_Ok_inv (sample : SampleIdType) (region : GenomicRegion)
    (st st' : ReadManager) (r : list AlignedRead) :
  fetch_reads fs sample region st = Ok r st' ->
  exists reader_paths opened unopened others result,
    reader_paths_containing_sample_ st !! sample = Some reader_paths
    /\ partition_readers fs st region reader_paths = (opened, unopened, others)
    /\ open_readers fs unopened
         (set_sample_map (<[sample := opened ++ unopened ++ others]>
                            (reader_paths_containing_sample_ st)) st) = Some st'
    /\ append_sample_reads fs
         (set_sample_map (<[sample := opened ++ unopened ++ others]>
                            (reader_paths_containing_sample_ st)) st)
         sample region opened [] = Some result
    /\ append_sample_reads fs st' sample region unopened result = Some r.
Proof.
  unfold fetch_reads.
  destruct (reader_paths_containing_sample_ st !! sample) as [reader_paths|]; [| done].
  destruct (partition_readers fs st region reader_paths) as [[opened unopened] others] eqn:Hp.
  destruct (append_sample_reads fs _ sample region opened []) as [result|] eqn:Hr1; [| done].
  destruct (open_readers fs unopened _) as [st2|] eqn:Ho; [| done].
  destruct (append_sample_reads fs st2 sample region unopened result) as [r'|] eqn:Hr2;
    [| done].
  intros [= <- <-]. by eexists _, _, _, _, _.
Qed.

(** The manager a single-sample fetch leaves behind, whatever its outcome. *)
Lemma fetch_reads_state_inv (sample : SampleIdType) (region : GenomicRegion)
    (st st' : ReadManager) :
  state_of (fetch_reads fs sample region st) = Some st' ->
  st' = st
  \/ exists reader_paths opened unopened others,
       reader_paths_containing_sample_ st !! sample = Some reader_paths
       /\ partition_readers fs st region reader_paths = (opened, unopened, others)
       /\ (st' = set_sample_map (<[sample := opened ++ unopened ++ others]>
                                   (reader_paths_containing_sample_ st)) st
           \/ open_readers fs unopened
                (set_sample_map (<[sample := opened ++ unopened ++ others]>
                                   (reader_paths_containing_sample_ st)) st) = Some st').
Proof.
  unfold fetch_reads.
  destruct (reader_paths_containing_sample_ st !! sample) as [reader_paths|];
    [| simpl; intros [= <-]; by left].
  destruct (partition_readers fs st region reader_paths) as [[opened unopened] others] eqn:Hp.
  intros H. right. exists reader_paths, opened, unopened, others. split; [done |].
  split; [done |].
  destruct (append_sample_reads fs _ sample region opened []) as [result|] eqn:Hr1;
    [| simpl in H; injection H as <-; by left].
  destruct (open_readers fs unopened _) as [st2|] eqn:Ho; [| done].
  right.
  destruct (append_sample_reads fs st2 sample region unopened result) as [r'|] eqn:Hr2;
    simpl in H; by injection H as <-.
Qed.

Lemma fetch_reads_samples_state_inv (samples : list SampleIdType) (region : GenomicRegion)
    (st st' : ReadManager) :
  state_of (fetch_reads_samples fs samples region st) = Some st' ->
  st' = st
  \/ exists reader_paths opened unopened others,
       get_reader_paths_containing_samples st samples = Some reader_paths
       /\ partition_readers fs st region reader_paths = (opened, unopened, others)
       /\ open_readers fs unopened st = Some st'.
Proof.
  unfold fetch_reads_samples.
  destruct (get_reader_paths_containing_samples st samples) as [reader_paths|];
    [| simpl; intros [= <-]; by left].
  destruct (partition_readers fs st region reader_paths) as [[opened unopened] others] eqn:Hp.
  intros H.
  destruct (append_all_reads fs st region opened ∅) as [result|] eqn:Hr1;
    [| simpl in H; injection H as <-; by left].
  right. exists reader_paths, opened, unopened, others. split; [done |]. split; [done |].
  destruct (open_readers fs unopened st) as [st2|] eqn:Ho; [| done].
  destruct (append_all_reads fs st2 region unopened result) as [r'|] eqn:Hr2;
    simpl in H; by injection H as <-.
Qed.
End Fetch.

Section FetchProperties.
Context {AlignedRead : Type} (fs : FileSystem AlignedRead).

(** C2: whatever a fetch (single-sample or multi-sample) adds to the pool
    passed the region filter of that call and was not open before; a
    source the filter rejects is never admitted. *)
Theorem fetch_opens_only_filtered (region : GenomicRegion) (st st' : ReadManager) (p : path) :
  (exists sample, state_of (fetch_reads fs sample region st) = Some st')
  \/ (exists samples, state_of (fetch_reads_samples fs samples region st) = Some st') ->
  p ∈ open_readers_ st' ->
  p ∉ open_readers_ st ->
  could_reader_contain_region st p region = true /\ is_open fs st p = false.
Proof.
  intros [[sample H] | [samples H]] Hin Hnot.
  - apply fetch_reads_state_inv in H as [-> | (l & o & u & x & _ & Hp & [-> | Ho])];
      [done | done |].
    apply (open_readers_elem fs _ _ _ p) in Ho; [| done].
    destruct Ho as [Ho | Hu]; [done |].
    eapply partition_readers_unopened in Hu; [| exact Hp]. tauto.
  - apply fetch_reads_samples_state_inv in H as [-> | (l & o & u & x & _ & Hp & Ho)];
      [done |].
    apply (open_readers_elem fs _ _ _ p) in Ho; [| done].
    destruct Ho as [Ho | Hu]; [done |].
    eapply partition_readers_unopened in Hu; [| exact Hp]. tauto.
Qed.

(** What a single-sample fetch does to the sample index, whatever its
    outcome: the sequence of its sample is permuted, nothing else moves. *)
Lemma fetch_reads_sample_index (sample : SampleIdType) (region : GenomicRegion)
    (st st' : ReadManager) :
  state_of (fetch_reads fs sample region st) = Some st' ->
  dom (reader_paths_containing_sample_ st') = dom (reader_paths_containing_sample_ st)
  /\ (forall s, s <> sample ->
        reader_paths_containing_sample_ st' !! s = reader_paths_containing_sample_ st !! s)
  /\ option_Forall2 (≡ₚ) (reader_paths_containing_sample_ st' !! sample)
                         (reader_paths_containing_sample_ st !! sample).
Proof.
  intros H.
  assert (forall l o u x,
            reader_paths_containing_sample_ st !! sample = Some l ->
            partition_readers fs st region l = (o, u, x) ->
            reader_paths_containing_sample_ st'
              = <[sample := o ++ u ++ x]> (reader_paths_containing_sample_ st) ->
            dom (reader_paths_containing_sample_ st') = dom (reader_paths_containing_sample_ st)
            /\ (forall s, s <> sample ->
                  reader_paths_containing_sample_ st' !! s
                  = reader_paths_containing_sample_ st !! s)
            /\ option_Forall2 (≡ₚ) (reader_paths_containing_sample_ st' !! sample)
                                   (reader_paths_containing_sample_ st !! sample)) as Hgen.
  { intros l o u x Hl Hp ->. split; [| split].
    - apply dom_insert_lookup_L. by eexists.
    - intros s Hs. by rewrite lookup_insert_ne.
    - rewrite lookup_insert_eq, Hl. constructor.
      by eapply partition_readers_perm. }
  apply fetch_reads_state_inv in H as [-> | (l & o & u & x & Hl & Hp & [-> | Ho])].
  - split; [done |]. split; [done |].
    destruct (reader_paths_containing_sample_ st !! sample); by constructor.
  - by eapply Hgen.
  - apply open_readers_same_indexes in Ho as (_ & _ & Hm & _). by eapply Hgen.
Qed.

(** The multi-sample fetch partitions a copy of the paths. *)
Lemma fetch_reads_samples_sample_index (samples : list SampleIdType) (region : GenomicRegion)
    (st st' : ReadManager) :
  state_of (fetch_reads_samples fs samples region st) = Some st' ->
  reader_paths_containing_sample_ st' = reader_paths_containing_sample_ st.
Proof.
  intros H.
  apply fetch_reads_samples_state_inv in H as [-> | (l & o & u & x & _ & _ & Ho)]; [done |].
  by apply open_readers_same_indexes in Ho as (_ & _ & Hm & _).
Qed.

(** C7 (as the code has it): the single-sample fetch partitions the
    sequence of its sample in place, so that sequence is afterwards a
    permutation of what it was; the keys of the sample index and the
    sequences of all other samples are untouched. The multi-sample fetch
    partitions a copy and leaves the sample index identical. *)
Theorem fetch_permutes_sample_index (sample : SampleIdType) (samples : list SampleIdType)
    (region : GenomicRegion) (st st' : ReadManager) :
  (state_of (fetch_reads fs sample region st) = Some st' ->
     dom (reader_paths_containing_sample_ st') = dom (reader_paths_containing_sample_ st)
     /\ (forall s, s <> sample ->
           reader_paths_containing_sample_ st' !! s = reader_paths_containing_sample_ st !! s)
     /\ option_Forall2 (≡ₚ) (reader_paths_containing_sample_ st' !! sample)
                            (reader_paths_containing_sample_ st !! sample))
  /\ (state_of (fetch_reads_samples fs samples region st) = Some st' ->
      reader_paths_containing_sample_ st' = reader_paths_containing_sample_ st).
Proof.
  split.
  - apply fetch_reads_sample_index.
  - apply fetch_reads_samples_sample_index.
Qed.
End FetchProperties.

Lemma fetch_opens_only_filtered_witness :
  could_reader_contain_region two_files_budget1 "b.bam" (chr1 0 50) = true
  /\ is_open two_files two_files_budget1 "b.bam" = false.
Proof.
  apply (fetch_opens_only_filtered two_files (chr1 0 50) two_files_budget1
           (default empty_manager
              (state_of (fetch_reads two_files "S" (chr1 0 50) two_files_budget1)))
           "b.bam").
  - left. exists "S". vm_compute. reflexivity.
  - apply (bool_decide_unpack _). vm_compute. exact I.
  - apply (bool_decide_unpack _). vm_compute. exact I.
Defined.

Lemma fetch_permutes_sample_index_witness :
  (dom (reader_paths_containing_sample_
          (default empty_manager
             (state_of (fetch_reads split_files "S" (chr1 60 70) split_files_budget2))))
   = dom (reader_paths_containing_sample_ split_files_budget2)
   /\ (forall s, s <> "S" ->
         reader_paths_containing_sample_
           (default empty_manager
              (state_of (fetch_reads split_files "S" (chr1 60 70) split_files_budget2))) !! s
         = reader_paths_containing_sample_ split_files_budget2 !! s)
   /\ option_Forall2 (≡ₚ)
        (reader_paths_containing_sample_
           (default empty_manager
              (state_of (fetch_reads split_files "S" (chr1 60 70) split_files_budget2))) !! "S")
        (reader_paths_containing_sample_ split_files_budget2 !! "S"))
  /\ reader_paths_containing_sample_
       (default empty_manager
          (state_of (fetch_reads_samples split_files ["S"] (chr1 60 70) split_files_budget2)))
     = reader_paths_containing_sample_ split_files_budget2.
Proof.
  split.
  - apply (proj1 (fetch_permutes_sample_index split_files "S" ["S"] (chr1 60 70)
                    split_files_budget2 _)).
    vm_compute. reflexivity.
  - apply (proj2 (fetch_permutes_sample_index split_files "S" ["S"] (chr1 60 70)
                    split_files_budget2 _)).
    vm_compute. reflexivity.
Defined.

(** C7, the claim as worded fails: a single-sample fetch for a region that
    only the second file of the sample covers moves that file to the front
    of the sequence, and a fetch for a region that only the other file
    covers moves it back. Whatever order construction leaves, one of the two
    fetches changes it. *)
Lemma fetch_reorders_sample_index :
  ReadManager_ctor split_files ["a.bam"; "b.bam"] 2 = Ok tt split_files_budget2
  /\ reader_paths_containing_sample_ split_files_budget2 !! "S" = Some ["a.bam"; "b.bam"]
  /\ (state_of (fetch_reads split_files "S" (chr1 60 70) split_files_budget2)
        ≫= fun st => reader_paths_containing_sample_ st !! "S")
     = Some ["b.bam"; "a.bam"]
  /\ (state_of (fetch_reads split_files "S" (chr1 60 70) split_files_budget2)
        ≫= fun st => state_of (fetch_reads split_files "S" (chr1 0 5) st)
        ≫= fun st => reader_paths_containing_sample_ st !! "S")
     = Some ["a.bam"; "b.bam"].
Proof. repeat split; vm_compute; reflexivity. Qed.

(** ** Repeated queries *)

Section RepeatedQueries.
Context {AlignedRead : Type} (fs : FileSystem AlignedRead).

Lemma filter_all_true {A : Type} (f : A -> bool) (l : list A) :
  (forall x, x ∈ l -> f x = true) -> List.filter f l = l.
Proof.
  induction l as [|x l IH]; intros H; simpl; [done |].
  rewrite (H x) by (by left). f_equal. apply IH. intros y Hy. apply H. by right.
Qed.

Lemma filter_all_false {A : Type} (f : A -> bool) (l : list A) :
  (forall x, x ∈ l -> f x = false) -> List.filter f l = [].
Proof.
  induction l as [|x l IH]; intros H; simpl; [done |].
  rewrite (H x) by (by left). apply IH. intros y Hy. apply H. by right.
Qed.

Lemma is_open_find (st : ReadManager) (p : path) :
  is_open fs st p = true <->
  is_Some (map_find (file_size_compare fs) p (open_readers_ st)).
Proof.
  unfold is_open, map_count. rewrite bool_decide_eq_true.
  destruct (map_find _ p _); split; intros H.
  - by eexists.
  - lia.
  - lia.
  - by destruct H.
Qed.

Lemma map_find_emplace_self (k : path) (m : list path) :
  is_Some (map_find (file_size_compare fs) k (map_emplace (file_size_compare fs) k m)).
Proof.
  induction m as [|q m IH]; simpl.
  - rewrite file_size_compare_irrefl. by eexists.
  - destruct (file_size_compare fs q k) eqn:Hqk; simpl.
    + by rewrite Hqk.
    + destruct (file_size_compare fs k q) eqn:Hkq; simpl.
      * rewrite file_size_compare_irrefl. by eexists.
      * rewrite Hqk, Hkq. by eexists.
Qed.

Lemma map_find_emplace_keeps (k k' : path) (m : list path) :
  is_Some (map_find (file_size_compare fs) k m) ->
  is_Some (map_find (file_size_compare fs) k (map_emplace (file_size_compare fs) k' m)).
Proof.
  induction m as [|q m IH]; simpl; [by intros [? ?] |].
  destruct (file_size_compare fs q k') eqn:Hqk'; simpl.
  - destruct (file_size_compare fs q k); [exact IH | done].
  - destruct (file_size_compare fs k' q) eqn:Hk'q; simpl; [| done].
    destruct (file_size_compare fs k' k) eqn:Hk'k; [done |].
    destruct (file_size_compare fs k k') eqn:Hkk'; [| by eexists].
    destruct (file_size_compare fs q k) eqn:Hqk.
    + apply file_size_compare_lt in Hk'q, Hkk', Hqk. unfold size_lt in *. lia.
    + destruct (file_size_compare fs k q) eqn:Hkq; [by intros [? ?] |].
      apply file_size_compare_lt in Hk'q, Hkk'. apply file_size_compare_ge in Hkq.
      unfold size_lt in *. lia.
Qed.

Lemma emplace_readers_find_keeps (batch : list path) (st : ReadManager) (k : path) :
  is_Some (map_find (file_size_compare fs) k (open_readers_ st)) ->
  is_Some (map_find (file_size_compare fs) k (open_readers_ (emplace_readers fs batch st))).
Proof.
  revert st. induction batch as [|p batch IH]; intros st H; simpl; [done |].
  apply IH. simpl. by apply map_find_emplace_keeps.
Qed.

(** Every path of a batch is answered by the pool once the batch is admitted. *)
Lemma open_readers_is_open (batch : list path) (st st' : ReadManager) (p : path) :
  open_readers fs batch st = Some st' -> p ∈ batch -> is_open fs st' p = true.
Proof.
  unfold open_readers. destruct (close_readers fs _ st) as [st1|]; [| done].
  intros [= <-] Hp. apply is_open_find. clear st. revert st1.
  induction batch as [|q batch IH]; intros st1; [by apply not_elem_of_nil in Hp |].
  simpl. apply elem_of_cons in Hp as [-> | Hp].
  - apply emplace_readers_find_keeps. simpl. apply map_find_emplace_self.
  - by apply IH.
Qed.

Lemma append_all_reads_defined (st : ReadManager) (region : GenomicRegion) (l : list path)
    (acc : gmap SampleIdType (list AlignedRead)) :
  (forall p, p ∈ l -> is_open fs st p = true) ->
  is_Some (append_all_reads fs st region l acc).
Proof.
  revert acc. induction l as [|p l IH]; intros acc H; simpl; [by eexists |].
  unfold reader_at. destruct (proj1 (is_open_find st p)) as [q ->]; [apply H; by left |].
  apply IH. intros x Hx. apply H. by right.
Qed.

(** The reads depend on the manager through the readers that answer only. *)
Lemma append_sample_reads_ext (st st' : ReadManager) (sample : SampleIdType)
    (region : GenomicRegion) (l : list path) (acc : list AlignedRead) :
  (forall p, p ∈ l ->
     map_find (file_size_compare fs) p (open_readers_ st')
     = map_find (file_size_compare fs) p (open_readers_ st)) ->
  append_sample_reads fs st' sample region l acc = append_sample_reads fs st sample region l acc.
Proof.
  revert acc. induction l as [|p l IH]; intros acc H; simpl; [done |].
  unfold reader_at. rewrite (H p) by (by left).
  destruct (map_find _ p _); [| done]. apply IH. intros x Hx. apply H. by right.
Qed.

Lemma append_sample_reads_app (st : ReadManager) (sample : SampleIdType)
    (region : GenomicRegion) (l1 l2 : list path) (acc : list AlignedRead) :
  append_sample_reads fs st sample region (l1 ++ l2) acc
  = append_sample_reads fs st sample region l1 acc
      ≫= append_sample_reads fs st sample region l2.
Proof.
  revert acc. induction l1 as [|p l1 IH]; intros acc; simpl; [done |].
  destruct (reader_at fs st p region); [apply IH | done].
Qed.

Lemma open_readers_nil (st : ReadManager) : open_readers fs [] st = Some st.
Proof.
  unfold open_readers, num_readers_to_close. simpl.
  change (to_unsigned (Z.of_nat 0)) with 0.
  destruct (Z.leb_spec 0 (to_unsigned (max_open_files_ st
              - to_unsigned (Z.of_nat (length (open_readers_ st)))))) as [_ | Hneg].
  - reflexivity.
  - unfold to_unsigned in Hneg.
    pose proof (Z.mod_pos_bound
                  (max_open_files_ st - Z.of_nat (length (open_readers_ st)) mod 2 ^ 32)
                  (2 ^ 32) eq_refl). lia.
Qed.

(** A sequence whose candidates come first and are all open is left as it
    is by the two partitions. *)
Lemma partition_readers_settled (st : ReadManager) (region : GenomicRegion)
    (candidates others : list path) :
  (forall p, p ∈ candidates ->
     could_reader_contain_region st p region = true /\ is_open fs st p = true) ->
  (forall p, p ∈ others -> could_reader_contain_region st p region = false) ->
  partition_readers fs st region (candidates ++ others) = (candidates, [], others).
Proof.
  intros Hc Hx. rewrite partition_readers_eq.
  rewrite !List.filter_app.
  rewrite (filter_all_true (fun p => could_reader_contain_region st p region) candidates)
    by (intros; by apply Hc).
  rewrite (filter_all_false (fun p => could_reader_contain_region st p region) others)
    by done.
  rewrite (filter_all_false (fun p => negb (could_reader_contain_region st p region))
             candidates)
    by (intros p Hp; apply negb_false_iff; by apply Hc).
  rewrite (filter_all_true (fun p => negb (could_reader_contain_region st p region)) others)
    by (intros p Hp; apply negb_true_iff; by apply Hx).
  rewrite app_nil_r. simpl.
  rewrite (filter_all_true (is_open fs st) candidates) by (intros; by apply Hc).
  rewrite (filter_all_false (fun p => negb (is_open fs st p)) candidates); [done |].
  intros p Hp. apply negb_false_iff. by apply Hc.
Qed.

Lemma partition_readers_spec (st : ReadManager) (region : GenomicRegion)
    (l opened unopened others : list path) :
  partition_readers fs st region l = (opened, unopened, others) ->
  (forall p, p ∈ opened ->
     p ∈ l /\ could_reader_contain_region st p region = true /\ is_open fs st p = true)
  /\ (forall p, p ∈ unopened ->
        p ∈ l /\ could_reader_contain_region st p region = true /\ is_open fs st p = false)
  /\ (forall p, p ∈ others -> could_reader_contain_region st p region = false).
Proof.
  rewrite partition_readers_eq. intros [= <- <- <-]. split; [| split].
  - intros p. rewrite !elem_of_list_filter_bool. tauto.
  - intros p. rewrite !elem_of_list_filter_bool, negb_true_iff. tauto.
  - intros p. rewrite elem_of_list_filter_bool, negb_true_iff. tauto.
Qed.

(** The single-sample fetch, repeated. *)
Lemma fetch_reads_repeated (sample : SampleIdType) (region : GenomicRegion)
    (st st' : ReadManager) (reader_paths : list path) (r : list AlignedRead) :
  reader_paths_containing_sample_ st !! sample = Some reader_paths ->
  fetch_reads fs sample region st = Ok r st' ->
  (forall p, p ∈ reader_paths ->
     could_reader_contain_region st p region = true ->
     is_open fs st p = true ->
     map_find (file_size_compare fs) p (open_readers_ st')
     = map_find (file_size_compare fs) p (open_readers_ st)) ->
  fetch_reads fs sample region st' = Ok r st'.
Proof.
  intros Hl Hfetch Hkeep.
  apply fetch_reads_Ok_inv in Hfetch as (l & o & u & x & result & Hl' & Hp & Ho & Hr1 & Hr2).
  rewrite Hl in Hl'. injection Hl' as <-.
  set (st1 := set_sample_map _ st) in *.
  destruct (partition_readers_spec st region reader_paths o u x Hp)
    as (Hopened & Hunopened & Hothers).
  destruct (open_readers_same_indexes fs _ _ _ Ho) as (_ & _ & Hmap & Hregions).
  assert (reader_paths_containing_sample_ st' !! sample = Some ((o ++ u) ++ x)) as Hl1.
  { rewrite Hmap. subst st1. simpl. rewrite lookup_insert_eq. by rewrite app_assoc. }
  assert (partition_readers fs st' region ((o ++ u) ++ x) = (o ++ u, [], x)) as Hp1.
  { apply partition_readers_settled.
    - intros p Hin. rewrite (could_reader_contain_region_same st st') by done.
      apply elem_of_app in Hin as [Hin | Hin].
      + destruct (Hopened p Hin) as (Hpl & Hcould & Hopen). split; [done |].
        apply is_open_find. rewrite Hkeep by done. by apply is_open_find.
      + destruct (Hunopened p Hin) as (_ & Hcould & _). split; [done |].
        by eapply open_readers_is_open.
    - intros p Hin. rewrite (could_reader_contain_region_same st st') by done.
      by apply Hothers. }
  assert (set_sample_map (<[sample := (o ++ u) ++ [] ++ x]>
                            (reader_paths_containing_sample_ st')) st' = st') as Hid.
  { simpl. rewrite insert_id by done. by destruct st'. }
  unfold fetch_reads. rewrite Hl1, Hp1, Hid.
  rewrite append_sample_reads_app.
  rewrite (append_sample_reads_ext st1 st' sample region o []).
  - rewrite Hr1. simpl. rewrite Hr2, open_readers_nil. done.
  - intros p Hin. destruct (Hopened p Hin) as (Hpl & Hcould & Hopen).
    subst st1. simpl. by apply Hkeep.
Qed.

Lemma merge_reads_lookup (result reads : gmap SampleIdType (list AlignedRead))
    (s : SampleIdType) :
  merge_reads result reads !! s
  = match reads !! s with
    | Some rs => Some (default [] (result !! s) ++ rs)
    | None => result !! s
    end.
Proof.
  unfold merge_reads. revert s.
  apply (map_fold_weak_ind
           (fun acc m => forall s,
              acc !! s = match m !! s with
                         | Some rs => Some (default [] (result !! s) ++ rs)
                         | None => result !! s
                         end)).
  - intros s. by rewrite lookup_empty.
  - intros i x m acc Hi IH s. destruct (decide (i = s)) as [<- | Hne].
    + rewrite !lookup_insert_eq. by rewrite (IH i), Hi.
    + rewrite !lookup_insert_ne by done. apply IH.
Qed.

(** The reads the reader that answers for [p] holds for [s]. *)
Lemma append_all_reads_lookup (st : ReadManager) (region : GenomicRegion) (l : list path)
    (acc r : gmap SampleIdType (list AlignedRead)) (s : SampleIdType) :
  append_all_reads fs st region l acc = Some r ->
  default [] (r !! s)
  = default [] (acc !! s)
    ++ (l ≫= fun p => default [] (reader_at fs st p region ≫= fun reads => reads !! s))
  /\ (is_Some (r !! s)
      <-> is_Some (acc !! s)
          \/ exists p, p ∈ l
                       /\ is_Some (reader_at fs st p region ≫= fun reads => reads !! s)).
Proof.
  revert acc. induction l as [|p l IH]; intros acc; simpl.
  - intros [= <-]. rewrite app_nil_r. split; [done |]. split; [tauto |].
    intros [H | (p & Hp & _)]; [done |]. by apply not_elem_of_nil in Hp.
  - destruct (reader_at fs st p region) as [reads|] eqn:Hat; [| done].
    intros H. apply IH in H as [Hval Hkey]. rewrite merge_reads_lookup in Hval, Hkey.
    simpl. split.
    + rewrite Hval. destruct (reads !! s) as [rs|]; simpl; [| done].
      by rewrite <- app_assoc.
    + rewrite Hkey. split.
      * intros [H | (q & Hq & Hs)].
        -- destruct (reads !! s) as [rs|] eqn:Hrs; [| tauto].
           right. exists p. split; [by left |]. rewrite Hat. simpl. by rewrite Hrs.
        -- right. exists q. split; [by right | done].
      * intros [H | (q & Hq & Hs)].
        -- left. destruct (reads !! s); [by eexists | done].
        -- apply elem_of_cons in Hq as [-> | Hq].
           ++ left. rewrite Hat in Hs. simpl in Hs. destruct (reads !! s); [by eexists |].
              by destruct Hs.
           ++ right. by exists q.
Qed.

Lemma append_all_reads_ext (st st' : ReadManager) (region : GenomicRegion) (l : list path)
    (acc : gmap SampleIdType (list AlignedRead)) :
  (forall p, p ∈ l ->
     map_find (file_size_compare fs) p (open_readers_ st')
     = map_find (file_size_compare fs) p (open_readers_ st)) ->
  append_all_reads fs st' region l acc = append_all_reads fs st region l acc.
Proof.
  revert acc. induction l as [|p l IH]; intros acc H; simpl; [done |].
  unfold reader_at. rewrite (H p) by (by left).
  destruct (map_find _ p _); [| done]. apply IH. intros x Hx. apply H. by right.
Qed.

Lemma append_all_reads_app (st : ReadManager) (region : GenomicRegion) (l1 l2 : list path)
    (acc : gmap SampleIdType (list AlignedRead)) :
  append_all_reads fs st region (l1 ++ l2) acc
  = append_all_reads fs st region l1 acc ≫= append_all_reads fs st region l2.
Proof.
  revert acc. induction l1 as [|p l1 IH]; intros acc; simpl; [done |].
  destruct (reader_at fs st p region); [apply IH | done].
Qed.

Lemma get_reader_paths_containing_samples_same (st st' : ReadManager)
    (samples : list SampleIdType) :
  reader_paths_containing_sample_ st' = reader_paths_containing_sample_ st ->
  get_reader_paths_containing_samples st' samples
  = get_reader_paths_containing_samples st samples.
Proof.
  intros Hidx. unfold get_reader_paths_containing_samples. f_equal.
  generalize (∅ : gset path). induction samples as [|s samples IH]; intros acc; simpl;
    [done |].
  rewrite Hidx. destruct (reader_paths_containing_sample_ st !! s); [apply IH | done].
Qed.

(** What a completed multi-sample fetch went through. *)
Lemma fetch_reads_samples_Ok_inv (samples : list SampleIdType) (region : GenomicRegion)
    (st st' : ReadManager) (r : gmap SampleIdType (list AlignedRead)) :
  fetch_reads_samples fs samples region st = Ok r st' ->
  exists reader_paths opened unopened others result,
    get_reader_paths_containing_samples st samples = Some reader_paths
    /\ partition_readers fs st region reader_paths = (opened, unopened, others)
    /\ open_readers fs unopened st = Some st'
    /\ append_all_reads fs st region opened ∅ = Some result
    /\ append_all_reads fs st' region unopened result = Some r.
Proof.
  unfold fetch_reads_samples.
  destruct (get_reader_paths_containing_samples st samples) as [reader_paths|]; [| done].
  destruct (partition_readers fs st region reader_paths) as [[opened unopened] others] eqn:Hp.
  destruct (append_all_reads fs st region opened ∅) as [result|] eqn:Hr1; [| done].
  destruct (open_readers fs unopened st) as [st2|] eqn:Ho; [| done].
  destruct (append_all_reads fs st2 region unopened result) as [r'|] eqn:Hr2; [| done].
  intros [= <- <-]. by eexists _, _, _, _, _.
Qed.

(** The multi-sample fetch, repeated: the same samples, and for each the
    same reads, those of the sources the first call had to open no longer
    after the others. *)
Lemma fetch_reads_samples_repeated (samples : list SampleIdType) (region : GenomicRegion)
    (st st' : ReadManager) (reader_paths : list path)
    (r : gmap SampleIdType (list AlignedRead)) :
  get_reader_paths_containing_samples st samples = Some reader_paths ->
  fetch_reads_samples fs samples region st = Ok r st' ->
  (forall p, p ∈ reader_paths ->
     could_reader_contain_region st p region = true ->
     is_open fs st p = true ->
     map_find (file_size_compare fs) p (open_readers_ st')
     = map_find (file_size_compare fs) p (open_readers_ st)) ->
  exists r',
    fetch_reads_samples fs samples region st' = Ok r' st'
    /\ forall s, (is_Some (r' !! s) <-> is_Some (r !! s))
                 /\ default [] (r' !! s) ≡ₚ default [] (r !! s).
Proof.
  intros Hl Hfetch Hkeep.
  apply fetch_reads_samples_Ok_inv in Hfetch
    as (l & o & u & x & r1 & Hl' & Hp & Ho & Hr1 & Hr2).
  rewrite Hl in Hl'. injection Hl' as <-.
  destruct (partition_readers_spec st region reader_paths o u x Hp)
    as (Hopened & Hunopened & Hothers).
  destruct (open_readers_same_indexes fs _ _ _ Ho) as (_ & _ & Hmap & Hregions).
  set (candidates := List.filter (fun p => could_reader_contain_region st p region)
                       reader_paths).
  assert (o ++ u ≡ₚ candidates) as Hperm.
  { rewrite partition_readers_eq in Hp. injection Hp as <- <- _.
    apply (std_partition_perm (is_open fs st)). }
  assert (forall p, p ∈ candidates -> is_open fs st' p = true) as Hopen'.
  { intros p Hin. rewrite <- Hperm in Hin. apply elem_of_app in Hin as [Hin | Hin].
    - destruct (Hopened p Hin) as (Hpl & Hcould & Hopen).
      apply is_open_find. rewrite Hkeep by done. by apply is_open_find.
    - by eapply open_readers_is_open. }
  assert (partition_readers fs st' region reader_paths
          = (candidates, [],
             List.filter (fun p => negb (could_reader_contain_region st p region))
               reader_paths)) as Hp'.
  { rewrite partition_readers_eq.
    rewrite (List.filter_ext (fun p => could_reader_contain_region st' p region)
               (fun p => could_reader_contain_region st p region))
      by (intros p; by apply could_reader_contain_region_same).
    rewrite (List.filter_ext (fun p => negb (could_reader_contain_region st' p region))
               (fun p => negb (could_reader_contain_region st p region)))
      by (intros p; f_equal; by apply could_reader_contain_region_same).
    fold candidates.
    rewrite (filter_all_true (is_open fs st') candidates) by done.
    rewrite (filter_all_false (fun p => negb (is_open fs st' p)) candidates); [done |].
    intros p Hin. apply negb_false_iff. by apply Hopen'. }
  destruct (append_all_reads_defined st' region candidates ∅ Hopen') as [r' Hr'].
  exists r'. split.
  { unfold fetch_reads_samples.
    rewrite (get_reader_paths_containing_samples_same st st' samples Hmap), Hl, Hp', Hr'.
    rewrite open_readers_nil. done. }
  assert (append_all_reads fs st' region (o ++ u) ∅ = Some r) as Hr.
  { rewrite append_all_reads_app.
    rewrite (append_all_reads_ext st st' region o ∅).
    - by rewrite Hr1.
    - intros p Hin. destruct (Hopened p Hin) as (Hpl & Hcould & Hopen). by apply Hkeep. }
  intros s.
  destruct (append_all_reads_lookup st' region _ _ _ s Hr) as [Hval Hkey].
  destruct (append_all_reads_lookup st' region _ _ _ s Hr') as [Hval' Hkey'].
  split.
  - rewrite Hkey, Hkey'. by setoid_rewrite Hperm.
  - rewrite Hval, Hval'. by rewrite Hperm.
Qed.

(** C9 (as the code has it): [get_samples] answers the same before and
    after any fetch. A single-sample fetch returns the same value when it is
    repeated, provided the first call did not evict the reader of a source
    it had read from. A multi-sample fetch repeated under the same condition
    returns the same samples and for each of them the same reads, in an
    order that can differ from the first call's. *)
Theorem repeated_queries_agree (sample : SampleIdType) (samples : list SampleIdType)
    (region : GenomicRegion) (st st' : ReadManager) (reader_paths : list path)
    (r : list AlignedRead) (rs : gmap SampleIdType (list AlignedRead)) :
  (state_of (fetch_reads fs sample region st) = Some st'
   \/ state_of (fetch_reads_samples fs samples region st) = Some st' ->
   get_samples st' = get_samples st)
  /\ (reader_paths_containing_sample_ st !! sample = Some reader_paths ->
      fetch_reads fs sample region st = Ok r st' ->
      (forall p, p ∈ reader_paths ->
         could_reader_contain_region st p region = true ->
         is_open fs st p = true ->
         map_find (file_size_compare fs) p (open_readers_ st')
         = map_find (file_size_compare fs) p (open_readers_ st)) ->
      fetch_reads fs sample region st' = Ok r st')
  /\ (get_reader_paths_containing_samples st samples = Some reader_paths ->
      fetch_reads_samples fs samples region st = Ok rs st' ->
      (forall p, p ∈ reader_paths ->
         could_reader_contain_region st p region = true ->
         is_open fs st p = true ->
         map_find (file_size_compare fs) p (open_readers_ st')
         = map_find (file_size_compare fs) p (open_readers_ st)) ->
      exists rs',
        fetch_reads_samples fs samples region st' = Ok rs' st'
        /\ forall s, (is_Some (rs' !! s) <-> is_Some (rs !! s))
                     /\ default [] (rs' !! s) ≡ₚ default [] (rs !! s)).
Proof.
  split; [| split].
  - unfold get_samples. intros [H | H].
    + by destruct (fetch_reads_sample_index fs sample region st st' H) as (-> & _).
    + by rewrite (fetch_reads_samples_sample_index fs samples region st st' H).
  - apply fetch_reads_repeated.
  - apply fetch_reads_samples_repeated.
Qed.
End RepeatedQueries.

(** On [mixed_files] with room for two readers a.bam and b.bam are open. A
    fetch for S, single-sample or multi-sample, reads b.bam, evicts a.bam,
    which holds no read of S, and opens and reads c.bam. *)
Lemma repeated_queries_agree_witness :
  get_samples (default empty_manager
                 (state_of (fetch_reads two_files "S" (chr1 0 50) two_files_budget1)))
    = get_samples two_files_budget1
  /\ fetch_reads mixed_files "S" (chr1 0 50)
       (default empty_manager
          (state_of (fetch_reads mixed_files "S" (chr1 0 50) mixed_files_budget2)))
     = Ok ["b1"; "c1"]
          (default empty_manager
             (state_of (fetch_reads mixed_files "S" (chr1 0 50) mixed_files_budget2)))
  /\ (exists rs',
        fetch_reads_samples mixed_files ["S"] (chr1 0 50)
          (default empty_manager
             (state_of (fetch_reads_samples mixed_files ["S"] (chr1 0 50)
                          mixed_files_budget2)))
        = Ok rs'
            (default empty_manager
               (state_of (fetch_reads_samples mixed_files ["S"] (chr1 0 50)
                            mixed_files_budget2)))
        /\ forall s,
             (is_Some (rs' !! s) <-> is_Some (({["S" := ["b1"; "c1"]]} : gmap _ _) !! s))
             /\ default [] (rs' !! s)
                ≡ₚ default [] (({["S" := ["b1"; "c1"]]} : gmap _ _) !! s)).
Proof.
  split; [| split].
  - apply (proj1 (repeated_queries_agree two_files "S" ["S"] (chr1 0 50)
                    two_files_budget1 _ [] [] ∅)).
    left. vm_compute. reflexivity.
  - apply (proj1 (proj2 (repeated_queries_agree mixed_files "S" ["S"] (chr1 0 50)
                           mixed_files_budget2 _ ["c.bam"; "b.bam"] ["b1"; "c1"] ∅))).
    + vm_compute. reflexivity.
    + vm_compute. reflexivity.
    + intros p Hp _ Hopen. apply list_elem_of_In in Hp. simpl in Hp.
      destruct Hp as [<- | [<- | []]].
      * vm_compute in Hopen. discriminate.
      * vm_compute. reflexivity.
  - apply (proj2 (proj2 (repeated_queries_agree mixed_files "S" ["S"] (chr1 0 50)
                           mixed_files_budget2 _ ["c.bam"; "b.bam"] []
                           {["S" := ["b1"; "c1"]]}))).
    + vm_compute. reflexivity.
    + vm_compute. reflexivity.
    + intros p Hp _ Hopen. apply list_elem_of_In in Hp. simpl in Hp.
      destruct Hp as [<- | [<- | []]].
      * vm_compute in Hopen. discriminate.
      * vm_compute. reflexivity.
Defined.

(** C9, the claim as worded fails for the multi-sample fetch. Two
    catalogues hold the same three files and differ in the sizes of b.bam and
    c.bam only; with room for two readers construction opens a.bam and the
    smaller of the two. A fetch for the samples [S] reads the open source of
    S, evicts a.bam, which holds no read of S, and opens and reads the other
    source: b1 before c1 in the first catalogue, c1 before b1 in the second.
    No source of S is closed. Repeated, the fetch finds both sources open in
    either catalogue and reads them in the iteration order of the path set,
    which is the same for both: the two second results are equal, so in one
    catalogue the second call does not return what the first returned,
    whichever order the path set is iterated in. *)
Lemma repeated_fetch_reorders_reads :
  ReadManager_ctor mixed_files ["a.bam"; "b.bam"; "c.bam"] 2 = Ok tt mixed_files_budget2
  /\ ReadManager_ctor mirrored_files ["a.bam"; "b.bam"; "c.bam"] 2
     = Ok tt mirrored_files_budget2
  /\ open_readers_ mixed_files_budget2 = ["a.bam"; "b.bam"]
  /\ open_readers_ mirrored_files_budget2 = ["a.bam"; "c.bam"]
  /\ exists first first' second second' st st',
       fetch_reads_samples mixed_files ["S"] (chr1 0 50) mixed_files_budget2 = Ok first st
       /\ fetch_reads_samples mirrored_files ["S"] (chr1 0 50) mirrored_files_budget2
          = Ok first' st'
       /\ fetch_reads_samples mixed_files ["S"] (chr1 0 50) st = Ok second st
       /\ fetch_reads_samples mirrored_files ["S"] (chr1 0 50) st' = Ok second' st'
       /\ open_readers_ st = ["b.bam"; "c.bam"]
       /\ open_readers_ st' = ["c.bam"; "b.bam"]
       /\ first !! "S" = Some ["b1"; "c1"]
       /\ first' !! "S" = Some ["c1"; "b1"]
       /\ second = second'
       /\ ~ (second = first /\ second' = first').
Proof.
  split; [vm_compute; reflexivity |]. split; [vm_compute; reflexivity |].
  split; [vm_compute; reflexivity |]. split; [vm_compute; reflexivity |].
  eexists _, _, _, _, _, _.
  split; [vm_compute; reflexivity |]. split; [vm_compute; reflexivity |].
  split; [vm_compute; reflexivity |]. split; [vm_compute; reflexivity |].
  split; [vm_compute; reflexivity |]. split; [vm_compute; reflexivity |].
  split; [vm_compute; reflexivity |]. split; [vm_compute; reflexivity |].
  split; [vm_compute; reflexivity |].
  intros [H H']. pose proof (eq_trans (eq_sym H) H') as Heq.
  apply (f_equal (fun m : gmap string (list string) => m !! "S")) in Heq.
  vm_compute in Heq. discriminate.
Qed.

(** ** The budget *)

Section Budget.
Context {AlignedRead : Type} (fs : FileSystem AlignedRead).

(** Every batch admission that completes keeps the budget. *)
Lemma open_readers_budget (batch : list path) (st st' : ReadManager) :
  within_budget st ->
  Z.of_nat (length batch) < 2 ^ 32 ->
  open_readers fs batch st = Some st' ->
  within_budget st'.
Proof.
  intros [Hmax Hopen] Hbatch Ho.
  destruct (Z.le_gt_cases (Z.of_nat (length batch)) (max_open_files_ st)) as [Hle | Hgt].
  - destruct (open_readers_within_budget fs batch st Hmax Hopen Hle) as (st'' & Ho' & Hb).
    rewrite Ho in Ho'. injection Ho' as <-. split; [| done].
    by destruct (open_readers_same_indexes fs _ _ _ Ho) as (-> & _).
  - rewrite open_readers_beyond_budget in Ho by (done || lia). done.
Qed.

(** The single admission evicts one reader when the pool is full. *)
Lemma open_reader_budget (p : path) (st st' : ReadManager) :
  within_budget st ->
  0 < max_open_files_ st ->
  open_reader fs p st = Some st' ->
  within_budget st'.
Proof.
  unfold open_reader, within_budget. intros [Hmax Hopen] Hpos.
  destruct (Z.eqb_spec (Z.of_nat (length (open_readers_ st))) (max_open_files_ st))
    as [Heq | Hne].
  - unfold choose_reader_to_close.
    destruct (open_readers_ st) as [|v m] eqn:E; [done |]. intros [= <-]. simpl.
    rewrite E. simpl. rewrite file_size_compare_irrefl.
    pose proof (map_emplace_length fs p m). simpl in Heq. lia.
  - intros [= <-]. simpl.
    pose proof (map_emplace_length fs p (open_readers_ st)). lia.
Qed.

Lemma ctor_budget (read_file_paths : list path) (max_open_files : Z) (st : ReadManager) :
  0 <= max_open_files < 2 ^ 32 ->
  ReadManager_ctor fs read_file_paths max_open_files = Ok tt st ->
  within_budget st /\ pool_sorted fs st.
Proof.
  unfold ReadManager_ctor, setup. intros Hmax.
  destruct (get_bad_paths fs _); [| done].
  rewrite setup_reader_samples_and_regions_eq.
  set (l := elements (closed_readers_ _)).
  set (st0 := member_init read_file_paths max_open_files).
  destruct (scan_readers_pool fs l st0) as (Hm & _ & Ho).
  destruct (open_initial_files fs _) as [st'|] eqn:E; [| done].
  intros [= <-]. split.
  - destruct (open_initial_files_defined fs (foldl (scan_reader fs) st0 l))
      as (st'' & Hst'' & Hb); [by rewrite Hm | by rewrite Ho |].
    rewrite E in Hst''. injection Hst'' as <-. split; [| done].
    apply open_readers_same_indexes in E as (-> & _). by rewrite Hm.
  - eapply open_readers_sorted; [| exact E]. unfold pool_sorted. by rewrite Ho.
Qed.

Lemma fetch_reads_budget (sample : SampleIdType) (region : GenomicRegion)
    (st st' : ReadManager) (reader_paths : list path) :
  within_budget st ->
  pool_sorted fs st ->
  reader_paths_containing_sample_ st !! sample = Some reader_paths ->
  Z.of_nat (length reader_paths) < 2 ^ 32 ->
  state_of (fetch_reads fs sample region st) = Some st' ->
  within_budget st' /\ pool_sorted fs st'.
Proof.
  intros Hb Hs Hl Hlen H.
  apply fetch_reads_state_inv in H as [-> | (l & o & u & x & Hl' & Hp & [-> | Ho])];
    [done | done |].
  rewrite Hl in Hl'. injection Hl' as <-.
  split.
  - eapply open_readers_budget; [| | exact Ho]; [done |].
    apply partition_readers_perm, Permutation_length in Hp.
    rewrite !length_app in Hp. lia.
  - by eapply open_readers_sorted; [| exact Ho].
Qed.
End Budget.

(** ** The budget at every point *)

Section BudgetThroughout.
Context {AlignedRead : Type} (fs : FileSystem AlignedRead).





End BudgetThroughout.


(** C10, where the code falls short: three files of sizes 1, 2 and 3 hold
    sample S, the budget is one reader, and construction opens the smallest
    file. A fetch for S hands the two candidates that are not open to
    [open_readers], which asks [close_readers] for two evictions with one
    reader open; after the first eviction the pool is empty and
    [choose_reader_to_close] has no first element to read. *)
Theorem fetch_evicts_from_empty_pool :
  ReadManager_ctor three_files ["a.bam"; "b.bam"; "c.bam"] 1 = Ok tt three_files_budget1
  /\ reader_paths_containing_sample_ three_files_budget1 !! "S"
    = Some ["c.bam"; "a.bam"; "b.bam"]
  /\ num_readers_to_close ["c.bam"; "b.bam"] three_files_budget1 = 2
  /\ length (open_readers_ three_files_budget1) = 1%nat
  /\ choose_reader_to_close three_files_budget1 = Some "a.bam"
  /\ choose_reader_to_close (close_reader three_files "a.bam" three_files_budget1) = None
  /\ close_readers three_files 2 three_files_budget1 = None
  /\ open_readers three_files ["c.bam"; "b.bam"] three_files_budget1 = None.
Proof. repeat split; vm_compute; reflexivity. Qed.

(** C6, where the code falls short: of three files, two have the same size
    and the budget is two readers. Construction asks for the two smallest
    files, but the pool takes files of equal size for the same key: the
    second [emplace] inserts nothing, one reader is open instead of two, and
    the file that was dropped is erased from the closed set all the same
    (which of the two files of equal size is kept depends on the order in
    which [std::nth_element] leaves them). *)
Theorem ctor_drops_file_of_equal_size :
  ReadManager_ctor tied_files ["a.bam"; "b.bam"; "c.bam"] 2 = Ok tt tied_files_budget2
  /\ num_files_to_open (member_init ["a.bam"; "b.bam"; "c.bam"] 2) = 2
  /\ length (open_readers_ tied_files_budget2) = 1%nat
  /\ elements (closed_readers_ tied_files_budget2) = ["c.bam"].
Proof. repeat split; vm_compute; reflexivity. Qed.

(** ** The initial pool *)

Section InitialPool.
Context {AlignedRead : Type} (fs : FileSystem AlignedRead).

#[local] Instance size_le_trans : Transitive (size_le fs).
Proof.
  intros a b c. unfold size_le. rewrite !file_size_compare_ge. lia.
Qed.

#[local] Instance size_le_total : Total (size_le fs).
Proof.
  intros a b. unfold size_le. rewrite !file_size_compare_ge. lia.
Qed.

Lemma std_nth_element_perm (l : list path) (nth : nat) : std_nth_element fs l nth ≡ₚ l.
Proof. apply merge_sort_Permutation. Qed.

(** Nothing from [nth] on is smaller than anything before [nth]. *)
Lemma std_nth_element_split (l : list path) (nth : nat) (x y : path) :
  x ∈ take nth (std_nth_element fs l nth) ->
  y ∈ drop nth (std_nth_element fs l nth) ->
  (fs_file_size fs x <= fs_file_size fs y)%N.
Proof.
  intros Hx Hy. apply file_size_compare_ge. change (size_le fs x y).
  eapply (StronglySorted_app_1_elem_of (size_le fs)); [| exact Hx | exact Hy].
  rewrite take_drop. apply (StronglySorted_merge_sort (size_le fs)).
Qed.

Lemma emplace_readers_closed (batch : list path) (st : ReadManager) :
  closed_readers_ (emplace_readers fs batch st) = closed_readers_ st ∖ list_to_set batch.
Proof.
  revert st. induction batch as [|p batch IH]; intros st; simpl.
  - apply set_eq. intros x. rewrite elem_of_difference, elem_of_empty. tauto.
  - rewrite IH. simpl. apply set_eq. intros x.
    rewrite !elem_of_difference, elem_of_union, elem_of_singleton. tauto.
Qed.

Lemma map_emplace_length_fresh (k : path) (m : list path) :
  (forall q, q ∈ m -> fs_file_size fs q <> fs_file_size fs k) ->
  length (map_emplace (file_size_compare fs) k m) = S (length m).
Proof.
  induction m as [|q m IH]; intros Hfresh; simpl; [done |].
  destruct (file_size_compare fs q k) eqn:Hqk; simpl.
  - rewrite IH; [done |]. intros x Hx. apply Hfresh. by right.
  - destruct (file_size_compare fs k q) eqn:Hkq; simpl; [done |].
    apply file_size_compare_ge in Hqk, Hkq.
    exfalso. apply (Hfresh q); [by left | lia].
Qed.

Lemma emplace_readers_length_fresh (batch : list path) (st : ReadManager) :
  NoDup (fs_file_size fs <$> batch) ->
  (forall q p, q ∈ open_readers_ st -> p ∈ batch -> fs_file_size fs q <> fs_file_size fs p) ->
  length (open_readers_ (emplace_readers fs batch st))
  = (length (open_readers_ st) + length batch)%nat.
Proof.
  revert st. induction batch as [|p batch IH]; intros st Hnd Hfresh; simpl; [lia |].
  rewrite fmap_cons in Hnd. apply NoDup_cons in Hnd as [Hp Hnd].
  rewrite IH; [| done |].
  - simpl. rewrite map_emplace_length_fresh; [lia |].
    intros q Hq. apply Hfresh; [done | by left].
  - simpl. intros q x Hq Hx. apply map_emplace_elem in Hq as [-> | Hq].
    + intros Heq. apply Hp. rewrite Heq. apply list_elem_of_fmap. by exists x.
    + apply Hfresh; [done | by right].
Qed.

Lemma open_readers_room (batch : list path) (st : ReadManager) :
  0 <= max_open_files_ st < 2 ^ 32 ->
  Z.of_nat (length (open_readers_ st)) + Z.of_nat (length batch) <= max_open_files_ st ->
  open_readers fs batch st = Some (emplace_readers fs batch st).
Proof.
  intros Hmax Hroom. unfold open_readers, num_readers_to_close, to_unsigned.
  rewrite (Z.mod_small (Z.of_nat (length (open_readers_ st)))) by lia.
  rewrite (Z.mod_small (max_open_files_ st - _)) by lia.
  rewrite (Z.mod_small (Z.of_nat (length batch))) by lia.
  destruct (Z.leb_spec (Z.of_nat (length batch))
              (max_open_files_ st - Z.of_nat (length (open_readers_ st)))); [done | lia].
Qed.

(** What construction opens when it completes: readers of files no larger
    than any file left closed; and, when no two files of the catalogue have
    the same size, exactly as many readers as the budget and the catalogue
    allow. *)
Lemma ctor_opens_smallest (read_file_paths : list path) (max_open_files : Z)
    (st : ReadManager) :
  0 <= max_open_files < 2 ^ 32 ->
  ReadManager_ctor fs read_file_paths max_open_files = Ok tt st ->
  (forall o c, o ∈ open_readers_ st -> c ∈ closed_readers_ st ->
     (fs_file_size fs o <= fs_file_size fs c)%N)
  /\ ((forall p q, p ∈ read_file_paths -> q ∈ read_file_paths ->
         fs_file_size fs p = fs_file_size fs q -> p = q) ->
      Z.of_nat (size (list_to_set read_file_paths : gset path)) < 2 ^ 32 ->
      Z.of_nat (length (open_readers_ st))
      = Z.min max_open_files (Z.of_nat (size (list_to_set read_file_paths : gset path)))).
Proof.
  unfold ReadManager_ctor, setup. intros Hmax.
  destruct (get_bad_paths fs _); [| done].
  rewrite setup_reader_samples_and_regions_eq.
  set (st0 := member_init read_file_paths max_open_files).
  set (l := elements (closed_readers_ st0)).
  destruct (scan_readers_pool fs l st0) as (Hm & Hc & Ho).
  unfold open_initial_files. rewrite Hc. fold l.
  set (st1 := foldl (scan_reader fs) st0 l) in *.
  set (n := Z.to_nat (num_files_to_open st1)).
  set (batch := take n (std_nth_element fs l n)).
  assert (Z.of_nat (length batch) <= max_open_files) as Hlen.
  { subst batch n. rewrite length_take. unfold num_files_to_open. rewrite Hm. simpl. lia. }
  rewrite open_readers_room; [| by rewrite Hm | rewrite Ho, Hm; simpl; lia].
  intros [= <-]. split.
  - intros o c Hopen Hclosed.
    apply emplace_readers_elem in Hopen as [Hopen | Hopen].
    { rewrite Ho in Hopen. simpl in Hopen. by apply not_elem_of_nil in Hopen. }
    rewrite emplace_readers_closed, Hc in Hclosed.
    apply elem_of_difference in Hclosed as [Hc1 Hc2].
    rewrite elem_of_list_to_set in Hc2.
    apply (std_nth_element_split l n); [done |].
    assert (c ∈ std_nth_element fs l n) as Hin.
    { rewrite std_nth_element_perm. subst l. by apply elem_of_elements. }
    rewrite <- (take_drop n (std_nth_element fs l n)) in Hin.
    apply elem_of_app in Hin as [Hin | Hin]; done.
  - intros Hinj Hsize.
    assert (NoDup batch) as Hnd.
    { subst batch. eapply sublist_NoDup; [| apply sublist_take].
      rewrite std_nth_element_perm. apply NoDup_elements. }
    rewrite emplace_readers_length_fresh.
    + rewrite Ho. simpl. subst batch n. rewrite length_take.
      rewrite (Permutation_length (std_nth_element_perm l _)).
      unfold num_files_to_open. rewrite Hm, Hc. simpl.
      change (size (list_to_set read_file_paths : gset path)) with (length l) in *.
      unfold to_unsigned. rewrite Z.mod_small by lia. lia.
    + assert (forall x, x ∈ batch -> x ∈ read_file_paths) as Hsub.
      { intros x Hx. apply (elem_of_sublist _ (std_nth_element fs l n)) in Hx;
          [| apply sublist_take].
        rewrite std_nth_element_perm in Hx. subst l.
        apply elem_of_elements in Hx. simpl in Hx. by rewrite elem_of_list_to_set in Hx. }
      apply NoDup_fmap_2_strong; [| done].
      intros x y Hx Hy. apply Hinj; by apply Hsub.
    + rewrite Ho. simpl. intros q p Hq. by apply not_elem_of_nil in Hq.
Qed.
End InitialPool.

(** * Further properties of the read manager *)

(** ** The sample index *)

Section SampleIndex.
Context {AlignedRead : Type} (fs : FileSystem AlignedRead).

(** What a completed construction went through. *)
Lemma ctor_Ok_inv (read_file_paths : list path) (max_open_files : Z) (st : ReadManager) :
  ReadManager_ctor fs read_file_paths max_open_files = Ok tt st ->
  (forall p, p ∈ read_file_paths -> fs_exists fs p = true)
  /\ open_initial_files fs
       (foldl (scan_reader fs) (member_init read_file_paths max_open_files)
          (elements (list_to_set read_file_paths : gset path))) = Some st.
Proof.
  unfold ReadManager_ctor, setup. intros H.
  destruct (get_bad_paths fs _) as [|b bad] eqn:E; [| done].
  rewrite setup_reader_samples_and_regions_eq in H.
  destruct (open_initial_files fs _) as [st'|] eqn:Ho; [| done].
  injection H as <-. split; [| done].
  intros p Hp. destruct (fs_exists fs p) eqn:Hex; [done |].
  assert (p ∈ get_bad_paths fs (member_init read_file_paths max_open_files)) as Hbad.
  { apply get_bad_paths_spec. simpl. by rewrite elem_of_list_to_set. }
  rewrite E in Hbad. by apply not_elem_of_nil in Hbad.
Qed.

Lemma add_reader_to_sample_map_elem (p x : path) (samples : list SampleIdType)
    (st : ReadManager) (s : SampleIdType) :
  x ∈ default [] (reader_paths_containing_sample_ (add_reader_to_sample_map p samples st) !! s)
  <-> x ∈ default [] (reader_paths_containing_sample_ st !! s) \/ (x = p /\ s ∈ samples).
Proof.
  unfold add_reader_to_sample_map. simpl.
  generalize (reader_paths_containing_sample_ st). clear st.
  induction samples as [|s' samples IH]; intros m; simpl.
  - rewrite elem_of_nil. tauto.
  - rewrite IH, elem_of_cons. destruct (decide (s' = s)) as [-> | Hne].
    + rewrite lookup_insert_eq. simpl. rewrite elem_of_app, list_elem_of_singleton.
      intuition congruence.
    + rewrite lookup_insert_ne by done. intuition congruence.
Qed.

Lemma add_reader_to_sample_map_key (p : path) (samples : list SampleIdType)
    (st : ReadManager) (s : SampleIdType) :
  is_Some (reader_paths_containing_sample_ (add_reader_to_sample_map p samples st) !! s)
  <-> is_Some (reader_paths_containing_sample_ st !! s) \/ s ∈ samples.
Proof.
  unfold add_reader_to_sample_map. simpl.
  generalize (reader_paths_containing_sample_ st). clear st.
  induction samples as [|s' samples IH]; intros m; simpl.
  - rewrite elem_of_nil. tauto.
  - rewrite IH, elem_of_cons. destruct (decide (s' = s)) as [-> | Hne].
    + rewrite lookup_insert_eq. split; [intuition congruence |]. intros _. left. by eexists.
    + rewrite lookup_insert_ne by done. intuition congruence.
Qed.

Lemma scan_readers_sample_elem (l : list path) (st : ReadManager) (s : SampleIdType)
    (x : path) :
  x ∈ default [] (reader_paths_containing_sample_ (foldl (scan_reader fs) st l) !! s)
  <-> x ∈ default [] (reader_paths_containing_sample_ st !! s)
      \/ (x ∈ l /\ s ∈ reader_samples fs x).
Proof.
  revert st. induction l as [|p l IH]; intros st; simpl.
  - rewrite elem_of_nil. tauto.
  - rewrite IH. unfold scan_reader. rewrite add_reader_to_sample_map_elem. simpl.
    rewrite elem_of_cons. split.
    + intros [[H | [-> H]] | H]; tauto.
    + intros [H | [[-> | H1] H2]]; tauto.
Qed.

Lemma scan_readers_sample_key (l : list path) (st : ReadManager) (s : SampleIdType) :
  is_Some (reader_paths_containing_sample_ (foldl (scan_reader fs) st l) !! s)
  <-> is_Some (reader_paths_containing_sample_ st !! s)
      \/ (exists x, x ∈ l /\ s ∈ reader_samples fs x).
Proof.
  revert st. induction l as [|p l IH]; intros st; simpl.
  - split; [tauto |]. intros [H | (x & Hx & _)]; [done |]. by apply not_elem_of_nil in Hx.
  - rewrite IH. unfold scan_reader. rewrite add_reader_to_sample_map_key. simpl.
    split.
    + intros [[H | H] | (x & Hx & Hs)]; [tauto | |].
      * right. exists p. split; [by left | done].
      * right. exists x. split; [by right | done].
    + intros [H | (x & Hx & Hs)]; [tauto |].
      apply elem_of_cons in Hx as [-> | Hx]; [tauto |]. right. by exists x.
Qed.

Lemma ctor_sample_index_spec (read_file_paths : list path) (max_open_files : Z)
    (st : ReadManager) :
  ReadManager_ctor fs read_file_paths max_open_files = Ok tt st ->
  (forall s p, p ∈ default [] (reader_paths_containing_sample_ st !! s)
     <-> p ∈ read_file_paths /\ s ∈ reader_samples fs p)
  /\ (forall s, reader_paths_containing_sample_ st !! s <> Some []).
Proof.
  intros H. apply ctor_Ok_inv in H as [_ Ho].
  apply open_readers_same_indexes in Ho as (_ & _ & -> & _).
  assert (forall s p,
            p ∈ default [] (reader_paths_containing_sample_
                              (foldl (scan_reader fs) (member_init read_file_paths max_open_files)
                                 (elements (list_to_set read_file_paths : gset path))) !! s)
            <-> p ∈ read_file_paths /\ s ∈ reader_samples fs p) as Hmem.
  { intros s p. rewrite scan_readers_sample_elem. simpl.
    rewrite lookup_empty, elem_of_elements, elem_of_list_to_set. simpl.
    rewrite elem_of_nil. tauto. }
  split; [exact Hmem |].
  intros s Hs.
  assert (is_Some (reader_paths_containing_sample_
                     (foldl (scan_reader fs) (member_init read_file_paths max_open_files)
                        (elements (list_to_set read_file_paths : gset path))) !! s)) as Hkey.
  { rewrite Hs. by eexists. }
  apply scan_readers_sample_key in Hkey as [[? Hk] | (x & Hx & Hsx)].
  - simpl in Hk. by rewrite lookup_empty in Hk.
  - assert (x ∈ default [] (reader_paths_containing_sample_
                              (foldl (scan_reader fs) (member_init read_file_paths max_open_files)
                                 (elements (list_to_set read_file_paths : gset path))) !! s))
      as Hin.
    { apply Hmem. split; [| done]. by rewrite elem_of_elements, elem_of_list_to_set in Hx. }
    rewrite Hs in Hin. simpl in Hin. by apply not_elem_of_nil in Hin.
Qed.




(** X1: after a completed construction the sample index lists a path under
    a sample exactly when the path is in the catalogue and its reader
    reports the sample; every key of the index has at least one path. *)
Theorem ctor_sample_index (read_file_paths : list path) (max_open_files : Z)
    (st : ReadManager) :
  ReadManager_ctor fs read_file_paths max_open_files = Ok tt st ->
  (forall s p, p ∈ default [] (reader_paths_containing_sample_ st !! s)
     <-> p ∈ read_file_paths /\ s ∈ reader_samples fs p)
  /\ (forall s, reader_paths_containing_sample_ st !! s <> Some []).
Proof. apply ctor_sample_index_spec. Qed.

(** X2: after a completed construction [get_samples] lists, each once, the
    samples that the reader of some catalogue file reports, and
    [num_samples] is the length of that list as an [unsigned]. *)
Theorem ctor_get_samples (read_file_paths : list path) (max_open_files : Z)
    (st : ReadManager) :
  ReadManager_ctor fs read_file_paths max_open_files = Ok tt st ->
  NoDup (get_samples st)
  /\ (forall s, s ∈ get_samples st
        <-> exists p, p ∈ read_file_paths /\ s ∈ reader_samples fs p)
  /\ num_samples st = to_unsigned (Z.of_nat (length (get_samples st))).
Proof.
  intros H. apply ctor_Ok_inv in H as [_ Ho].
  apply open_readers_same_indexes in Ho as (_ & _ & Hidx & _).
  unfold get_samples, num_samples. split; [apply NoDup_elements |]. split.
  - intros s. rewrite elem_of_elements, elem_of_dom, Hidx, scan_readers_sample_key. simpl.
    rewrite lookup_empty. split.
    + intros [[? ?] | (x & Hx & Hs)]; [done |].
      exists x. by rewrite elem_of_elements, elem_of_list_to_set in Hx.
    + intros (x & Hx & Hs). right. exists x.
      by rewrite elem_of_elements, elem_of_list_to_set.
  - rewrite <- size_dom. reflexivity.
Qed.

Lemma get_reader_paths_aux_spec (st : ReadManager) (samples : list SampleIdType)
    (acc result : gset path) :
  get_reader_paths_containing_samples_aux st samples acc = Some result ->
  (forall s, s ∈ samples -> is_Some (reader_paths_containing_sample_ st !! s))
  /\ (forall p, p ∈ result
        <-> p ∈ acc
            \/ exists s, s ∈ samples
                 /\ p ∈ default [] (reader_paths_containing_sample_ st !! s)).
Proof.
  revert acc. induction samples as [|s samples IH]; intros acc; simpl.
  - intros [= <-]. split.
    + intros s Hs. by apply not_elem_of_nil in Hs.
    + intros p. split; [tauto |]. intros [H | (s & Hs & _)]; [done |].
      by apply not_elem_of_nil in Hs.
  - destruct (reader_paths_containing_sample_ st !! s) as [l|] eqn:El; [| done].
    intros H. apply IH in H as [Hknown Hmem]. split.
    + intros s' Hs'. apply elem_of_cons in Hs' as [-> | Hs']; [by rewrite El | by apply Hknown].
    + intros p. rewrite Hmem, elem_of_union, elem_of_list_to_set. split.
      * intros [[H | H] | (s' & Hs' & Hp)]; [tauto | |].
        -- right. exists s. split; [by left |]. by rewrite El.
        -- right. exists s'. split; [by right | done].
      * intros [H | (s' & Hs' & Hp)]; [tauto |].
        apply elem_of_cons in Hs' as [-> | Hs'].
        -- rewrite El in Hp. tauto.
        -- right. by exists s'.
Qed.

(** X3: the paths a multi-sample fetch works on: every requested sample is
    a key of the sample index, no path occurs twice, and a path occurs
    exactly when the index lists it under one of the requested samples. *)
Theorem get_reader_paths_containing_samples_unique (st : ReadManager)
    (samples : list SampleIdType) (reader_paths : list path) :
  get_reader_paths_containing_samples st samples = Some reader_paths ->
  (forall s, s ∈ samples -> is_Some (reader_paths_containing_sample_ st !! s))
  /\ NoDup reader_paths
  /\ (forall p, p ∈ reader_paths
        <-> exists s, s ∈ samples
              /\ p ∈ default [] (reader_paths_containing_sample_ st !! s)).
Proof.
  unfold get_reader_paths_containing_samples.
  destruct (get_reader_paths_containing_samples_aux st samples ∅) as [result|] eqn:E; [| done].
  simpl. intros [= <-]. apply get_reader_paths_aux_spec in E as [Hknown Hmem].
  split; [done |]. split; [apply NoDup_elements |].
  intros p. rewrite elem_of_elements, Hmem, elem_of_empty. tauto.
Qed.
End SampleIndex.

Lemma ctor_sample_index_witness :
  (forall s p, p ∈ default [] (reader_paths_containing_sample_ mixed_files_budget2 !! s)
     <-> p ∈ ["a.bam"; "b.bam"; "c.bam"] /\ s ∈ reader_samples mixed_files p)
  /\ (forall s, reader_paths_containing_sample_ mixed_files_budget2 !! s <> Some []).
Proof.
  apply (ctor_sample_index mixed_files ["a.bam"; "b.bam"; "c.bam"] 2 mixed_files_budget2).
  vm_compute. reflexivity.
Defined.

Lemma ctor_get_samples_witness :
  NoDup (get_samples mixed_files_budget2)
  /\ (forall s, s ∈ get_samples mixed_files_budget2
        <-> exists p, p ∈ ["a.bam"; "b.bam"; "c.bam"] /\ s ∈ reader_samples mixed_files p)
  /\ num_samples mixed_files_budget2
     = to_unsigned (Z.of_nat (length (get_samples mixed_files_budget2))).
Proof.
  apply (ctor_get_samples mixed_files ["a.bam"; "b.bam"; "c.bam"] 2 mixed_files_budget2).
  vm_compute. reflexivity.
Defined.

Lemma get_reader_paths_containing_samples_unique_witness :
  (forall s, s ∈ ["S"; "T"; "S"] ->
     is_Some (reader_paths_containing_sample_ mixed_files_budget2 !! s))
  /\ NoDup ["c.bam"; "a.bam"; "b.bam"]
  /\ (forall p, p ∈ ["c.bam"; "a.bam"; "b.bam"]
        <-> exists s, s ∈ ["S"; "T"; "S"]
              /\ p ∈ default [] (reader_paths_containing_sample_ mixed_files_budget2 !! s)).
Proof.
  apply (get_reader_paths_containing_samples_unique mixed_files_budget2 ["S"; "T"; "S"]).
  vm_compute. reflexivity.
Defined.

(** ** What a fetch returns *)

Section FetchBehaviour.
Context {AlignedRead : Type} (fs : FileSystem AlignedRead).

Lemma append_sample_reads_open (st : ReadManager) (sample : SampleIdType)
    (region : GenomicRegion) (l : list path) (acc : list AlignedRead) :
  (forall p, p ∈ l -> is_open fs st p = true) ->
  is_Some (append_sample_reads fs st sample region l acc).
Proof.
  revert acc. induction l as [|p l IH]; intros acc H; simpl; [by eexists |].
  unfold reader_at. destruct (proj1 (is_open_find fs st p)) as [q ->]; [apply H; by left |].
  apply IH. intros x Hx. apply H. by right.
Qed.

Lemma get_reader_paths_aux_defined (st : ReadManager) (samples : list SampleIdType)
    (acc : gset path) :
  (forall s, s ∈ samples -> is_Some (reader_paths_containing_sample_ st !! s)) ->
  is_Some (get_reader_paths_containing_samples_aux st samples acc).
Proof.
  revert acc. induction samples as [|s samples IH]; intros acc H; simpl; [by eexists |].
  destruct (H s) as [l ->]; [by left |]. apply IH. intros s' Hs'. apply H. by right.
Qed.

Lemma get_reader_paths_of_known_samples (st : ReadManager) (samples : list SampleIdType) :
  (forall s, s ∈ samples -> is_Some (reader_paths_containing_sample_ st !! s)) ->
  is_Some (get_reader_paths_containing_samples st samples).
Proof.
  intros Hknown. unfold get_reader_paths_containing_samples.
  destruct (get_reader_paths_aux_defined st samples ∅ Hknown) as [paths ->]. by eexists.
Qed.

(** The multi-sample fetch on paths it found: it completes when the
    candidates it has to open are no more than the budget, and is undefined
    otherwise. *)
Lemma fetch_reads_samples_outcome (samples : list SampleIdType) (region : GenomicRegion)
    (st : ReadManager) (reader_paths opened unopened others : list path) :
  within_budget st ->
  get_reader_paths_containing_samples st samples = Some reader_paths ->
  partition_readers fs st region reader_paths = (opened, unopened, others) ->
  Z.of_nat (length unopened) < 2 ^ 32 ->
  if decide (Z.of_nat (length unopened) <= max_open_files_ st)
  then exists r st',
         fetch_reads_samples fs samples region st = Ok r st'
         /\ within_budget st'
         /\ (forall p, p ∈ unopened -> is_open fs st' p = true)
  else fetch_reads_samples fs samples region st = Undefined.
Proof.
  intros [Hmax Hb] Hl Hp Hlen. unfold fetch_reads_samples. rewrite Hl, Hp.
  destruct (partition_readers_spec fs st region _ _ _ _ Hp) as (Ho & Hu & _).
  destruct (append_all_reads_defined fs st region opened ∅) as [r1 ->].
  { intros p Hin. by apply (Ho p). }
  destruct (decide (Z.of_nat (length unopened) <= max_open_files_ st)) as [Hfit | Hover].
  - destruct (open_readers_within_budget fs unopened st) as (st2 & Hopen & Hb2); [done.. |].
    rewrite Hopen.
    assert (forall p, p ∈ unopened -> is_open fs st2 p = true) as Hopened.
    { intros p Hin. by eapply open_readers_is_open. }
    destruct (append_all_reads_defined fs st2 region unopened r1 Hopened) as [r2 ->].
    exists r2, st2. split; [done |]. split; [| done]. split; [| done].
    by destruct (open_readers_same_indexes fs _ _ _ Hopen) as (-> & _).
  - by rewrite open_readers_beyond_budget by (done || lia).
Qed.

(** X4: in a manager within its budget a single-sample fetch for a sample
    the index knows ends in no exception of its own: every reader it asks
    through [at] is in the pool when it is asked. It completes when the
    candidates it has to open are no more than the budget, and is undefined
    when they are more (the eviction from an empty pool of C10). *)
Theorem fetch_reads_known_sample_outcome (sample : SampleIdType) (region : GenomicRegion)
    (st : ReadManager) (reader_paths opened unopened others : list path) :
  within_budget st ->
  reader_paths_containing_sample_ st !! sample = Some reader_paths ->
  partition_readers fs st region reader_paths = (opened, unopened, others) ->
  Z.of_nat (length unopened) < 2 ^ 32 ->
  if decide (Z.of_nat (length unopened) <= max_open_files_ st)
  then exists r st', fetch_reads fs sample region st = Ok r st'
  else fetch_reads fs sample region st = Undefined.
Proof.
  intros [Hmax Hb] Hl Hp Hlen. unfold fetch_reads. rewrite Hl, Hp.
  destruct (partition_readers_spec fs st region _ _ _ _ Hp) as (Ho & Hu & _).
  set (st1 := set_sample_map _ st).
  destruct (append_sample_reads_open st1 sample region opened []) as [r1 ->].
  { intros p Hin. by apply (Ho p). }
  destruct (decide (Z.of_nat (length unopened) <= max_open_files_ st)) as [Hfit | Hover].
  - destruct (open_readers_within_budget fs unopened st1) as (st2 & Hopen & Hb2); [done.. |].
    rewrite Hopen.
    destruct (append_sample_reads_open st2 sample region unopened r1) as [r2 ->].
    { intros p Hin. by eapply open_readers_is_open. }
    by exists r2, st2.
  - by rewrite open_readers_beyond_budget by (done || (simpl; lia)).
Qed.

(** X5: the fetch of all samples asks for the keys of the sample index, so
    it finds the paths of every sample it asks for. In a manager within its
    budget it completes when the candidates it has to open are no more than
    the budget, keeps the budget and leaves each of them open; it is
    undefined when they are more. *)
Theorem fetch_reads_region_outcome (region : GenomicRegion) (st : ReadManager) :
  within_budget st ->
  exists reader_paths,
    get_reader_paths_containing_samples st (get_samples st) = Some reader_paths
    /\ forall opened unopened others,
         partition_readers fs st region reader_paths = (opened, unopened, others) ->
         Z.of_nat (length unopened) < 2 ^ 32 ->
         if decide (Z.of_nat (length unopened) <= max_open_files_ st)
         then exists r st',
                fetch_reads_region fs region st = Ok r st'
                /\ within_budget st'
                /\ (forall p, p ∈ unopened -> is_open fs st' p = true)
         else fetch_reads_region fs region st = Undefined.
Proof.
  intros Hb.
  destruct (get_reader_paths_of_known_samples st (get_samples st)) as [reader_paths Hl].
  { intros s Hs. unfold get_samples in Hs. by rewrite elem_of_elements, elem_of_dom in Hs. }
  exists reader_paths. split; [done |]. intros opened unopened others Hp Hlen.
  by apply (fetch_reads_samples_outcome (get_samples st) region st reader_paths
              opened unopened others).
Qed.

(** X6: a single-sample fetch whose candidates that are not open are no
    more than the budget completes; afterwards the pool is within the
    budget and each of those candidates is open. *)
Theorem fetch_reads_completes (sample : SampleIdType) (region : GenomicRegion)
    (st : ReadManager) (reader_paths opened unopened others : list path) :
  within_budget st ->
  reader_paths_containing_sample_ st !! sample = Some reader_paths ->
  partition_readers fs st region reader_paths = (opened, unopened, others) ->
  Z.of_nat (length unopened) <= max_open_files_ st ->
  exists r st',
    fetch_reads fs sample region st = Ok r st'
    /\ within_budget st'
    /\ (forall p, p ∈ unopened -> is_open fs st' p = true).
Proof.
  intros [Hmax Hb] Hl Hp Hfit. unfold fetch_reads. rewrite Hl, Hp.
  destruct (partition_readers_spec fs st region _ _ _ _ Hp) as (Ho & Hu & _).
  set (st1 := set_sample_map _ st).
  destruct (append_sample_reads_open st1 sample region opened []) as [r1 ->].
  { intros p Hin. by apply (Ho p). }
  destruct (open_readers_within_budget fs unopened st1) as (st2 & Hopen & Hb2); [done.. |].
  rewrite Hopen.
  assert (forall p, p ∈ unopened -> is_open fs st2 p = true) as Hopened.
  { intros p Hin. by eapply open_readers_is_open. }
  destruct (append_sample_reads_open st2 sample region unopened r1 Hopened) as [r2 ->].
  exists r2, st2. split; [done |]. split; [| done]. split; [| done].
  by destruct (open_readers_same_indexes fs _ _ _ Hopen) as (-> & _).
Qed.

(** X7: a fetch for a known sample none of whose files passes the region
    filter returns the empty sequence and leaves the manager as it was. *)
Theorem fetch_reads_no_candidates (sample : SampleIdType) (region : GenomicRegion)
    (st : ReadManager) (reader_paths : list path) :
  reader_paths_containing_sample_ st !! sample = Some reader_paths ->
  (forall p, p ∈ reader_paths -> could_reader_contain_region st p region = false) ->
  fetch_reads fs sample region st = Ok [] st.
Proof.
  intros Hl Hnone. unfold fetch_reads. rewrite Hl.
  pose proof (partition_readers_settled fs st region [] reader_paths) as Hp.
  simpl in Hp. rewrite Hp; [| intros p Hin; by apply not_elem_of_nil in Hin | done].
  simpl. rewrite insert_id by done.
  replace (set_sample_map (reader_paths_containing_sample_ st) st) with st by (by destruct st).
  by rewrite open_readers_nil.
Qed.

(** X8: no fetch, whatever its outcome, changes the region index, the
    budget or the file count; the region filter answers the same before and
    after. *)
Theorem fetch_keeps_region_index (sample : SampleIdType) (samples : list SampleIdType)
    (region : GenomicRegion) (st st' : ReadManager) :
  state_of (fetch_reads fs sample region st) = Some st'
  \/ state_of (fetch_reads_samples fs samples region st) = Some st' ->
  possible_regions_in_readers_ st' = possible_regions_in_readers_ st
  /\ max_open_files_ st' = max_open_files_ st
  /\ num_files_ st' = num_files_ st
  /\ (forall p r, could_reader_contain_region st' p r = could_reader_contain_region st p r).
Proof.
  intros H.
  assert (possible_regions_in_readers_ st' = possible_regions_in_readers_ st
          /\ max_open_files_ st' = max_open_files_ st
          /\ num_files_ st' = num_files_ st) as (Hr & Hm & Hn).
  { destruct H as [H | H].
    - apply fetch_reads_state_inv in H as [-> | (l & o & u & x & _ & _ & [-> | Ho])];
        [done | done |].
      by apply open_readers_same_indexes in Ho as (? & ? & _ & ?).
    - apply fetch_reads_samples_state_inv in H as [-> | (l & o & u & x & _ & _ & Ho)];
        [done |].
      by apply open_readers_same_indexes in Ho as (? & ? & _ & ?). }
  repeat split; try done. intros p r. by apply could_reader_contain_region_same.
Qed.

Lemma map_find_Some (k q : path) (m : list path) :
  map_find (file_size_compare fs) k m = Some q ->
  q ∈ m /\ fs_file_size fs q = fs_file_size fs k.
Proof.
  induction m as [|x m IH]; simpl; [done |].
  destruct (file_size_compare fs x k) eqn:Hxk.
  - intros H. apply IH in H as [H1 H2]. split; [by right | done].
  - destruct (file_size_compare fs k x) eqn:Hkx; [done |]. intros [= <-].
    apply file_size_compare_ge in Hxk, Hkx. split; [by left | lia].
Qed.

Lemma append_sample_reads_exact (st : ReadManager) (sample : SampleIdType)
    (region : GenomicRegion) (l : list path) (acc r : list AlignedRead) :
  (forall p q, p ∈ l -> q ∈ open_readers_ st ->
     fs_file_size fs q = fs_file_size fs p -> q = p) ->
  append_sample_reads fs st sample region l acc = Some r ->
  r = acc ++ concat (reads_of fs sample region <$> l).
Proof.
  revert acc. induction l as [|p l IH]; intros acc Hinj; simpl.
  - intros [= <-]. by rewrite app_nil_r.
  - unfold reader_at. destruct (map_find _ p _) as [q|] eqn:Hq; [| done].
    apply map_find_Some in Hq as [Hin Hsize].
    rewrite (Hinj p q) by (done || by left).
    intros H. apply IH in H; [| intros x y Hx; apply Hinj; by right].
    rewrite H. unfold reads_of. by rewrite <- app_assoc.
Qed.

(** X9: when no two files among the pool and the files of the sample have
    the same size, a completed single-sample fetch returns the reads of the
    files of the sample that pass the region filter, each file as often as
    the sample lists it, file by file: first the files that were open, then
    the files it opened. In which order the files of either group come is
    left to [std::partition]. *)
Theorem fetch_reads_result (sample : SampleIdType) (region : GenomicRegion)
    (st st' : ReadManager) (reader_paths : list path) (r : list AlignedRead) :
  reader_paths_containing_sample_ st !! sample = Some reader_paths ->
  distinct_sizes fs (fun p => p ∈ open_readers_ st \/ p ∈ reader_paths) ->
  fetch_reads fs sample region st = Ok r st' ->
  exists opened unopened,
    r = concat (reads_of fs sample region <$> (opened ++ unopened))
    /\ opened ++ unopened
       ≡ₚ List.filter (fun p => could_reader_contain_region st p region) reader_paths
    /\ (forall p, p ∈ opened -> is_open fs st p = true)
    /\ (forall p, p ∈ unopened -> is_open fs st p = false).
Proof.
  intros Hl Hinj Hfetch.
  apply fetch_reads_Ok_inv in Hfetch as (l & o & u & x & r1 & Hl' & Hp & Ho & Hr1 & Hr2).
  rewrite Hl in Hl'. injection Hl' as <-.
  destruct (partition_readers_spec fs st region _ _ _ _ Hp) as (Hopened & Hunopened & _).
  exists o, u. split; [| split; [| split]].
  - apply append_sample_reads_exact in Hr1.
    + apply append_sample_reads_exact in Hr2.
      * rewrite Hr2, Hr1. simpl. by rewrite fmap_app, concat_app.
      * intros p q Hpu Hq Hsize. apply Hinj; [| right; by apply Hunopened | done].
        apply (open_readers_elem fs _ _ _ q Ho) in Hq as [Hq | Hq]; [by left |].
        right. by apply Hunopened.
    + intros p q Hpo Hq Hsize. apply Hinj; [by left | right; by apply Hopened | done].
  - rewrite partition_readers_eq in Hp. injection Hp as <- <- _.
    apply (std_partition_perm (is_open fs st)).
  - intros p Hin. by apply Hopened.
  - intros p Hin. by apply Hunopened.
Qed.
End FetchBehaviour.

Lemma fetch_reads_known_sample_outcome_witness :
  (exists r st', fetch_reads mixed_files "S" (chr1 0 50) mixed_files_budget2 = Ok r st')
  /\ fetch_reads three_files "S" (chr1 0 50) three_files_budget1 = Undefined.
Proof.
  split.
  - pose proof (fetch_reads_known_sample_outcome mixed_files "S" (chr1 0 50)
                  mixed_files_budget2 ["c.bam"; "b.bam"] ["b.bam"] ["c.bam"] []) as H.
    destruct (decide (Z.of_nat (length ["c.bam"]) <= max_open_files_ mixed_files_budget2))
      as [_ | Hover].
    + apply H.
      * split; [split |]; vm_compute; first [reflexivity | discriminate].
      * vm_compute. reflexivity.
      * vm_compute. reflexivity.
      * vm_compute. reflexivity.
    + destruct Hover. vm_compute. discriminate.
  - pose proof (fetch_reads_known_sample_outcome three_files "S" (chr1 0 50)
                  three_files_budget1 ["c.bam"; "a.bam"; "b.bam"] ["a.bam"]
                  ["c.bam"; "b.bam"] []) as H.
    destruct (decide (Z.of_nat (length ["c.bam"; "b.bam"])
                      <= max_open_files_ three_files_budget1)) as [Hfit | _].
    + vm_compute in Hfit. by destruct Hfit.
    + apply H.
      * split; [split |]; vm_compute; first [reflexivity | discriminate].
      * vm_compute. reflexivity.
      * vm_compute. reflexivity.
      * vm_compute. reflexivity.
Defined.

Lemma fetch_reads_region_outcome_witness :
  (exists r st',
     fetch_reads_region mixed_files (chr1 0 50) mixed_files_budget2 = Ok r st'
     /\ within_budget st'
     /\ (forall p, p ∈ ["c.bam"] -> is_open mixed_files st' p = true))
  /\ fetch_reads_region three_files (chr1 0 50) three_files_budget1 = Undefined.
Proof.
  split.
  - destruct (fetch_reads_region_outcome mixed_files (chr1 0 50) mixed_files_budget2)
      as (paths & Hpaths & Hout).
    { split; [split |]; vm_compute; first [reflexivity | discriminate]. }
    vm_compute in Hpaths. injection Hpaths as <-.
    specialize (Hout ["a.bam"; "b.bam"] ["c.bam"] []).
    destruct (decide (Z.of_nat (length ["c.bam"]) <= max_open_files_ mixed_files_budget2))
      as [_ | Hover].
    + apply Hout; vm_compute; reflexivity.
    + destruct Hover. vm_compute. discriminate.
  - destruct (fetch_reads_region_outcome three_files (chr1 0 50) three_files_budget1)
      as (paths & Hpaths & Hout).
    { split; [split |]; vm_compute; first [reflexivity | discriminate]. }
    vm_compute in Hpaths. injection Hpaths as <-.
    specialize (Hout ["a.bam"] ["c.bam"; "b.bam"] []).
    destruct (decide (Z.of_nat (length ["c.bam"; "b.bam"])
                      <= max_open_files_ three_files_budget1)) as [Hfit | _].
    + vm_compute in Hfit. by destruct Hfit.
    + apply Hout; vm_compute; reflexivity.
Defined.

Lemma fetch_reads_completes_witness :
  exists r st',
    fetch_reads mixed_files "S" (chr1 0 50) mixed_files_budget2 = Ok r st'
    /\ within_budget st'
    /\ (forall p, p ∈ ["c.bam"] -> is_open mixed_files st' p = true).
Proof.
  apply (fetch_reads_completes mixed_files "S" (chr1 0 50) mixed_files_budget2
           ["c.bam"; "b.bam"] ["b.bam"] ["c.bam"] []).
  - split; [split |]; vm_compute; first [reflexivity | discriminate].
  - vm_compute. reflexivity.
  - vm_compute. reflexivity.
  - vm_compute. discriminate.
Defined.

Lemma fetch_reads_no_candidates_witness :
  fetch_reads split_files "S" (chr1 20 30) split_files_budget2 = Ok [] split_files_budget2.
Proof.
  apply (fetch_reads_no_candidates split_files "S" (chr1 20 30) split_files_budget2
           ["a.bam"; "b.bam"]).
  - vm_compute. reflexivity.
  - intros p Hp. apply list_elem_of_In in Hp. simpl in Hp.
    destruct Hp as [<- | [<- | []]]; vm_compute; reflexivity.
Defined.

Lemma fetch_keeps_region_index_witness :
  possible_regions_in_readers_
    (default empty_manager
       (state_of (fetch_reads two_files "S" (chr1 0 50) two_files_budget1)))
  = possible_regions_in_readers_ two_files_budget1
  /\ max_open_files_
       (default empty_manager
          (state_of (fetch_reads two_files "S" (chr1 0 50) two_files_budget1)))
     = max_open_files_ two_files_budget1
  /\ num_files_
       (default empty_manager
          (state_of (fetch_reads two_files "S" (chr1 0 50) two_files_budget1)))
     = num_files_ two_files_budget1
  /\ (forall p r,
        could_reader_contain_region
          (default empty_manager
             (state_of (fetch_reads two_files "S" (chr1 0 50) two_files_budget1))) p r
        = could_reader_contain_region two_files_budget1 p r).
Proof.
  apply (fetch_keeps_region_index two_files "S" [] (chr1 0 50) two_files_budget1).
  left. vm_compute. reflexivity.
Defined.

Lemma fetch_reads_result_witness :
  exists opened unopened,
    ["b1"; "c1"] = concat (reads_of mixed_files "S" (chr1 0 50) <$> (opened ++ unopened))
    /\ opened ++ unopened
       ≡ₚ List.filter
            (fun p => could_reader_contain_region mixed_files_budget2 p (chr1 0 50))
            ["c.bam"; "b.bam"]
    /\ (forall p, p ∈ opened -> is_open mixed_files mixed_files_budget2 p = true)
    /\ (forall p, p ∈ unopened -> is_open mixed_files mixed_files_budget2 p = false).
Proof.
  apply (fetch_reads_result mixed_files "S" (chr1 0 50) mixed_files_budget2
           (default empty_manager
              (state_of (fetch_reads mixed_files "S" (chr1 0 50) mixed_files_budget2)))
           ["c.bam"; "b.bam"] ["b1"; "c1"]).
  - vm_compute. reflexivity.
  - assert (forall x,
              x ∈ open_readers_ mixed_files_budget2 \/ x ∈ ["c.bam"; "b.bam"] ->
              x = "a.bam" \/ x = "b.bam" \/ x = "c.bam") as Hcases.
    { intros x [H | H]; apply list_elem_of_In in H; vm_compute in H;
        intuition congruence. }
    intros p q Hp Hq.
    destruct (Hcases p Hp) as [-> | [-> | ->]], (Hcases q Hq) as [-> | [-> | ->]];
      intros Hs; first [reflexivity | (vm_compute in Hs; discriminate)].
  - vm_compute. reflexivity.
Defined.

(** ** Opening and closing *)

Section OpenClose.
Context {AlignedRead : Type} (fs : FileSystem AlignedRead).

Lemma map_emplace_keeps (k x : path) (m : list path) :
  x ∈ m -> x ∈ map_emplace (file_size_compare fs) k m.
Proof.
  induction m as [|q m IH]; simpl; [by intros ?%not_elem_of_nil |].
  destruct (file_size_compare fs q k).
  - rewrite !elem_of_cons. tauto.
  - destruct (file_size_compare fs k q); rewrite !elem_of_cons; tauto.
Qed.

Lemma emplace_readers_keeps (batch : list path) (st : ReadManager) (x : path) :
  x ∈ open_readers_ st -> x ∈ open_readers_ (emplace_readers fs batch st).
Proof.
  revert st. induction batch as [|p batch IH]; intros st H; simpl; [done |].
  apply IH. simpl. by apply map_emplace_keeps.
Qed.

Lemma map_erase_emplace (k : path) (m : list path) :
  map_find (file_size_compare fs) k m = None ->
  map_erase (file_size_compare fs) k (map_emplace (file_size_compare fs) k m) = m.
Proof.
  induction m as [|q m IH]; simpl.
  - by rewrite file_size_compare_irrefl.
  - destruct (file_size_compare fs q k) eqn:Hqk; simpl.
    + rewrite Hqk. intros H. by rewrite IH.
    + destruct (file_size_compare fs k q) eqn:Hkq; simpl; [| done].
      by rewrite file_size_compare_irrefl.
Qed.

Lemma map_find_erase (k : path) (m : list path) :
  StronglySorted (size_lt fs) m ->
  map_find (file_size_compare fs) k (map_erase (file_size_compare fs) k m) = None.
Proof.
  induction 1 as [|q m Hm IH Hall]; simpl; [done |].
  destruct (file_size_compare fs q k) eqn:Hqk; simpl.
  - by rewrite Hqk.
  - destruct (file_size_compare fs k q) eqn:Hkq; simpl.
    + by rewrite Hqk, Hkq.
    + destruct m as [|x m]; simpl; [done |].
      apply Forall_cons in Hall as [Hx _]. unfold size_lt in Hx.
      apply file_size_compare_ge in Hqk, Hkq.
      assert (file_size_compare fs x k = false) as -> by (apply file_size_compare_ge; lia).
      assert (file_size_compare fs k x = true) as ->; [| done].
      apply file_size_compare_lt. unfold size_lt. lia.
Qed.

(** X10: admitting a path that was not open and closing it again gives the
    pool back as it was: the path is open in between, not open afterwards,
    and ends in the closed set. *)
Theorem close_reader_undoes_emplace (p : path) (st : ReadManager) :
  pool_sorted fs st ->
  is_open fs st p = false ->
  is_open fs (emplace_reader fs p st) p = true
  /\ open_readers_ (close_reader fs p (emplace_reader fs p st)) = open_readers_ st
  /\ is_open fs (close_reader fs p (emplace_reader fs p st)) p = false
  /\ p ∈ closed_readers_ (close_reader fs p (emplace_reader fs p st)).
Proof.
  intros Hs Hclosed.
  assert (map_find (file_size_compare fs) p (open_readers_ st) = None) as Hnone.
  { destruct (map_find _ p _) eqn:E; [| done].
    assert (is_open fs st p = true) by (apply is_open_find; rewrite E; by eexists).
    congruence. }
  split; [| split; [| split]].
  - apply is_open_find. simpl. apply map_find_emplace_self.
  - simpl. by apply map_erase_emplace.
  - destruct (is_open fs (close_reader fs p (emplace_reader fs p st)) p) eqn:E; [| done].
    apply is_open_find in E as [q Hq]. simpl in Hq.
    rewrite map_find_erase in Hq; [done |].
    apply map_emplace_sorted. by apply map_sorted_strongly.
  - simpl. apply elem_of_union_r. by apply elem_of_singleton.
Qed.

(** X11: with a positive budget, [open_reader] on a manager within its
    budget succeeds without touching an empty pool, leaves the pool within
    the budget, and the path it was given is open and no longer closed. *)
Theorem open_reader_admits (p : path) (st : ReadManager) :
  within_budget st ->
  0 < max_open_files_ st ->
  exists st',
    open_reader fs p st = Some st'
    /\ within_budget st'
    /\ is_open fs st' p = true
    /\ p ∉ closed_readers_ st'.
Proof.
  intros Hb Hpos.
  assert (exists st', open_reader fs p st = Some st') as [st' Hopen].
  { unfold open_reader, choose_reader_to_close.
    destruct (Z.eqb_spec (Z.of_nat (length (open_readers_ st))) (max_open_files_ st));
      [| by eexists].
    destruct (open_readers_ st) as [|v m]; [simpl in *; lia | by eexists]. }
  exists st'. split; [done |]. split; [by eapply open_reader_budget |].
  unfold open_reader in Hopen.
  destruct (Z.of_nat (length (open_readers_ st)) =? max_open_files_ st).
  - destruct (choose_reader_to_close st) as [v|]; [| done]. injection Hopen as <-.
    split.
    + apply is_open_find. simpl. apply map_find_emplace_self.
    + simpl. rewrite elem_of_difference, elem_of_singleton. tauto.
  - injection Hopen as <-. split.
    + apply is_open_find. simpl. apply map_find_emplace_self.
    + simpl. rewrite elem_of_difference, elem_of_singleton. tauto.
Qed.

(** X12: on a manager within its budget, the batch admission completes
    exactly when the batch is no larger than the budget; a larger batch
    makes it evict from an empty pool. *)
Theorem open_readers_defined_iff (batch : list path) (st : ReadManager) :
  within_budget st ->
  Z.of_nat (length batch) < 2 ^ 32 ->
  is_Some (open_readers fs batch st) <-> Z.of_nat (length batch) <= max_open_files_ st.
Proof.
  intros [Hmax Hb] Hlen. split.
  - intros [st' Ho].
    destruct (Z.le_gt_cases (Z.of_nat (length batch)) (max_open_files_ st)); [done |].
    rewrite open_readers_beyond_budget in Ho by (done || lia). done.
  - intros Hfit.
    destruct (open_readers_within_budget fs batch st Hmax Hb Hfit) as (st' & -> & _).
    by eexists.
Qed.
End OpenClose.

Lemma close_reader_undoes_emplace_witness :
  is_open two_files (emplace_reader two_files "b.bam" two_files_budget1) "b.bam" = true
  /\ open_readers_ (close_reader two_files "b.bam"
                      (emplace_reader two_files "b.bam" two_files_budget1))
     = open_readers_ two_files_budget1
  /\ is_open two_files (close_reader two_files "b.bam"
                          (emplace_reader two_files "b.bam" two_files_budget1)) "b.bam"
     = false
  /\ "b.bam" ∈ closed_readers_ (close_reader two_files "b.bam"
                                  (emplace_reader two_files "b.bam" two_files_budget1)).
Proof.
  apply (close_reader_undoes_emplace two_files "b.bam" two_files_budget1).
  - vm_compute. reflexivity.
  - vm_compute. reflexivity.
Defined.

Lemma open_reader_admits_witness :
  exists st',
    open_reader two_files "b.bam" two_files_budget1 = Some st'
    /\ within_budget st'
    /\ is_open two_files st' "b.bam" = true
    /\ "b.bam" ∉ closed_readers_ st'.
Proof.
  apply (open_reader_admits two_files "b.bam" two_files_budget1).
  - split; [split |]; vm_compute; first [reflexivity | discriminate].
  - vm_compute. reflexivity.
Defined.

Lemma open_readers_defined_iff_witness :
  is_Some (open_readers three_files ["c.bam"; "b.bam"] three_files_budget1)
  <-> Z.of_nat (length ["c.bam"; "b.bam"]) <= max_open_files_ three_files_budget1.
Proof.
  apply (open_readers_defined_iff three_files ["c.bam"; "b.bam"] three_files_budget1).
  - split; [split |]; vm_compute; first [reflexivity | discriminate].
  - vm_compute. reflexivity.
Defined.

(** ** Invariants of the manager *)

Section Invariants.
Context {AlignedRead : Type} (fs : FileSystem AlignedRead).

Lemma close_readers_disjoint (n : nat) (st st' : ReadManager) :
  pool_sorted fs st -> pool_disjoint st ->
  close_readers fs n st = Some st' -> pool_disjoint st'.
Proof.
  revert st. induction n as [|n IH]; intros st Hs Hd; simpl.
  - by intros [= <-].
  - unfold choose_reader_to_close.
    destruct (open_readers_ st) as [|v m] eqn:E; simpl; [done |].
    assert (open_readers_ (close_reader fs v st) = m) as Hm.
    { simpl. rewrite E. simpl. by rewrite file_size_compare_irrefl. }
    apply IH.
    + unfold pool_sorted in *. rewrite Hm. rewrite E in Hs.
      apply map_sorted_strongly. apply map_sorted_strongly in Hs.
      by apply StronglySorted_inv in Hs as [? _].
    + intros p Hp. rewrite Hm in Hp. simpl.
      rewrite elem_of_union, elem_of_singleton. intros [Hc | ->].
      * apply (Hd p); [| done]. rewrite E. by right.
      * unfold pool_sorted in Hs. rewrite E in Hs. apply map_sorted_strongly in Hs.
        apply StronglySorted_inv in Hs as [_ Hall].
        eapply Forall_forall in Hall; [| exact Hp]. unfold size_lt in Hall. lia.
Qed.

Lemma emplace_readers_disjoint (batch : list path) (st : ReadManager) :
  pool_disjoint st -> pool_disjoint (emplace_readers fs batch st).
Proof.
  revert st. induction batch as [|p batch IH]; intros st Hd; simpl; [done |].
  apply IH. intros x Hx. simpl in *.
  rewrite elem_of_difference, elem_of_singleton.
  apply map_emplace_elem in Hx as [-> | Hx]; [tauto |].
  intros [Hc _]. by apply (Hd x).
Qed.

Lemma open_readers_disjoint (batch : list path) (st st' : ReadManager) :
  pool_sorted fs st -> pool_disjoint st ->
  open_readers fs batch st = Some st' -> pool_disjoint st'.
Proof.
  unfold open_readers. intros Hs Hd.
  destruct (close_readers fs _ st) as [st1|] eqn:E; [| done].
  intros [= <-]. apply emplace_readers_disjoint. by eapply close_readers_disjoint.
Qed.

(** X13: a completed construction (with an [unsigned] budget) leaves the
    pool within the budget, ordered strictly by file size, and disjoint
    from the closed set. *)
Theorem ctor_invariants (read_file_paths : list path) (max_open_files : Z)
    (st : ReadManager) :
  0 <= max_open_files < 2 ^ 32 ->
  ReadManager_ctor fs read_file_paths max_open_files = Ok tt st ->
  within_budget st /\ pool_sorted fs st /\ pool_disjoint st.
Proof.
  intros Hmax Hctor.
  destruct (ctor_budget fs read_file_paths max_open_files st Hmax Hctor) as [Hb Hs].
  split; [done |]. split; [done |].
  apply ctor_Ok_inv in Hctor as [_ Ho]. unfold open_initial_files in Ho.
  destruct (scan_readers_pool fs (elements (list_to_set read_file_paths : gset path))
              (member_init read_file_paths max_open_files)) as (_ & _ & Hopen).
  eapply open_readers_disjoint; [| | exact Ho].
  - unfold pool_sorted. by rewrite Hopen.
  - intros p Hp. rewrite Hopen in Hp. simpl in Hp. by apply not_elem_of_nil in Hp.
Qed.

(** X14: every fetch that leaves a manager behind keeps these three
    invariants, for the single-sample and the multi-sample overload (the
    number of paths it works on being an [unsigned] value). *)
Theorem fetch_invariants (sample : SampleIdType) (samples : list SampleIdType)
    (region : GenomicRegion) (st st' : ReadManager) :
  within_budget st -> pool_sorted fs st -> pool_disjoint st ->
  (exists reader_paths,
     reader_paths_containing_sample_ st !! sample = Some reader_paths
     /\ Z.of_nat (length reader_paths) < 2 ^ 32
     /\ state_of (fetch_reads fs sample region st) = Some st')
  \/ (exists reader_paths,
        get_reader_paths_containing_samples st samples = Some reader_paths
        /\ Z.of_nat (length reader_paths) < 2 ^ 32
        /\ state_of (fetch_reads_samples fs samples region st) = Some st') ->
  within_budget st' /\ pool_sorted fs st' /\ pool_disjoint st'.
Proof.
  intros Hb Hs Hd [(paths & Hl & Hlen & H) | (paths & Hl & Hlen & H)].
  - destruct (fetch_reads_budget fs sample region st st' paths Hb Hs Hl Hlen H) as [Hb' Hs'].
    split; [done |]. split; [done |].
    apply fetch_reads_state_inv in H as [-> | (l & o & u & x & _ & _ & [-> | Ho])];
      [done | done |].
    by eapply open_readers_disjoint; [| | exact Ho].
  - apply fetch_reads_samples_state_inv in H as [-> | (l & o & u & x & Hl' & Hp & Ho)];
      [done |].
    rewrite Hl in Hl'. injection Hl' as <-.
    split; [| split].
    + eapply open_readers_budget; [done | | exact Ho].
      apply partition_readers_perm, Permutation_length in Hp.
      rewrite !length_app in Hp. lia.
    + by eapply open_readers_sorted; [| exact Ho].
    + by eapply open_readers_disjoint; [| | exact Ho].
Qed.

Lemma close_readers_partitioned (C : gset path) (n : nat) (st st' : ReadManager) :
  (forall p, p ∈ open_readers_ st -> p ∈ C) ->
  (forall p, p ∈ closed_readers_ st -> p ∈ C) ->
  (forall p, p ∈ C -> p ∈ open_readers_ st \/ p ∈ closed_readers_ st) ->
  close_readers fs n st = Some st' ->
  (forall p, p ∈ closed_readers_ st' -> p ∈ C)
  /\ (forall p, p ∈ C -> p ∈ open_readers_ st' \/ p ∈ closed_readers_ st').
Proof.
  revert st. induction n as [|n IH]; intros st Hopen Hclosed Hcover; simpl.
  - by intros [= <-].
  - unfold choose_reader_to_close.
    destruct (open_readers_ st) as [|v m] eqn:E; simpl; [done |].
    assert (open_readers_ (close_reader fs v st) = m) as Hm.
    { simpl. rewrite E. simpl. by rewrite file_size_compare_irrefl. }
    apply IH.
    + intros p Hp. rewrite Hm in Hp. apply Hopen. rewrite ?E. by right.
    + intros p. simpl. rewrite elem_of_union, elem_of_singleton.
      intros [Hp | ->]; [by apply Hclosed |]. apply Hopen. rewrite ?E. by left.
    + intros p Hp. rewrite Hm. simpl. rewrite elem_of_union, elem_of_singleton.
      destruct (Hcover p Hp) as [Hin | Hin]; [| tauto].
      rewrite ?E in Hin. apply elem_of_cons in Hin as [-> | Hin]; tauto.
Qed.

Lemma open_readers_partitioned (C : gset path) (batch : list path) (st st' : ReadManager) :
  distinct_sizes fs (fun p => p ∈ C) ->
  partitioned C st ->
  (forall p, p ∈ batch -> p ∈ C) ->
  open_readers fs batch st = Some st' ->
  partitioned C st'.
Proof.
  intros Hinj (Hopen & Hclosed & Hcover & Hidx) Hbatch Ho.
  assert (forall p, p ∈ open_readers_ st' -> p ∈ C) as Hopen'.
  { intros p Hp. apply (open_readers_elem fs _ _ _ p Ho) in Hp as [Hp | Hp]; auto. }
  pose proof Ho as Ho'. unfold open_readers in Ho'.
  destruct (close_readers fs _ st) as [st1|] eqn:Hclose; [| done].
  injection Ho' as <-.
  destruct (close_readers_partitioned C _ st st1 Hopen Hclosed Hcover Hclose)
    as [Hclosed1 Hcover1].
  split; [done |]. split; [| split].
  - intros p. rewrite emplace_readers_closed, elem_of_difference.
    intros [Hp _]. by apply Hclosed1.
  - intros p Hp. destruct (decide (p ∈ batch)) as [Hin | Hnot].
    + left. pose proof (open_readers_is_open fs batch st _ p Ho Hin) as Hopened.
      apply is_open_find in Hopened as [q Hq]. apply map_find_Some in Hq as [Hq Hsize].
      rewrite <- (Hinj q p); [done | by apply Hopen' | done | done].
    + destruct (Hcover1 p Hp) as [Hin | Hin].
      * left. by apply emplace_readers_keeps.
      * right. rewrite emplace_readers_closed, elem_of_difference, elem_of_list_to_set.
        tauto.
  - destruct (open_readers_same_indexes fs _ _ _ Ho) as (_ & _ & -> & _). exact Hidx.
Qed.

Lemma ctor_splits_catalogue (read_file_paths : list path) (max_open_files : Z)
    (st : ReadManager) :
  distinct_sizes fs (fun p => p ∈ read_file_paths) ->
  ReadManager_ctor fs read_file_paths max_open_files = Ok tt st ->
  partitioned (list_to_set read_file_paths) st.
Proof.
  intros Hinj Hctor. apply ctor_Ok_inv in Hctor as [_ Ho]. unfold open_initial_files in Ho.
  set (l := elements (list_to_set read_file_paths : gset path)) in *.
  set (st0 := member_init read_file_paths max_open_files) in *.
  destruct (scan_readers_pool fs l st0) as (_ & Hc & Hopen).
  eapply open_readers_partitioned; [| | | exact Ho].
  - intros p q Hp Hq. apply elem_of_list_to_set in Hp, Hq. by apply Hinj.
  - split; [| split; [| split]].
    + intros p Hp. rewrite Hopen in Hp. simpl in Hp. by apply not_elem_of_nil in Hp.
    + intros p. by rewrite Hc.
    + intros p Hp. right. by rewrite Hc.
    + intros s paths p Hs Hp.
      assert (p ∈ default [] (reader_paths_containing_sample_ (foldl (scan_reader fs) st0 l)
                                !! s)) as Hin by (by rewrite Hs).
      apply scan_readers_sample_elem in Hin as [Hin | [Hin _]].
      * simpl in Hin. rewrite lookup_empty in Hin. by apply not_elem_of_nil in Hin.
      * subst l. by apply elem_of_elements in Hin.
  - intros p Hp. rewrite Hc in Hp. simpl in Hp.
    assert (p ∈ std_nth_element fs (elements (list_to_set read_file_paths : gset path))
                  (Z.to_nat (num_files_to_open (foldl (scan_reader fs) st0 l)))) as Hp'.
    { eapply elem_of_sublist; [exact Hp | apply sublist_take]. }
    rewrite std_nth_element_perm in Hp'. by apply elem_of_elements in Hp'.
Qed.

(** X15: when no two files of the catalogue have the same size, a
    completed construction leaves every catalogue path either open or
    closed, nothing else in the pool or the closed set, and only catalogue
    paths in the sample index. *)
Theorem ctor_partitioned (read_file_paths : list path) (max_open_files : Z)
    (st : ReadManager) :
  distinct_sizes fs (fun p => p ∈ read_file_paths) ->
  ReadManager_ctor fs read_file_paths max_open_files = Ok tt st ->
  partitioned (list_to_set read_file_paths) st.
Proof. apply ctor_splits_catalogue. Qed.

(** X16: under the same condition every fetch that leaves a manager behind
    keeps the catalogue split between the pool and the closed set. *)
Theorem fetch_partitioned (C : gset path) (sample : SampleIdType)
    (samples : list SampleIdType) (region : GenomicRegion) (st st' : ReadManager) :
  distinct_sizes fs (fun p => p ∈ C) ->
  partitioned C st ->
  state_of (fetch_reads fs sample region st) = Some st'
  \/ state_of (fetch_reads_samples fs samples region st) = Some st' ->
  partitioned C st'.
Proof.
  intros Hinj Hpart [H | H].
  - apply fetch_reads_state_inv in H as [-> | (l & o & u & x & Hl & Hp & Hst)]; [done |].
    assert (partitioned C (set_sample_map (<[sample := o ++ u ++ x]>
                                             (reader_paths_containing_sample_ st)) st))
      as Hpart1.
    { destruct Hpart as (Hopen & Hclosed & Hcover & Hidx).
      split; [done |]. split; [done |]. split; [done |].
      intros s paths p. simpl. destruct (decide (s = sample)) as [-> | Hne].
      - rewrite lookup_insert_eq. intros [= <-] Hin. apply (Hidx sample l p Hl).
        by rewrite <- (partition_readers_perm fs st region l o u x Hp).
      - rewrite lookup_insert_ne by done. apply Hidx. }
    destruct Hst as [-> | Ho]; [done |].
    eapply open_readers_partitioned; [done | exact Hpart1 | | exact Ho].
    intros p Hin. destruct Hpart as (_ & _ & _ & Hidx). apply (Hidx sample l p Hl).
    by apply (partition_readers_unopened fs st region l o u x p Hp).
  - apply fetch_reads_samples_state_inv in H as [-> | (l & o & u & x & Hl & Hp & Ho)];
      [done |].
    eapply open_readers_partitioned; [done | exact Hpart | | exact Ho].
    intros p Hin. apply (partition_readers_unopened fs st region l o u x p Hp) in Hin as [Hin _].
    unfold get_reader_paths_containing_samples in Hl.
    destruct (get_reader_paths_containing_samples_aux st samples ∅) as [result|] eqn:E;
      [| done].
    simpl in Hl. injection Hl as <-. apply elem_of_elements in Hin.
    apply (get_reader_paths_aux_spec st samples ∅ result E) in Hin as [Hin | (s & _ & Hs)].
    + by apply elem_of_empty in Hin.
    + destruct Hpart as (_ & _ & _ & Hidx).
      destruct (reader_paths_containing_sample_ st !! s) as [paths|] eqn:Es;
        [| by apply not_elem_of_nil in Hs].
      by apply (Hidx s paths p Es).
Qed.
End Invariants.

(** Membership in a literal list or set, by cases. *)
Ltac in_list H :=
  try apply elem_of_list_to_set in H;
  apply list_elem_of_In in H; vm_compute in H.

Ltac solve_distinct_sizes :=
  let p := fresh "p" in
  let q := fresh "q" in
  let Hp := fresh "Hp" in
  let Hq := fresh "Hq" in
  let Hs := fresh "Hs" in
  intros p q Hp Hq; in_list Hp; in_list Hq;
  repeat match goal with
         | H : _ \/ _ |- _ => destruct H as [H | H]
         | H : False |- _ => destruct H
         end;
  subst; intros Hs; first [reflexivity | (vm_compute in Hs; discriminate)].

Lemma mixed_files_distinct_sizes :
  distinct_sizes mixed_files (fun p => p ∈ ["a.bam"; "b.bam"; "c.bam"]).
Proof. solve_distinct_sizes. Qed.

Lemma mixed_files_pool_disjoint : pool_disjoint mixed_files_budget2.
Proof.
  intros p Hp. in_list Hp. destruct Hp as [<- | [<- | []]];
    apply (bool_decide_unpack _); vm_compute; exact I.
Qed.

Lemma ctor_invariants_witness :
  within_budget mixed_files_budget2
  /\ pool_sorted mixed_files mixed_files_budget2
  /\ pool_disjoint mixed_files_budget2.
Proof.
  apply (ctor_invariants mixed_files ["a.bam"; "b.bam"; "c.bam"] 2 mixed_files_budget2).
  - lia.
  - vm_compute. reflexivity.
Defined.

Lemma fetch_invariants_witness :
  within_budget
    (default empty_manager
       (state_of (fetch_reads mixed_files "S" (chr1 0 50) mixed_files_budget2)))
  /\ pool_sorted mixed_files
       (default empty_manager
          (state_of (fetch_reads mixed_files "S" (chr1 0 50) mixed_files_budget2)))
  /\ pool_disjoint
       (default empty_manager
          (state_of (fetch_reads mixed_files "S" (chr1 0 50) mixed_files_budget2))).
Proof.
  apply (fetch_invariants mixed_files "S" [] (chr1 0 50) mixed_files_budget2).
  - split; [split |]; vm_compute; first [reflexivity | discriminate].
  - vm_compute. reflexivity.
  - exact mixed_files_pool_disjoint.
  - left. exists ["c.bam"; "b.bam"]. repeat split; vm_compute; reflexivity.
Defined.

Lemma ctor_partitioned_witness :
  partitioned (list_to_set ["a.bam"; "b.bam"; "c.bam"]) mixed_files_budget2.
Proof.
  apply (ctor_partitioned mixed_files ["a.bam"; "b.bam"; "c.bam"] 2 mixed_files_budget2).
  - exact mixed_files_distinct_sizes.
  - vm_compute. reflexivity.
Defined.

Lemma fetch_partitioned_witness :
  partitioned (list_to_set ["a.bam"; "b.bam"; "c.bam"])
    (default empty_manager
       (state_of (fetch_reads mixed_files "S" (chr1 0 50) mixed_files_budget2))).
Proof.
  apply (fetch_partitioned mixed_files (list_to_set ["a.bam"; "b.bam"; "c.bam"]) "S" []
           (chr1 0 50) mixed_files_budget2).
  - intros p q Hp Hq. apply elem_of_list_to_set in Hp, Hq.
    by apply mixed_files_distinct_sizes.
  - apply (ctor_splits_catalogue mixed_files ["a.bam"; "b.bam"; "c.bam"] 2).
    + exact mixed_files_distinct_sizes.
    + vm_compute. reflexivity.
  - left. vm_compute. reflexivity.
Defined.

(** ** The initial pool and the region filter *)

Section AfterConstruction.
Context {AlignedRead : Type} (fs : FileSystem AlignedRead).

(** X17: after a completed construction no open file is larger than a
    closed one; when no two catalogue files have the same size (and the
    catalogue size is an [unsigned] value) the number of open readers is the
    smaller of the budget and the number of catalogue paths. *)
Theorem ctor_pool_smallest (read_file_paths : list path) (max_open_files : Z)
    (st : ReadManager) :
  0 <= max_open_files < 2 ^ 32 ->
  ReadManager_ctor fs read_file_paths max_open_files = Ok tt st ->
  (forall o c, o ∈ open_readers_ st -> c ∈ closed_readers_ st ->
     (fs_file_size fs o <= fs_file_size fs c)%N)
  /\ (distinct_sizes fs (fun p => p ∈ read_file_paths) ->
      Z.of_nat (size (list_to_set read_file_paths : gset path)) < 2 ^ 32 ->
      Z.of_nat (length (open_readers_ st))
      = Z.min max_open_files (Z.of_nat (size (list_to_set read_file_paths : gset path)))).
Proof. apply ctor_opens_smallest. Qed.

Lemma ctor_region_entry (read_file_paths : list path) (max_open_files : Z)
    (st : ReadManager) (p : path) :
  ReadManager_ctor fs read_file_paths max_open_files = Ok tt st ->
  possible_regions_in_readers_ st !! p
  = if decide (p ∈ read_file_paths)
    then Some (std_sort <$> foldl push_region ∅ (reader_possible_regions fs p))
    else None.
Proof.
  intros Hctor. apply ctor_Ok_inv in Hctor as [_ Ho].
  apply open_readers_same_indexes in Ho as (_ & _ & _ & ->).
  set (l := elements (list_to_set read_file_paths : gset path)).
  destruct (decide (p ∈ read_file_paths)) as [Hin | Hnot].
  - destruct (scan_readers_regions_entry fs l (member_init read_file_paths max_open_files) p)
      as [contigs Hc].
    { subst l. by rewrite elem_of_elements, elem_of_list_to_set. }
    rewrite Hc. f_equal.
    apply (scan_readers_regions_fresh fs l (member_init read_file_paths max_open_files) p);
      [subst l; apply NoDup_elements | done | exact Hc].
  - rewrite scan_readers_regions_other; [done |].
    subst l. by rewrite elem_of_elements, elem_of_list_to_set.
Qed.

(** X18: after a completed construction the region filter rejects every
    path outside the catalogue and every contig the header of the path does
    not declare; otherwise it is the overlap test on the sorted sub-ranges
    the header declares for the contig of the region. *)
Theorem ctor_region_filter (read_file_paths : list path) (max_open_files : Z)
    (st : ReadManager) (p : path) (region : GenomicRegion) :
  ReadManager_ctor fs read_file_paths max_open_files = Ok tt st ->
  could_reader_contain_region st p region
  = if decide (p ∈ read_file_paths) then
      match declared_ranges fs p (get_contig_name region) with
      | [] => false
      | declared => has_overlapped (std_sort declared) (get_contig_region region)
      end
    else false.
Proof.
  intros Hctor. unfold could_reader_contain_region.
  rewrite (ctor_region_entry read_file_paths max_open_files st p Hctor).
  destruct (decide (p ∈ read_file_paths)); [| done].
  rewrite lookup_fmap.
  pose proof (push_regions_lookup (reader_possible_regions fs p) ∅ (get_contig_name region))
    as Hl.
  rewrite lookup_empty in Hl. simpl in Hl.
  fold (declared_ranges fs p (get_contig_name region)) in Hl.
  destruct (foldl push_region ∅ (reader_possible_regions fs p) !! get_contig_name region)
    as [rs|] eqn:E; simpl in *.
  - subst rs. destruct (declared_ranges fs p (get_contig_name region)) eqn:Ed; [| done].
    (* an entry that exists holds at least one range *)
    exfalso. clear Hctor.
    assert (forall regs (m : gmap string (list ContigRegion)) c,
              (forall c' rs', m !! c' = Some rs' -> rs' <> []) ->
              forall rs', foldl push_region m regs !! c = Some rs' -> rs' <> []) as Hne.
    { induction regs as [|r regs IH]; intros m c Hm rs'; simpl; [apply Hm |].
      apply IH. intros c' rs''. unfold push_region.
      destruct (decide (get_contig_name r = c')) as [-> | Hc].
      - rewrite lookup_insert_eq. intros [= <-]. by destruct (default [] _).
      - rewrite lookup_insert_ne by done. apply Hm. }
    eapply (Hne _ ∅ _); [| exact E | done].
    intros c' rs'. by rewrite lookup_empty.
  - by rewrite <- Hl.
Qed.
End AfterConstruction.

(** ** What construction does with the source list *)

Section ConstructionOutcome.
Context {AlignedRead : Type} (fs : FileSystem AlignedRead).

End ConstructionOutcome.


Lemma ctor_pool_smallest_witness :
  (forall o c, o ∈ open_readers_ mixed_files_budget2 ->
     c ∈ closed_readers_ mixed_files_budget2 ->
     (fs_file_size mixed_files o <= fs_file_size mixed_files c)%N)
  /\ Z.of_nat (length (open_readers_ mixed_files_budget2))
     = Z.min 2 (Z.of_nat (size (list_to_set ["a.bam"; "b.bam"; "c.bam"] : gset path))).
Proof.
  destruct (ctor_pool_smallest mixed_files ["a.bam"; "b.bam"; "c.bam"] 2 mixed_files_budget2)
    as [Hsmall Hcount].
  - lia.
  - vm_compute. reflexivity.
  - split; [exact Hsmall |]. apply Hcount.
    + exact mixed_files_distinct_sizes.
    + vm_compute. reflexivity.
Defined.

Lemma ctor_region_filter_witness :
  could_reader_contain_region split_files_budget2 "b.bam" (chr1 60 70)
  = if decide ("b.bam" ∈ ["a.bam"; "b.bam"]) then
      match declared_ranges split_files "b.bam" (get_contig_name (chr1 60 70)) with
      | [] => false
      | declared => has_overlapped (std_sort declared) (get_contig_region (chr1 60 70))
      end
    else false.
Proof.
  apply (ctor_region_filter split_files ["a.bam"; "b.bam"] 2 split_files_budget2
           "b.bam" (chr1 60 70)).
  vm_compute. reflexivity.
Defined.

(** * Properties of CIGAR strings *)

(** ** Parsing and printing *)

Section ParseCigar.
Variable Size_max : N.

Lemma pretty_N_char_digit (d : N) :
  (d < 10)%N ->
  is_digit (pretty_N_char d) = true /\ (N_of_ascii (pretty_N_char d) - 48)%N = d.
Proof.
  intros Hd.
  assert (d = 0 \/ d = 1 \/ d = 2 \/ d = 3 \/ d = 4 \/ d = 5 \/ d = 6 \/ d = 7 \/ d = 8
          \/ d = 9)%N as Hcases by lia.
  repeat (destruct Hcases as [-> | Hcases]; [by vm_compute |]).
  subst. by vm_compute.
Qed.

Lemma digits_value_app (a b : string) (acc : N) :
  digits_value (a +:+ b) acc = digits_value b (digits_value a acc).
Proof.
  revert acc. induction a as [|c a IH]; intros acc; [done |].
  rewrite string_app_cons. simpl. apply IH.
Qed.

Lemma all_digits_app (a b : string) :
  all_digits (a +:+ b) = all_digits a && all_digits b.
Proof.
  induction a as [|c a IH]; [done |].
  rewrite string_app_cons. simpl. by rewrite IH, andb_assoc.
Qed.

Lemma pretty_N_go_spec (x : N) (s : string) :
  digits_value (pretty_N_go x s) 0 = digits_value s x
  /\ all_digits (pretty_N_go x s) = all_digits s
  /\ (s <> EmptyString -> pretty_N_go x s <> EmptyString).
Proof.
  revert s. induction x as [x IH] using (well_founded_induction N.lt_wf_0). intros s.
  destruct (decide (x = 0%N)) as [-> | Hx].
  - by rewrite pretty_N_go_0.
  - rewrite pretty_N_go_step by lia.
    assert (x `div` 10 < x)%N as Hlt by (apply N.div_lt; lia).
    destruct (IH _ Hlt (String (pretty_N_char (x `mod` 10)) s)) as (Hv & Ha & Hn).
    destruct (pretty_N_char_digit (x `mod` 10)) as [Hd Hc].
    { apply N.mod_lt. lia. }
    split; [| split].
    + rewrite Hv. simpl. rewrite Hc. f_equal.
      pose proof (N.div_mod x 10). lia.
    + rewrite Ha. simpl. by rewrite Hd.
    + intros _. by apply Hn.
Qed.

Lemma pretty_N_spec (n : N) :
  digits_value (pretty n) 0 = n
  /\ all_digits (pretty n) = true
  /\ pretty n <> EmptyString.
Proof.
  unfold pretty, pretty_N. destruct (decide (n = 0%N)) as [-> | Hn]; [done |].
  rewrite pretty_N_go_step by lia.
  destruct (pretty_N_go_spec (n `div` 10) (String (pretty_N_char (n `mod` 10)) EmptyString))
    as (Hv & Ha & Hne).
  destruct (pretty_N_char_digit (n `mod` 10)) as [Hd Hc].
  { apply N.mod_lt. lia. }
  split; [| split].
  - rewrite Hv. simpl. rewrite Hc. pose proof (N.div_mod n 10). lia.
  - rewrite Ha. simpl. by rewrite Hd.
  - by apply Hne.
Qed.

Lemma parse_cigar_loop_digits (ds rest : string) (result : list CigarOperation)
    (digits : string) :
  all_digits ds = true ->
  parse_cigar_loop Size_max (ds +:+ rest) result digits
  = parse_cigar_loop Size_max rest result (digits +:+ ds).
Proof.
  revert digits. induction ds as [|c ds IH]; intros digits Hd.
  - by rewrite string_app_nil_l, string_app_nil_r.
  - simpl in Hd. apply andb_true_iff in Hd as [Hc Hd].
    rewrite string_app_cons. simpl. rewrite Hc, IH by done.
    by rewrite string_app_assoc.
Qed.

Lemma lexical_cast_pretty (n : N) :
  (n <= Size_max)%N -> lexical_cast Size_max (pretty n) = Some n.
Proof.
  intros Hn. destruct (pretty_N_spec n) as (Hv & _ & Hne).
  unfold lexical_cast. destruct (pretty n) eqn:E; [done |].
  rewrite Hv. by destruct (N.leb_spec n Size_max); [| lia].
Qed.

Lemma print_cigar_app (os : string) (cigar : list CigarOperation) :
  print_cigar os cigar = os +:+ print_cigar EmptyString cigar.
Proof.
  revert os. induction cigar as [|op cigar IH]; intros os; simpl.
  - by rewrite string_app_nil_r.
  - rewrite IH. rewrite (IH (print_operation EmptyString op)).
    unfold print_operation. by rewrite string_app_nil_l, !string_app_assoc.
Qed.

Lemma print_cigar_cons (op : CigarOperation) (cigar : list CigarOperation) :
  print_cigar EmptyString (op :: cigar)
  = pretty (size_ op) +:+ String (flag_ op) (print_cigar EmptyString cigar).
Proof.
  simpl. rewrite print_cigar_app. unfold print_operation.
  by rewrite string_app_nil_l, !string_app_assoc.
Qed.

(** Reading back what was printed, with anything after it. *)
Lemma parse_cigar_loop_print (cigar : list CigarOperation) (rest : string)
    (result : list CigarOperation) :
  Forall (printable Size_max) cigar ->
  parse_cigar_loop Size_max (print_cigar EmptyString cigar +:+ rest) result EmptyString
  = parse_cigar_loop Size_max rest (result ++ cigar) EmptyString.
Proof.
  intros Hok. revert result. induction Hok as [|op cigar [Hflag Hsize] Hok IH]; intros result.
  - simpl. by rewrite app_nil_r.
  - rewrite print_cigar_cons, string_app_assoc.
    rewrite parse_cigar_loop_digits by apply pretty_N_spec.
    rewrite string_app_cons, string_app_nil_l. simpl.
    rewrite Hflag, lexical_cast_pretty by done.
    destruct op as [n f]. simpl. rewrite IH. by rewrite <- app_assoc.
Qed.

(** X19: printing a CIGAR string whose flags are not digits and whose
    sizes fit [CigarOperation::Size], and parsing the text, gives the CIGAR
    string back. *)
Theorem parse_cigar_print (cigar : list CigarOperation) :
  Forall (printable Size_max) cigar ->
  parse_cigar Size_max (print_cigar EmptyString cigar) = inr cigar.
Proof.
  intros Hok. unfold parse_cigar.
  rewrite <- (string_app_nil_r (print_cigar EmptyString cigar)).
  by rewrite parse_cigar_loop_print.
Qed.

(** X20: what [parse_cigar] rejects after a well-formed prefix: digits
    that no flag follows make it throw [std::invalid_argument] with the
    whole input in the message, and a flag that no digit precedes makes it
    throw [boost::bad_lexical_cast]. *)
Theorem parse_cigar_rejects (cigar : list CigarOperation) (digits rest : string) (c : ascii) :
  Forall (printable Size_max) cigar ->
  (all_digits digits = true -> digits <> EmptyString ->
   parse_cigar Size_max (print_cigar EmptyString cigar +:+ digits)
   = inl (invalid_argument ("parse_cigar: could not parse all characters of "
                            +:+ (print_cigar EmptyString cigar +:+ digits))))
  /\ (is_digit c = false ->
      parse_cigar Size_max (print_cigar EmptyString cigar +:+ String c rest)
      = inl bad_lexical_cast).
Proof.
  intros Hok. unfold parse_cigar. rewrite !parse_cigar_loop_print by done. split.
  - intros Hd Hne.
    rewrite <- (string_app_nil_r digits) at 1.
    rewrite parse_cigar_loop_digits by done. simpl.
    rewrite string_app_nil_l. by destruct digits.
  - intros Hc. simpl. by rewrite Hc.
Qed.
End ParseCigar.

(** ** Sizes *)

Lemma weight_app (pred : CigarOperation -> bool) (a b : list CigarOperation) :
  weight pred (a ++ b) = (weight pred a + weight pred b)%N.
Proof. induction a as [|op a IH]; simpl; [done | rewrite IH; lia]. Qed.

Lemma weight_le_all (pred : CigarOperation -> bool) (cigar : list CigarOperation) :
  (weight pred cigar <= weight (fun _ => true) cigar)%N.
Proof. induction cigar as [|op cigar IH]; simpl; [done | destruct (pred op); lia]. Qed.

Lemma accumulate_sizes_from (pred : CigarOperation -> bool) (modulus : N)
    (cigar : list CigarOperation) (curr : N) :
  (0 < modulus)%N ->
  foldl (fun curr op => ((curr + (if pred op then size_ op else 0)) mod modulus)%N)
    (curr mod modulus)%N cigar
  = ((curr + weight pred cigar) mod modulus)%N.
Proof.
  intros HM. revert curr. induction cigar as [|op cigar IH]; intros curr; simpl.
  - by rewrite N.add_0_r.
  - rewrite N.Div0.add_mod_idemp_l, IH. f_equal. lia.
Qed.

Lemma accumulate_sizes_weight (pred : CigarOperation -> bool) (modulus : N)
    (cigar : list CigarOperation) :
  (0 < modulus)%N ->
  accumulate_sizes pred modulus cigar = (weight pred cigar mod modulus)%N.
Proof.
  intros HM. unfold accumulate_sizes.
  rewrite <- (N.mod_small 0 modulus) at 1 by done.
  by rewrite accumulate_sizes_from.
Qed.

Lemma accumulate_sizes_small (pred : CigarOperation -> bool) (modulus : N)
    (cigar : list CigarOperation) :
  (weight (fun _ => true) cigar < modulus)%N ->
  accumulate_sizes pred modulus cigar = weight pred cigar.
Proof.
  intros HM. pose proof (weight_le_all pred cigar).
  rewrite accumulate_sizes_weight by lia. apply N.mod_small. lia.
Qed.

(** ** Splicing *)

Section Splice.
Variable pred : CigarOperation -> bool.

(** Where the first loop of [splice] stops: at the end, or at the
    operation that holds position [offset] of those [pred] selects. *)
Lemma splice_skip_spec (ops : list CigarOperation) (offset : N)
    (ops' : list CigarOperation) (offset' : N) :
  splice_skip pred ops offset = (ops', offset') ->
  exists skipped,
    ops = skipped ++ ops'
    /\ match ops' with
       | [] => (weight pred ops <= offset)%N
       | op :: _ =>
           pred op = true /\ (offset' < size_ op)%N
           /\ offset = (weight pred skipped + offset')%N
       end.
Proof.
  revert offset. induction ops as [|op ops IH]; intros offset Hskip; simpl in Hskip.
  - injection Hskip as <- <-. exists []. simpl. split; [done | lia].
  - destruct ((size_ op <=? offset)%N || negb (pred op)) eqn:Hcond.
    + destruct (IH _ Hskip) as (skipped & -> & Hrest).
      exists (op :: skipped). split; [done |].
      apply orb_true_iff in Hcond.
      destruct ops' as [|op' rest'].
      * simpl in *. rewrite app_nil_r in *.
        destruct (pred op); [| lia].
        destruct Hcond as [Hle | Hn]; [| done]. apply N.leb_le in Hle. lia.
      * destruct Hrest as (Hp & Hlt & Hoff). repeat split; [done .. |].
        simpl. destruct (pred op); [| lia].
        destruct Hcond as [Hle | Hn]; [| done]. apply N.leb_le in Hle. lia.
    + injection Hskip as <- <-. exists []. split; [done |].
      apply orb_false_iff in Hcond as [Hle Hp].
      apply N.leb_gt in Hle. apply negb_false_iff in Hp. simpl. repeat split; [done .. | lia].
Qed.

(** Where the second loop of [splice] stops: at the end, when [size] is
    used up, or at an operation [pred] selects that is larger than what is
    left of [size]. *)
Lemma splice_copy_spec (ops : list CigarOperation) (size : N) (result : list CigarOperation)
    (ops' : list CigarOperation) (size' : N) (result' : list CigarOperation) :
  splice_copy pred ops size result = (ops', size', result') ->
  exists copied,
    ops = copied ++ ops'
    /\ result' = result ++ copied
    /\ size = (weight pred copied + size')%N
    /\ match ops' with
       | [] => True
       | op :: _ => size' = 0%N \/ (pred op = true /\ (size' < size_ op)%N)
       end
    /\ (copied <> [] -> (0 < size)%N).
Proof.
  revert size result. induction ops as [|op ops IH]; intros size result Hcopy;
    simpl in Hcopy.
  - injection Hcopy as <- <- <-. exists []. rewrite !app_nil_r.
    do 4 (split; [done |]). intros Hne. by destruct Hne.
  - destruct ((0 <? size)%N && ((size_ op <=? size)%N || negb (pred op))) eqn:Hcond.
    + destruct (IH _ _ Hcopy) as (copied & -> & -> & Hsize & Hstop & _).
      exists (op :: copied). rewrite <- app_assoc.
      apply andb_true_iff in Hcond as [Hpos Hcond].
      apply N.ltb_lt in Hpos. apply orb_true_iff in Hcond.
      repeat split; [| done | done]. simpl.
      destruct (pred op); [| lia].
      destruct Hcond as [Hle | Hn]; [| done]. apply N.leb_le in Hle. lia.
    + injection Hcopy as <- <- <-. exists []. rewrite app_nil_r.
      repeat split; [| done]. simpl.
      apply andb_false_iff in Hcond as [Hpos | Hcond].
      * left. apply N.ltb_ge in Hpos. lia.
      * apply orb_false_iff in Hcond as [Hle Hp].
        apply N.leb_gt in Hle. apply negb_false_iff in Hp. by right.
Qed.

Lemma splice_spliced (cigar_string : list CigarOperation) (offset size : N) :
  spliced pred cigar_string offset size (splice pred cigar_string offset size).
Proof.
  unfold splice.
  destruct (splice_skip pred cigar_string offset) as [ops offset'] eqn:Hskip.
  destruct (splice_skip_spec _ _ _ _ Hskip) as (skipped & Hc & Hstop).
  destruct ops as [|op rest].
  - apply spliced_beyond. done.
  - destruct Hstop as (Hp & Hlt & Hoff). cbv zeta.
    destruct (N.leb_spec size (size_ op - offset')) as [Hle | Hgt].
    + by eapply spliced_within.
    + destruct (splice_copy pred rest (size - (size_ op - offset'))
                  [mkCigarOperation (size_ op - offset') (flag_ op)])
        as [[ops' size'] result] eqn:Hcopy.
      destruct (splice_copy_spec _ _ _ _ _ _ Hcopy)
        as (copied & -> & -> & Hsize & Hstop & Hne).
      assert (spliced pred cigar_string offset size
                (mkCigarOperation (size_ op - offset') (flag_ op) :: copied
                 ++ match ops' with
                    | op' :: _ =>
                        if (0 <? size')%N then [mkCigarOperation size' (flag_ op')] else []
                    | [] => []
                    end)) as Hs.
      { eapply spliced_across; try done; lia. }
      destruct ops' as [|op' ops'].
      * by rewrite app_nil_r in Hs.
      * destruct (0 <? size')%N; [done |]. by rewrite app_nil_r in Hs.
Qed.
End Splice.

Section SpliceShape.
Variable pred : CigarOperation -> bool.
Variables (cigar_string : list CigarOperation) (offset size : N).

Lemma spliced_weight (result : list CigarOperation) :
  by_flag pred ->
  spliced pred cigar_string offset size result ->
  weight pred result = N.min size (weight pred cigar_string - offset).
Proof.
  intros Hflag Hs.
  destruct Hs as [Hle | skipped op rest offset' -> Hp -> Hlt Hsize
                  | skipped op copied ops' offset' size' -> Hp -> Hlt -> Hpos Hstop _].
  - simpl. lia.
  - rewrite weight_app. simpl. rewrite Hflag, Hp. lia.
  - rewrite weight_app. simpl. rewrite !weight_app, Hflag, Hp.
    destruct ops' as [|op' ops']; simpl; [lia |].
    destruct (N.ltb_spec 0 size') as [Hsize' | Hsize']; simpl.
    + rewrite Hflag. destruct Hstop as [-> | [-> Hlt']]; lia.
    + destruct (pred op'); lia.
Qed.

Lemma spliced_weight_le (result : list CigarOperation) :
  spliced pred cigar_string offset size result ->
  (weight (fun _ => true) result <= weight (fun _ => true) cigar_string)%N.
Proof.
  intros Hs.
  destruct Hs as [Hle | skipped op rest offset' -> Hp -> Hlt Hsize
                  | skipped op copied ops' offset' size' -> Hp -> Hlt -> Hpos Hstop _].
  - simpl. lia.
  - rewrite weight_app. simpl. lia.
  - rewrite weight_app. simpl. rewrite !weight_app.
    destruct ops' as [|op' ops']; simpl; [lia |].
    destruct (N.ltb_spec 0 size') as [Hsize' | Hsize']; simpl; [| lia].
    destruct Hstop as [-> | [_ Hlt']]; lia.
Qed.

Lemma is_valid_Forall (cigar : list CigarOperation) :
  is_valid cigar = true
  <-> cigar <> [] /\ Forall (fun op => valid_operation op = true) cigar.
Proof.
  unfold is_valid. destruct cigar as [|op cigar].
  - split; [done | by intros [[] _]].
  - fold valid_operation. rewrite forallb_forall, Forall_forall.
    setoid_rewrite list_elem_of_In. split; [by intros H | by intros [_ H]].
Qed.

Lemma valid_operation_resize (op : CigarOperation) (n : N) :
  valid_operation op = true -> (0 < n)%N ->
  valid_operation (mkCigarOperation n (flag_ op)) = true.
Proof.
  unfold valid_operation, is_valid_flag. simpl.
  intros [_ ->]%andb_true_iff Hn. by destruct (N.ltb_spec 0 n); [| lia].
Qed.

Lemma spliced_valid (result : list CigarOperation) :
  is_valid cigar_string = true ->
  spliced pred cigar_string offset size result ->
  is_valid result = true <-> (0 < size)%N /\ (offset < weight pred cigar_string)%N.
Proof.
  intros [_ Hvalid]%is_valid_Forall Hs. rewrite is_valid_Forall.
  destruct Hs as [Hle | skipped op rest offset' -> Hp -> Hlt Hsize
                  | skipped op copied ops' offset' size' -> Hp -> Hlt -> Hpos Hstop _].
  - split; [by intros [[] _] | lia].
  - apply Forall_app in Hvalid as [_ Hvalid].
    apply Forall_cons in Hvalid as [Hop _].
    rewrite weight_app. simpl. rewrite Hp. split.
    + intros [_ Hr]. apply Forall_cons in Hr as [Hr _].
      unfold valid_operation in Hr. simpl in Hr.
      apply andb_true_iff in Hr as [Hr%N.ltb_lt _]. lia.
    + intros [Hpos _]. split; [done |].
      apply Forall_cons. split; [by apply valid_operation_resize | done].
  - apply Forall_app in Hvalid as [_ Hvalid].
    apply Forall_cons in Hvalid as [Hop Hvalid].
    apply Forall_app in Hvalid as [Hcopied Hrest].
    rewrite weight_app. simpl. rewrite Hp. split; [lia |].
    intros _. split; [done |].
    apply Forall_cons. split; [apply valid_operation_resize; [done | lia] |].
    apply Forall_app. split; [done |].
    destruct ops' as [|op' ops']; [done |].
    apply Forall_cons in Hrest as [Hop' _].
    destruct (N.ltb_spec 0 size'); [| done].
    apply Forall_cons. split; [by apply valid_operation_resize | done].
Qed.

Lemma is_minimal_cons (lhs rhs : CigarOperation) (rest : list CigarOperation) :
  is_minimal (lhs :: rhs :: rest)
  = negb (Ascii.eqb (flag_ lhs) (flag_ rhs)) && is_minimal (rhs :: rest).
Proof. reflexivity. Qed.

Lemma is_minimal_flags (a b : list CigarOperation) :
  flag_ <$> a = flag_ <$> b -> is_minimal a = is_minimal b.
Proof.
  revert b. induction a as [|x a IH]; intros [|y b] Heq; try done.
  injection Heq as Hxy Hab. specialize (IH _ Hab).
  destruct a as [|x' a], b as [|y' b]; try done.
  injection Hab as Hxy' _. by rewrite !is_minimal_cons, Hxy, Hxy', IH.
Qed.

Lemma is_minimal_app (a b : list CigarOperation) :
  is_minimal (a ++ b) = true -> is_minimal a = true /\ is_minimal b = true.
Proof.
  induction a as [|x a IH]; [done |].
  destruct a as [|x' a].
  - simpl. destruct b; [done |]. by intros [_ H]%andb_true_iff.
  - rewrite <- !app_comm_cons, !is_minimal_cons, app_comm_cons.
    intros [-> H]%andb_true_iff. by apply IH in H as [-> ->].
Qed.

Lemma spliced_minimal (result : list CigarOperation) :
  is_minimal cigar_string = true ->
  spliced pred cigar_string offset size result ->
  is_minimal result = true.
Proof.
  intros Hmin Hs.
  destruct Hs as [Hle | skipped op rest offset' -> Hp -> Hlt Hsize
                  | skipped op copied ops' offset' size' -> Hp -> Hlt -> Hpos Hstop _];
    [done | done |].
  apply is_minimal_app in Hmin as [_ Hmin].
  destruct ops' as [|op' ops'].
  - rewrite app_nil_r in *. by rewrite <- Hmin; apply is_minimal_flags.
  - destruct (0 <? size')%N.
    + assert (op :: copied ++ op' :: ops' = (op :: copied ++ [op']) ++ ops') as Heq.
      { simpl. by rewrite <- app_assoc. }
      rewrite Heq in Hmin. apply is_minimal_app in Hmin as [Hmin _].
      rewrite <- Hmin. apply is_minimal_flags. simpl. by rewrite !fmap_app.
    + change (op :: copied ++ op' :: ops') with ((op :: copied) ++ op' :: ops') in Hmin.
      apply is_minimal_app in Hmin as [Hmin _]. rewrite app_nil_r.
      by rewrite <- Hmin; apply is_minimal_flags.
Qed.
End SpliceShape.

Lemma by_flag_all : by_flag (fun _ => true).
Proof. done. Qed.

Lemma by_flag_advances_reference : by_flag advances_reference.
Proof. done. Qed.

Lemma by_flag_advances_sequence : by_flag advances_sequence.
Proof. done. Qed.

Lemma splice_accumulate_sizes (pred : CigarOperation -> bool) (modulus : N)
    (cigar_string : list CigarOperation) (offset size : N) :
  by_flag pred ->
  (weight (fun _ => true) cigar_string < modulus)%N ->
  accumulate_sizes pred modulus (splice pred cigar_string offset size)
  = N.min size (accumulate_sizes pred modulus cigar_string - offset).
Proof.
  intros Hflag HM.
  pose proof (splice_spliced pred cigar_string offset size) as Hs.
  pose proof (spliced_weight_le _ _ _ _ _ Hs).
  rewrite !accumulate_sizes_small by lia.
  by apply spliced_weight.
Qed.

(** X21: as long as the sizes of a CIGAR string add up within the integer
    type, what [splice], [splice_reference] and [splice_sequence] return
    measures [size], or what the CIGAR string has left after [offset] if that
    is less: in all operations, in those that advance the reference, and in
    those that advance the sequence. *)
Theorem splice_sizes (modulus : N) (cigar_string : list CigarOperation) (offset size : N) :
  (weight (fun _ => true) cigar_string < modulus)%N ->
  sum_operation_sizes modulus (splice_all cigar_string offset size)
  = N.min size (sum_operation_sizes modulus cigar_string - offset)
  /\ reference_size modulus (splice_reference cigar_string offset size)
     = N.min size (reference_size modulus cigar_string - offset)
  /\ sequence_size modulus (splice_sequence cigar_string offset size)
     = N.min size (sequence_size modulus cigar_string - offset).
Proof.
  intros HM. split; [| split].
  - by apply splice_accumulate_sizes; [apply by_flag_all |].
  - by apply splice_accumulate_sizes; [apply by_flag_advances_reference |].
  - by apply splice_accumulate_sizes; [apply by_flag_advances_sequence |].
Qed.

Lemma splice_sizes_witness :
  sum_operation_sizes (2 ^ 32) (splice_all clipped_read 4 9)
  = N.min 9 (sum_operation_sizes (2 ^ 32) clipped_read - 4)
  /\ reference_size (2 ^ 32) (splice_reference clipped_read 4 9)
     = N.min 9 (reference_size (2 ^ 32) clipped_read - 4)
  /\ sequence_size (2 ^ 32) (splice_sequence clipped_read 4 9)
     = N.min 9 (sequence_size (2 ^ 32) clipped_read - 4).
Proof.
  apply (splice_sizes (2 ^ 32) clipped_read 4 9).
  vm_compute. reflexivity.
Defined.

(** X22: spliced out of a valid CIGAR string, the result is valid exactly
    when [size] is positive and [offset] lies within the operations the
    predicate selects; otherwise it is empty or a single operation of size 0. *)
Theorem splice_valid (pred : CigarOperation -> bool) (cigar_string : list CigarOperation)
    (offset size : N) :
  is_valid cigar_string = true ->
  (is_valid (splice pred cigar_string offset size) = true
   <-> (0 < size)%N /\ (offset < weight pred cigar_string)%N)
  /\ ((weight pred cigar_string <= offset)%N -> splice pred cigar_string offset size = [])
  /\ ((offset < weight pred cigar_string)%N ->
      exists op, op ∈ cigar_string
                 /\ splice pred cigar_string offset 0 = [mkCigarOperation 0 (flag_ op)]).
Proof.
  intros Hvalid. split; [| split].
  - apply spliced_valid; [done | apply splice_spliced].
  - intros Hle. pose proof (splice_spliced pred cigar_string offset size) as Hs.
    destruct Hs as [_ | skipped op rest offset' Hc Hp -> Hlt Hsize
                    | skipped op copied ops' offset' size' Hc Hp -> Hlt _ _ _ _]; [done | |].
    + rewrite Hc, weight_app in Hle. simpl in Hle. rewrite Hp in Hle. lia.
    + rewrite Hc, weight_app in Hle. simpl in Hle. rewrite Hp in Hle. lia.
  - intros Hlt. pose proof (splice_spliced pred cigar_string offset 0) as Hs.
    destruct Hs as [Hle | skipped op rest offset' Hc Hp _ _ _
                    | skipped op copied ops' offset' size' _ _ _ _ Hsize Hpos _ _].
    + lia.
    + exists op. split; [| done]. rewrite Hc. set_solver.
    + lia.
Qed.

Lemma splice_valid_witness :
  (is_valid (splice advances_reference clipped_read 4 9) = true
   <-> (0 < 9)%N /\ (4 < weight advances_reference clipped_read)%N)
  /\ ((weight advances_reference clipped_read <= 4)%N ->
      splice advances_reference clipped_read 4 9 = [])
  /\ ((4 < weight advances_reference clipped_read)%N ->
      exists op, op ∈ clipped_read
                 /\ splice advances_reference clipped_read 4 0
                    = [mkCigarOperation 0 (flag_ op)]).
Proof.
  apply (splice_valid advances_reference clipped_read 4 9).
  vm_compute. reflexivity.
Defined.

(** X23: [splice] keeps a minimal CIGAR string minimal: no two adjacent
    operations of the result have the same flag. *)
Theorem splice_minimal (pred : CigarOperation -> bool) (cigar_string : list CigarOperation)
    (offset size : N) :
  is_minimal cigar_string = true ->
  is_minimal (splice pred cigar_string offset size) = true.
Proof.
  intros Hmin. eapply spliced_minimal; [done | apply splice_spliced].
Qed.

Lemma splice_minimal_witness :
  is_minimal (splice advances_sequence clipped_read 4 9) = true.
Proof.
  apply (splice_minimal advances_sequence clipped_read 4 9).
  vm_compute. reflexivity.
Defined.

Lemma weight_zero_nil (cigar : list CigarOperation) :
  Forall (fun op => (0 < size_ op)%N) cigar ->
  weight (fun _ => true) cigar = 0%N -> cigar = [].
Proof.
  intros Hpos Hw. destruct Hpos as [|op cigar Hop _]; [done |]. simpl in Hw. lia.
Qed.

Lemma spliced_whole (cigar_string : list CigarOperation) (size : N)
    (result : list CigarOperation) :
  Forall (fun op => (0 < size_ op)%N) cigar_string ->
  (weight (fun _ => true) cigar_string <= size)%N ->
  spliced (fun _ => true) cigar_string 0 size result ->
  result = cigar_string.
Proof.
  intros Hpos Hle Hs.
  destruct Hs as [Hw | skipped op rest offset' -> _ Hoff Hlt Hsize
                  | skipped op copied ops' offset' size' -> _ Hoff Hlt -> _ Hstop _].
  - symmetry. apply weight_zero_nil; [done | lia].
  - apply Forall_app in Hpos as [Hskipped Hpos].
    assert (skipped = []) as -> by (apply weight_zero_nil; [done | lia]).
    apply Forall_cons in Hpos as [Hop Hrest]. simpl in *.
    assert (rest = []) as -> by (apply weight_zero_nil; [done | lia]).
    destruct op as [n f]. simpl in *. f_equal. f_equal. lia.
  - apply Forall_app in Hpos as [Hskipped Hpos].
    assert (skipped = []) as -> by (apply weight_zero_nil; [done | lia]).
    apply Forall_cons in Hpos as [Hop Hrest].
    apply Forall_app in Hrest as [_ Hrest].
    simpl in *. rewrite weight_app in Hle.
    assert (offset' = 0%N) as -> by lia. rewrite N.sub_0_r.
    destruct ops' as [|op' ops'].
    + destruct op. by rewrite !app_nil_r.
    + apply Forall_cons in Hrest as [Hop' _]. simpl in Hle.
      destruct Hstop as [-> | [_ Hlt']]; lia.
Qed.

(** X24: the overloads without an offset return the whole CIGAR string
    when it has no operation of size 0 and [size] is at least the sum of the
    sizes of all its operations. *)
Theorem splice_head_whole (cigar_string : list CigarOperation) (size : N) :
  Forall (fun op => (0 < size_ op)%N) cigar_string ->
  (weight (fun _ => true) cigar_string <= size)%N ->
  splice_head cigar_string size = cigar_string
  /\ splice_reference_head cigar_string size = cigar_string
  /\ splice_sequence_head cigar_string size = cigar_string.
Proof.
  intros Hpos Hle.
  assert (splice_all cigar_string 0 size = cigar_string) as Hall.
  { eapply spliced_whole; [done | done | apply splice_spliced]. }
  done.
Qed.

Lemma splice_head_whole_witness :
  splice_head clipped_read 30 = clipped_read
  /\ splice_reference_head clipped_read 30 = clipped_read
  /\ splice_sequence_head clipped_read 30 = clipped_read.
Proof.
  apply (splice_head_whole clipped_read 30).
  - repeat (apply Forall_cons; split; [by vm_compute |]). by apply Forall_nil.
  - by vm_compute.
Defined.

(** X25: the overloads without an offset measure [size] in all
    operations: as long as the sizes add up within the integer type, what
    [splice_reference(cigar, size)] and [splice_sequence(cigar, size)] return
    has operations of [size] in all, or all the CIGAR string has if that is
    less, whether or not they advance the reference or the sequence. *)
Theorem splice_head_sizes (modulus : N) (cigar_string : list CigarOperation) (size : N) :
  (weight (fun _ => true) cigar_string < modulus)%N ->
  sum_operation_sizes modulus (splice_head cigar_string size)
  = N.min size (sum_operation_sizes modulus cigar_string)
  /\ sum_operation_sizes modulus (splice_reference_head cigar_string size)
     = N.min size (sum_operation_sizes modulus cigar_string)
  /\ sum_operation_sizes modulus (splice_sequence_head cigar_string size)
     = N.min size (sum_operation_sizes modulus cigar_string).
Proof.
  intros HM.
  assert (sum_operation_sizes modulus (splice_all cigar_string 0 size)
          = N.min size (sum_operation_sizes modulus cigar_string)) as Hall.
  { unfold sum_operation_sizes, splice_all.
    rewrite splice_accumulate_sizes by (done || apply by_flag_all).
    by rewrite N.sub_0_r. }
  done.
Qed.

Lemma splice_head_sizes_witness :
  sum_operation_sizes (2 ^ 32) (splice_head clipped_read 9)
  = N.min 9 (sum_operation_sizes (2 ^ 32) clipped_read)
  /\ sum_operation_sizes (2 ^ 32) (splice_reference_head clipped_read 9)
     = N.min 9 (sum_operation_sizes (2 ^ 32) clipped_read)
  /\ sum_operation_sizes (2 ^ 32) (splice_sequence_head clipped_read 9)
     = N.min 9 (sum_operation_sizes (2 ^ 32) clipped_read).
Proof.
  apply (splice_head_sizes (2 ^ 32) clipped_read 9).
  vm_compute. reflexivity.
Defined.

(** X26: the header's sums wrap around in the template's unsigned type
    without losing anything: each is the exact sum reduced by the modulus,
    and over two CIGAR strings in a row it is the sum of the two, reduced. *)
Theorem sizes_app (modulus : N) (a b : list CigarOperation) :
  (0 < modulus)%N ->
  sum_operation_sizes modulus (a ++ b)
  = ((sum_operation_sizes modulus a + sum_operation_sizes modulus b) mod modulus)%N
  /\ reference_size modulus (a ++ b)
     = ((reference_size modulus a + reference_size modulus b) mod modulus)%N
  /\ sequence_size modulus (a ++ b)
     = ((sequence_size modulus a + sequence_size modulus b) mod modulus)%N.
Proof.
  intros HM. unfold sum_operation_sizes, reference_size, sequence_size.
  rewrite !accumulate_sizes_weight, !weight_app by done.
  repeat split; apply N.Div0.add_mod.
Qed.

Lemma sizes_app_witness :
  sum_operation_sizes 16 (clipped_read ++ clipped_read)
  = ((sum_operation_sizes 16 clipped_read + sum_operation_sizes 16 clipped_read) mod 16)%N
  /\ reference_size 16 (clipped_read ++ clipped_read)
     = ((reference_size 16 clipped_read + reference_size 16 clipped_read) mod 16)%N
  /\ sequence_size 16 (clipped_read ++ clipped_read)
     = ((sequence_size 16 clipped_read + sequence_size 16 clipped_read) mod 16)%N.
Proof.
  apply (sizes_app 16 clipped_read clipped_read).
  vm_compute. reflexivity.
Defined.

(** ** Parsing, again *)

Lemma parse_cigar_print_witness :
  parse_cigar 4294967295 (print_cigar EmptyString clipped_read) = inr clipped_read.
Proof.
  apply (parse_cigar_print 4294967295 clipped_read).
  repeat (apply Forall_cons; split; [split; by vm_compute |]). by apply Forall_nil.
Defined.

Lemma parse_cigar_rejects_witness :
  parse_cigar 4294967295 (print_cigar EmptyString clipped_read +:+ "12")
  = inl (invalid_argument ("parse_cigar: could not parse all characters of "
                           +:+ (print_cigar EmptyString clipped_read +:+ "12")))
  /\ parse_cigar 4294967295 (print_cigar EmptyString clipped_read +:+ String "M" "3I")
     = inl bad_lexical_cast.
Proof.
  destruct (parse_cigar_rejects 4294967295 clipped_read "12" "3I" "M") as [Hdigits Hflag].
  - repeat (apply Forall_cons; split; [split; by vm_compute |]). by apply Forall_nil.
  - split; [apply Hdigits | apply Hflag]; by vm_compute.
Defined.

Lemma lexical_cast_Some (Size_max : N) (digits : string) (n : N) :
  lexical_cast Size_max digits = Some n -> (n <= Size_max)%N.
Proof.
  unfold lexical_cast. destruct digits as [|c digits]; [done |].
  destruct (N.leb_spec (digits_value (String c digits) 0) Size_max); [| done].
  by intros [= <-].
Qed.

Lemma parse_cigar_loop_printable (Size_max : N) (cigar : string)
    (result : list CigarOperation) (digits : string)
    (result' : list CigarOperation) (digits' : string) :
  parse_cigar_loop Size_max cigar result digits = inr (result', digits') ->
  Forall (printable Size_max) result ->
  Forall (printable Size_max) result'.
Proof.
  revert result digits. induction cigar as [|c cigar IH]; intros result digits Hparse Hok;
    simpl in Hparse.
  - by injection Hparse as <- _.
  - destruct (is_digit c) eqn:Hc; [by eapply IH |].
    destruct (lexical_cast Size_max digits) as [n|] eqn:Hcast; [| done].
    eapply IH; [done |]. apply Forall_app. split; [done |].
    apply Forall_cons. split; [| done]. split; [done |]. by eapply lexical_cast_Some.
Qed.

(** X27: whatever [parse_cigar] returns, it reads back from its printed
    form: every operation has a flag that is not a digit and a size within
    [CigarOperation::Size], so printing the result and parsing the text gives
    the same result. *)
Theorem parse_cigar_reparse (Size_max : N) (cigar : string) (result : list CigarOperation) :
  parse_cigar Size_max cigar = inr result ->
  Forall (printable Size_max) result
  /\ parse_cigar Size_max (print_cigar EmptyString result) = inr result.
Proof.
  intros Hparse. unfold parse_cigar in Hparse.
  destruct (parse_cigar_loop Size_max cigar [] EmptyString) as [e | [r d]] eqn:Hloop;
    [done |].
  destruct d; [| done]. injection Hparse as <-.
  assert (Forall (printable Size_max) r) as Hok.
  { eapply parse_cigar_loop_printable; [done | by apply Forall_nil]. }
  split; [done |]. unfold parse_cigar.
  rewrite <- (string_app_nil_r (print_cigar EmptyString r)).
  by rewrite parse_cigar_loop_print.
Qed.

Lemma parse_cigar_reparse_witness :
  Forall (printable 4294967295) [mkCigarOperation 7 "M"; mkCigarOperation 20 "Z"]
  /\ parse_cigar 4294967295
       (print_cigar EmptyString [mkCigarOperation 7 "M"; mkCigarOperation 20 "Z"])
     = inr [mkCigarOperation 7 "M"; mkCigarOperation 20 "Z"].
Proof.
  apply (parse_cigar_reparse 4294967295 "007M20Z").
  vm_compute. reflexivity.
Defined.

(** ** Flags *)

(** X28: how the classes of operations meet what they advance: a match
    advances both the reference and the sequence, an insertion or deletion
    advances exactly one of them, a hard clip advances neither; no operation
    is in two of the classes match, insertion or deletion, and clipping, and
    every operation in one of them has a valid flag. *)
Theorem flag_classes (op : CigarOperation) :
  (is_match op = true -> advances_reference op = true /\ advances_sequence op = true)
  /\ (is_indel op = true -> advances_reference op = negb (advances_sequence op))
  /\ (advances_reference op = false /\ advances_sequence op = false
      <-> flag_ op = HARD_CLIPPED)
  /\ is_match op && is_indel op = false
  /\ is_match op && is_clipping op = false
  /\ is_indel op && is_clipping op = false
  /\ (is_match op || is_indel op || is_clipping op = true -> is_valid_flag op = true).
Proof.
  destruct op as [n [[] [] [] [] [] [] [] []]]; vm_compute; intuition congruence.
Qed.

(** * Properties of the program options *)

Lemma unique_from_head (equal : path -> path -> bool) (first : path) (l : list path) :
  exists tail, unique_from equal first l = first :: tail.
Proof.
  revert first. induction l as [|next rest IH]; intros first; simpl; [by eexists |].
  destruct (equal first next); [apply IH | by eexists].
Qed.

(** [std::unique] keeps elements of its input only. *)
Lemma unique_from_elem (equal : path -> path -> bool) (first : path) (l : list path)
    (p : path) :
  p ∈ unique_from equal first l -> p = first \/ p ∈ l.
Proof.
  revert first. induction l as [|next rest IH]; intros first; simpl.
  - rewrite list_elem_of_singleton. tauto.
  - destruct (equal first next).
    + intros H. apply IH in H. rewrite elem_of_cons. tauto.
    + rewrite !elem_of_cons. intros [-> | H]; [tauto |]. apply IH in H. tauto.
Qed.

Lemma scan_readers_num_files {AlignedRead : Type} (fs : FileSystem AlignedRead)
    (l : list path) (st : ReadManager) :
  num_files_ (foldl (scan_reader fs) st l) = num_files_ st.
Proof.
  revert st. induction l as [|p l IH]; intros st; simpl; [done |]. by rewrite IH.
Qed.

Section ProgramOptionsProperties.
Context {AlignedRead : Type} (fs : FileSystem AlignedRead).
Variable read_lines : path -> list string.
Variable path_compare : path -> path -> comparison.

(** What [fs::path::compare] is taken to be: a comparison of the paths up
    to the spelling it does not tell apart. *)
Hypothesis path_compare_refl : forall a, path_compare a a = Eq.
Hypothesis path_compare_antisym :
  forall a b, path_compare b a = CompOpp (path_compare a b).
Hypothesis path_compare_trans :
  forall a b c, path_compare a b = Lt -> path_compare b c = Lt -> path_compare a c = Lt.
Hypothesis path_compare_equal :
  forall a b c, path_compare a b = Eq -> path_compare a c = path_compare b c.

Abbreviation path_lt' := (path_lt path_compare).
Abbreviation path_le' := (path_le path_compare).
Abbreviation path_equal' := (path_equal path_compare).

Lemma path_le_compare (a b : path) : path_le' a b <-> path_compare a b <> Gt.
Proof.
  unfold path_le, path_lt. rewrite (path_compare_antisym a b).
  destruct (path_compare a b); simpl; split; congruence.
Qed.

#[local] Instance path_le_total : Total path_le'.
Proof.
  intros a b. rewrite !path_le_compare, (path_compare_antisym a b).
  destruct (path_compare a b); simpl; [left | left | right]; congruence.
Qed.

#[local] Instance path_le_trans : Transitive path_le'.
Proof.
  intros a b c. rewrite !path_le_compare. intros Hab Hbc.
  destruct (path_compare a b) eqn:Eab; [| | done].
  - by rewrite (path_compare_equal a b c Eab).
  - destruct (path_compare b c) eqn:Ebc; [| | done].
    + assert (path_compare c b = Eq) as Ecb by (by rewrite path_compare_antisym, Ebc).
      rewrite (path_compare_antisym c a), (path_compare_equal c b a Ecb).
      rewrite (path_compare_antisym a b), Eab. simpl. congruence.
    + rewrite (path_compare_trans a b c Eab Ebc). congruence.
Qed.

Lemma path_lt_trans (a b c : path) :
  path_lt' a b = true -> path_lt' b c = true -> path_lt' a c = true.
Proof.
  unfold path_lt. intros Hab Hbc.
  destruct (path_compare a b) eqn:Eab; [done | | done].
  destruct (path_compare b c) eqn:Ebc; [done | | done].
  by rewrite (path_compare_trans a b c Eab Ebc).
Qed.

Lemma unique_from_sorted (first : path) (l : list path) :
  StronglySorted path_le' (first :: l) ->
  Sorted (fun a b => path_lt' a b = true) (unique_from path_equal' first l).
Proof.
  revert first. induction l as [|next rest IH]; intros first Hs; simpl.
  - by repeat constructor.
  - apply StronglySorted_inv in Hs as [Hrest Hfirst].
    destruct (path_equal' first next) eqn:Heq.
    + apply IH. apply StronglySorted_inv in Hrest as [Hrest' _].
      apply Forall_cons in Hfirst as [_ Hfirst]. by constructor.
    + constructor; [by apply IH |].
      destruct (unique_from_head path_equal' next rest) as [tail ->]. constructor.
      apply Forall_cons in Hfirst as [Hle _]. apply path_le_compare in Hle.
      unfold path_equal in Heq. unfold path_lt.
      by destruct (path_compare first next).
Qed.

(** Every element of the input has an equal in what [std::unique] keeps. *)
Lemma unique_from_covers (first : path) (l : list path) (p : path) :
  p = first \/ p ∈ l ->
  exists q, q ∈ unique_from path_equal' first l /\ path_equal' q p = true.
Proof.
  revert first. induction l as [|next rest IH]; intros first; simpl.
  - intros [-> | H]; [| by apply not_elem_of_nil in H].
    exists first. split; [by left |]. unfold path_equal. by rewrite path_compare_refl.
  - rewrite elem_of_cons. destruct (path_equal' first next) eqn:Heq.
    + intros [-> | [-> | H]].
      * apply IH. by left.
      * destruct (unique_from_head path_equal' first rest) as [tail Htail].
        exists first. split; [rewrite Htail; by left | done].
      * apply IH. by right.
    + intros [-> | H].
      * exists first. split; [by left |]. unfold path_equal. by rewrite path_compare_refl.
      * destruct (IH next) as (q & Hq & Hqp); [tauto |].
        exists q. split; [by right | done].
Qed.

Lemma strictly_sorted_NoDup (l : list path) :
  StronglySorted (fun a b => path_lt' a b = true) l -> NoDup l.
Proof.
  induction 1 as [|x l _ IH Hx]; constructor; [| done].
  intros Hin. rewrite Forall_forall in Hx. specialize (Hx _ Hin).
  unfold path_lt in Hx. by rewrite path_compare_refl in Hx.
Qed.

Lemma std_unique_sort (l : list path) :
  StronglySorted (fun a b => path_lt' a b = true)
    (std_unique path_equal' (merge_sort path_le' l))
  /\ (forall p, p ∈ std_unique path_equal' (merge_sort path_le' l) -> p ∈ l)
  /\ (forall p, p ∈ l ->
        exists q, q ∈ std_unique path_equal' (merge_sort path_le' l)
                  /\ path_equal' q p = true).
Proof.
  pose proof (StronglySorted_merge_sort path_le' l) as Hs.
  pose proof (merge_sort_Permutation path_le' l) as Hp.
  destruct (merge_sort path_le' l) as [|first rest]; simpl.
  - split; [constructor |]. split.
    + intros p Hin. by apply not_elem_of_nil in Hin.
    + intros p Hin. rewrite <- Hp in Hin. by apply not_elem_of_nil in Hin.
  - split; [| split].
    + apply Sorted_StronglySorted; [| by apply unique_from_sorted].
      intros a b c. apply path_lt_trans.
    + intros p Hin. apply unique_from_elem in Hin. by rewrite <- Hp, elem_of_cons.
    + intros p Hin. apply unique_from_covers. by rewrite <- Hp, elem_of_cons in Hin.
Qed.

Lemma get_read_paths_inr (options : variables_map) (result : list path) :
  get_read_paths fs read_lines path_compare options = inr result ->
  StronglySorted (fun a b => path_lt' a b = true) result
  /\ (forall p, p ∈ result -> p ∈ named_paths read_lines options)
  /\ (forall p, p ∈ named_paths read_lines options ->
        exists q, q ∈ result /\ path_equal' q p = true)
  /\ (forall file, opt_reads_file options = Some file -> fs_exists fs file = true).
Proof.
  unfold get_read_paths, get_read_paths_file, named_paths.
  destruct (opt_reads_file options) as [file|]; simpl.
  - destruct (fs_exists fs file) eqn:He; [| done]. intros [= <-].
    destruct (std_unique_sort (default [] (opt_reads options) ++ read_lines file))
      as (Hs & Hin & Hcover).
    destruct (opt_reads options); simpl in *;
      (split; [done | split; [done | split; [done |]]]); by intros ? [= <-].
  - intros [= <-].
    destruct (std_unique_sort (default [] (opt_reads options))) as (Hs & Hin & Hcover).
    rewrite app_nil_r.
    destruct (opt_reads options); simpl in *;
      by (split; [done | split; [done | split; [done |]]]).
Qed.

(** X29: the paths [get_read_paths] returns are in strictly increasing
    order of [fs::path]'s [operator<], so no two of them are equal as paths,
    let alone as strings. Each of them is a path of "reads" or a line of
    the file of "reads-file", and every path the options name is equal, as
    a path, to one of them: two spellings of one path are merged. When it
    returns, the file of "reads-file" exists. *)
Theorem get_read_paths_sorted_unique (options : variables_map) (result : list path) :
  get_read_paths fs read_lines path_compare options = inr result ->
  StronglySorted (fun a b => path_lt' a b = true) result
  /\ NoDup result
  /\ (forall p, p ∈ result -> p ∈ named_paths read_lines options)
  /\ (forall p, p ∈ named_paths read_lines options ->
        exists q, q ∈ result /\ path_equal' q p = true)
  /\ (forall file, opt_reads_file options = Some file -> fs_exists fs file = true).
Proof.
  intros Hget. destruct (get_read_paths_inr _ _ Hget) as (Hs & Hin & Hcover & He).
  split; [done |]. split; [by apply strictly_sorted_NoDup | done].
Qed.

(** X30: [get_read_manager] throws before there is a manager when the
    file of "reads-file" does not exist. A manager it constructs is built
    from the paths of [get_read_paths], no two of which are equal as paths:
    it has the budget of "max-open-files" and counts in [num_files_] those
    paths, which is the number of files of its catalogue; all of them exist
    and are named by the options, and, when no two of them have the same
    size, each is either open or closed. *)
Theorem get_read_manager_catalogue (options : variables_map) :
  (forall file,
      opt_reads_file options = Some file -> fs_exists fs file = false ->
      get_read_manager fs read_lines path_compare options
      = inl (runtime_error ("cannot find given read path file " +:+ file)))
  /\ (forall st,
         get_read_manager fs read_lines path_compare options = inr (Ok tt st) ->
         exists read_file_paths,
           get_read_paths fs read_lines path_compare options = inr read_file_paths
           /\ StronglySorted (fun a b => path_lt' a b = true) read_file_paths
           /\ (forall p, p ∈ named_paths read_lines options ->
                 exists q, q ∈ read_file_paths /\ path_equal' q p = true)
           /\ max_open_files_ st = opt_max_open_files options
           /\ num_files_ st = to_unsigned (Z.of_nat (length read_file_paths))
           /\ size (list_to_set read_file_paths : gset path) = length read_file_paths
           /\ (forall p, p ∈ read_file_paths ->
                 p ∈ named_paths read_lines options /\ fs_exists fs p = true)
           /\ (distinct_sizes fs (fun p => p ∈ read_file_paths) ->
               partitioned (list_to_set read_file_paths) st)).
Proof.
  split.
  - intros file Hfile He. unfold get_read_manager, get_read_paths, get_read_paths_file.
    by rewrite Hfile, He.
  - intros st Hget. unfold get_read_manager in Hget.
    destruct (get_read_paths fs read_lines path_compare options) as [e | paths] eqn:Hpaths;
      [done |].
    injection Hget as Hctor.
    destruct (get_read_paths_inr _ _ Hpaths) as (Hs & Hin & Hcover & _).
    exists paths. split; [done |]. split; [done |]. split; [done |].
    pose proof (ctor_Ok_inv fs _ _ _ Hctor) as [Hexists Ho].
    unfold open_initial_files in Ho.
    pose proof (scan_readers_pool fs (elements (list_to_set paths : gset path))
                  (member_init paths (opt_max_open_files options))) as (Hmax & _ & _).
    pose proof (scan_readers_num_files fs (elements (list_to_set paths : gset path))
                  (member_init paths (opt_max_open_files options))) as Hnum.
    pose proof (open_readers_same_indexes fs _ _ _ Ho) as (Hmax' & Hnum' & _).
    split; [by rewrite Hmax', Hmax |]. split; [by rewrite Hnum', Hnum |].
    split; [apply size_list_to_set; by apply strictly_sorted_NoDup |].
    split; [intros p Hp; split; [by apply Hin | by apply Hexists] |].
    intros Hinj. by eapply ctor_splits_catalogue.
Qed.
End ProgramOptionsProperties.

Lemma collapsed_compare_refl (a : path) : collapsed_compare a a = Eq.
Proof. apply Pos.compare_refl. Qed.

Lemma collapsed_compare_antisym (a b : path) :
  collapsed_compare b a = CompOpp (collapsed_compare a b).
Proof. apply Pos.compare_antisym. Qed.

Lemma collapsed_compare_trans (a b c : path) :
  collapsed_compare a b = Lt -> collapsed_compare b c = Lt -> collapsed_compare a c = Lt.
Proof. unfold collapsed_compare. rewrite !Pos.compare_lt_iff. apply Pos.lt_trans. Qed.

Lemma collapsed_compare_equal (a b c : path) :
  collapsed_compare a b = Eq -> collapsed_compare a c = collapsed_compare b c.
Proof. unfold collapsed_compare. rewrite Pos.compare_eq_iff. by intros ->. Qed.

Lemma listed_files_distinct_sizes :
  distinct_sizes listed_files (fun p => p ∈ ["a.bam"; "b.bam"; "c.bam"]).
Proof. solve_distinct_sizes. Qed.

(** The options name sub//a.bam and, in the file, sub/a.bam: one path in
    two spellings, of which one is returned. *)
Lemma get_read_paths_sorted_unique_witness :
  StronglySorted (fun a b => path_lt collapsed_compare a b = true)
    ["b.bam"; "c.bam"; "sub/a.bam"]
  /\ NoDup ["b.bam"; "c.bam"; "sub/a.bam"]
  /\ (forall p, p ∈ ["b.bam"; "c.bam"; "sub/a.bam"] ->
        p ∈ named_paths respelled_lines respelled_options)
  /\ (forall p, p ∈ named_paths respelled_lines respelled_options ->
        exists q, q ∈ ["b.bam"; "c.bam"; "sub/a.bam"]
                  /\ path_equal collapsed_compare q p = true)
  /\ (forall file, opt_reads_file respelled_options = Some file ->
                   fs_exists listed_files file = true).
Proof.
  apply (get_read_paths_sorted_unique listed_files respelled_lines collapsed_compare
           collapsed_compare_refl collapsed_compare_antisym collapsed_compare_trans
           collapsed_compare_equal respelled_options).
  vm_compute. reflexivity.
Defined.

Lemma get_read_manager_catalogue_witness :
  get_read_manager listed_files mixed_lines collapsed_compare missing_options
  = inl (runtime_error "cannot find given read path file missing.txt")
  /\ get_read_paths listed_files mixed_lines collapsed_compare mixed_options
     = inr ["a.bam"; "b.bam"; "c.bam"]
  /\ max_open_files_ listed_files_budget2 = opt_max_open_files mixed_options
  /\ num_files_ listed_files_budget2
     = to_unsigned (Z.of_nat (length ["a.bam"; "b.bam"; "c.bam"]))
  /\ (forall p, p ∈ ["a.bam"; "b.bam"; "c.bam"] ->
        p ∈ named_paths mixed_lines mixed_options /\ fs_exists listed_files p = true)
  /\ partitioned (list_to_set ["a.bam"; "b.bam"; "c.bam"]) listed_files_budget2.
Proof.
  destruct (get_read_manager_catalogue listed_files mixed_lines collapsed_compare
              collapsed_compare_refl collapsed_compare_antisym collapsed_compare_trans
              collapsed_compare_equal missing_options) as [Hmissing _].
  destruct (get_read_manager_catalogue listed_files mixed_lines collapsed_compare
              collapsed_compare_refl collapsed_compare_antisym collapsed_compare_trans
              collapsed_compare_equal mixed_options) as [_ Hbuilt].
  destruct (Hbuilt listed_files_budget2)
    as (paths & Hpaths & _ & _ & Hmax & Hnum & _ & Hexists & Hsplit).
  { vm_compute. reflexivity. }
  vm_compute in Hpaths. injection Hpaths as <-.
  split; [apply (Hmissing "missing.txt"); vm_compute; reflexivity |].
  split; [vm_compute; reflexivity |].
  split; [done |]. split; [done |]. split; [done |].
  apply Hsplit, listed_files_distinct_sizes.
Defined.
